(** * beta-segmentinator: tiling, per-tile filtering, checkpointed aggregation,
      cross-tile deduplication and mask compositing

    A shallow embedding of [main.py], function by function, with the names of
    the source.

    - Numbers the program holds as floats (scores, box coordinates, mask
      probabilities, thresholds, pixels) are exact rationals [Q]: rounding,
      and the cast of the image to [float16], are left out, but for the
      division of [normalize_8_bit], where a [uint64] pixel is rounded to
      [float64] and the divisor of a [float16] image is infinite.  Integers
      ([argparse] [type=int], shapes, indices, counters) are [Z]; Python's
      [//] and [%] agree with [Z.div] and [Z.modulo].  Binarized masks and
      the canvas, which numpy keeps as floats holding whole numbers, are
      arrays of [Z].
    - A two-dimensional numpy array is a shape with a cell function; slices
      follow Python (negative bounds count from the end, bounds are clamped).
      The singleton channel axis of the model's masks ([N,1,T,T]) is dropped.
    - The model's output and the dictionaries built from it keep their three
      parallel arrays ["scores"], ["masks"], ["boxes"].
    - Exceptions are values of [exn] carried by [result]; code that touches
      the file system or calls the model runs in the state monad [M] over a
      [World] that holds the checkpoint directories, the images written, the
      trace of operations performed, and the place at which the file system
      lists a new file: [os.listdir] promises no order.
    - The detector, [tifffile.imread] and [torch.load] are parameters; the
      non-max suppression of [torchvision] is modelled from its contract.

    Part I holds the definitions, Part II the properties. *)

From Stdlib Require Import String Ascii DecimalString DecimalPos DecimalZ.
From Stdlib Require Import ZArith QArith Qround List Sorted Permutation Bool Lia.
Import ListNotations.
Open Scope Z_scope.

(* ================================================================= *)
(** * Part I: definitions *)
(* ================================================================= *)

(** ** Pixel formats and exceptions *)

Inductive dtype : Type :=
  | bool_ | int8 | uint8 | int16 | uint16 | int32 | uint32 | int64 | uint64
  | float16 | float32 | float64 | complex64 | complex128.

Inductive exn : Type :=
  | InvalidDtype (d : dtype)          (* Exception("Invalid dtype ...") *)
  | FileNotFoundError (p : string)
  | RuntimeError                      (* torch.vstack / torch.cat on an empty list *)
  | ValueError
  | IndexError
  | SystemExit (code : Z).

Inductive result (A : Type) : Type :=
  | Ok (a : A)
  | Raise (e : exn).
Arguments Ok {A} a.
Arguments Raise {A} e.

Definition is_ok {A} (r : result A) : bool :=
  match r with Ok _ => true | Raise _ => false end.

(** ** Python primitives *)

(** [len(range(0, stop, step))] for a non-zero step. *)
Definition range_len (stop step : Z) : Z :=
  if (0 <? step) && (0 <? stop) then 1 + (stop - 1) / step
  else if (step <? 0) && (stop <? 0) then 1 + (- 1 - stop) / (- step)
  else 0.

(** [range(0, stop, step)]; Python raises [ValueError] when [step = 0], which
    the callers below check before they iterate. *)
Definition py_range (stop step : Z) : list Z :=
  map (fun k => Z.of_nat k * step) (seq 0 (Z.to_nat (range_len stop step))).

(** [int(x)] on a float, and [tensor.type(torch.int)]: truncation toward 0. *)
Definition py_int (q : Q) : Z := Z.quot (Qnum q) (Zpos (Qden q)).

(** A bound [k] of a slice [a:b] over an axis of length [n]: negative bounds
    count from the end, and every bound is clamped to [0..n]. *)
Definition norm_index (n k : Z) : Z :=
  if k <? 0 then Z.max 0 (k + n) else Z.min k n.

(** Boolean-mask indexing [xs[index]]. *)
Fixpoint select {A} (index : list bool) (xs : list A) : list A :=
  match index, xs with
  | b :: index', x :: xs' => if b then x :: select index' xs' else select index' xs'
  | _, _ => []
  end.

(** ** Arrays *)

Record ndarray (A : Type) : Type := mkArr {
  nrows : Z;                 (* shape[0] *)
  ncols : Z;                 (* shape[1] *)
  cell : Z -> Z -> A
}.
Arguments mkArr {A} nrows ncols cell.
Arguments nrows {A} n.
Arguments ncols {A} n.
Arguments cell {A} n r c.

Definition indices (n : Z) : list Z := map Z.of_nat (seq 0 (Z.to_nat n)).

(** The array as nested lists, row by row. *)
Definition to_lists {A} (m : ndarray A) : list (list A) :=
  map (fun r => map (fun c => cell m r c) (indices (ncols m))) (indices (nrows m)).

(** [numpy.zeros((h, w))] *)
Definition zeros (h w : Z) : ndarray Z := mkArr h w (fun _ _ => 0).

(** [m[r0:r1, c0:c1]] *)
Definition slice2 {A} (m : ndarray A) (r0 r1 c0 c1 : Z) : ndarray A :=
  let a := norm_index (nrows m) r0 in
  let b := norm_index (nrows m) r1 in
  let c := norm_index (ncols m) c0 in
  let d := norm_index (ncols m) c1 in
  mkArr (Z.max 0 (b - a)) (Z.max 0 (d - c)) (fun r k => cell m (a + r) (c + k)).

(** [mask.sum()] *)
Definition mask_sum (m : ndarray Q) : Q :=
  fold_right Qplus 0%Q
    (map (fun r => fold_right Qplus 0%Q (map (fun c => cell m r c) (indices (ncols m))))
         (indices (nrows m))).

(** [(mask >= thres).astype(int)] *)
Definition binarize (thres : Q) (m : ndarray Q) : ndarray Z :=
  mkArr (nrows m) (ncols m) (fun r c => if Qle_bool thres (cell m r c) then 1 else 0).

(** [mask * k] *)
Definition scale (k : Z) (m : ndarray Z) : ndarray Z :=
  mkArr (nrows m) (ncols m) (fun r c => cell m r c * k).

(** [torchvision.transforms.functional.crop(img, top, left, height, width)]:
    the window is padded with zeros where it leaves the image. *)
Definition crop (img : ndarray Q) (top left height width : Z) : ndarray Q :=
  mkArr height width
    (fun r c =>
       if (0 <=? top + r) && (top + r <? nrows img) &&
          (0 <=? left + c) && (left + c <? ncols img)
       then cell img (top + r) (left + c) else 0%Q).

(** ** Detections *)

(** One row [x0, y0, x1, y1] of a boxes array. *)
Record Box : Type := mkBox { bx0 : Q; by0 : Q; bx1 : Q; by1 : Q }.

(** What the model returns for one tile: three parallel arrays with the same
    leading dimension. *)
Record RawDetections : Type := mkRaw {
  scores : list Q;
  masks : list (ndarray Q);
  boxes : list Box
}.

Definition anchor : Type := (Z * Z)%type.

(** An element of a stored ["masks"] entry: a raw mask of an early exit of the
    filter, or the pair [((j, i), trimmed binary mask)] the filter builds. *)
Inductive mask_item : Type :=
  | RawItem (m : ndarray Q)
  | Trimmed (a : anchor) (m : ndarray Z).

(** The dictionary [filter_tile] returns. *)
Record Res : Type := mkRes {
  res_scores : list Q;
  res_masks : list mask_item;
  res_boxes : list Box
}.

(** ** Command-line arguments *)

Inductive device_sel : Type :=
  | Cpu
  | Cuda (n : Z).       (* "cuda:N" *)

Record Args : Type := mkArgs {
  input : string;
  output : string;
  thres_nms : Q;
  thres_prediction : Q;
  thres_mask : Q;
  thres_size : Q;
  tile_size : Z;
  model_path : string;
  device : device_sel;
  rolling_window : Z;
  parallel : bool;
  no_viewer : bool
}.

(** The defaults of [parse_args]. *)
Definition default_args (inp out : string) : Args :=
  mkArgs inp out (1 # 10) (6 # 10) (95 # 100) (3 # 10) 128 "/model.py" (Cuda 0) 10
         false false.

(** ** Error monad *)

Definition bind {A B} (m : result A) (k : A -> result B) : result B :=
  match m with
  | Ok a => k a
  | Raise e => Raise e
  end.

Notation "x <- m ;; k" := (bind m (fun x => k))
  (at level 61, m at next level, right associativity).

(** Boolean-mask indexing [xs[index]] as numpy and torch check it: a mask
    that is not empty must be as long as the indexed axis; an empty mask is
    accepted on an axis of any length and selects nothing. *)
Definition mask_index {A} (index : list bool) (xs : list A) : result (list A) :=
  if (length index =? 0)%nat then Ok []
  else if (length index =? length xs)%nat then Ok (select index xs)
  else Raise IndexError.

(** ** Input normalization: [normalize_8_bit] *)

Definition dtype_eqb (a b : dtype) : bool :=
  match a, b with
  | bool_, bool_ | int8, int8 | uint8, uint8 | int16, int16 | uint16, uint16
  | int32, int32 | uint32, uint32 | int64, int64 | uint64, uint64
  | float16, float16 | float32, float32 | float64, float64
  | complex64, complex64 | complex128, complex128 => true
  | _, _ => false
  end.

(** Item size of a dtype, in bits. *)
Definition dtype_bits (d : dtype) : Z :=
  match d with
  | bool_ | int8 | uint8 => 8
  | int16 | uint16 | float16 => 16
  | int32 | uint32 | float32 => 32
  | int64 | uint64 | float64 | complex64 => 64
  | complex128 => 128
  end.

Record image : Type := mkImage { img_dtype : dtype; pixels : ndarray Q }.

(** The exact quotient of every pixel by [d]. *)
Definition divide (m : ndarray Q) (d : Z) : ndarray Q :=
  mkArr (nrows m) (ncols m) (fun r c => (cell m r c / inject_Z d)%Q).

(** [n / 2^e] rounded to the nearest whole number, a tie to the even one. *)
Definition round_half_even (n e : Z) : Z :=
  let q := n / 2 ^ e in
  let r := n mod 2 ^ e in
  let half := 2 ^ (e - 1) in
  if r <? half then q
  else if half <? r then q + 1
  else if Z.even q then q else q + 1.

(** The [float64] nearest to a whole number [n >= 0]: a number below [2^53]
    is a float as it is; a larger one keeps its 53 leading bits, rounded. *)
Definition float64_of_Z (n : Z) : Z :=
  if n <? 2 ^ 53 then n
  else let e := Z.log2 n - 52 in round_half_even n e * 2 ^ e.

(** The pixels of a 64-bit integer image as floats: numpy converts them to
    [float64] before it divides. *)
Definition as_float64 (m : ndarray Q) : ndarray Q :=
  mkArr (nrows m) (ncols m) (fun r c => inject_Z (float64_of_Z (Qfloor (cell m r c)))).

(** An array of the same shape that holds 0 everywhere. *)
Definition zeros_like (m : ndarray Q) : ndarray Q :=
  mkArr (nrows m) (ncols m) (fun _ _ => 0%Q).

(** [image / d] for an image of dtype [dt] and a Python integer [d], for the
    dtypes and divisors of [normalize_8_bit].  The quotient of an integer
    image is computed in [float64], which holds every integer of up to 32
    bits, but not every unsigned one of 64.  The quotient of a [float16]
    image is computed in [float16]: its largest finite value is 65504, a
    divisor from 65520 on becomes [inf], and a pixel divided by [inf] is 0.
    Everywhere else the quotient is the exact one. *)
Definition true_divide (dt : dtype) (m : ndarray Q) (d : Z) : ndarray Q :=
  match dt with
  | float16 => if 65520 <=? d then zeros_like m else divide m d
  | uint64 => divide (as_float64 m) d
  | _ => divide m d
  end.

(** [image * k] *)
Definition times (m : ndarray Q) (k : Q) : ndarray Q :=
  mkArr (nrows m) (ncols m) (fun r c => (cell m r c * k)%Q).

Definition normalize_8_bit (image : image) : result (ndarray Q) :=
  let d := img_dtype image in
  if dtype_eqb d int8 then Ok (true_divide d (pixels image) (2 ^ 8))
  else if dtype_eqb d float16 || dtype_eqb d uint16
       then Ok (true_divide d (pixels image) (2 ^ 16))
  else if dtype_eqb d float32 || dtype_eqb d uint32
       then Ok (true_divide d (pixels image) (2 ^ 32))
  else if dtype_eqb d float64 || dtype_eqb d uint64
       then Ok (true_divide d (pixels image) (2 ^ 64))
  else Raise (InvalidDtype d).

(** ** Detection filter: [filter_tile] *)

Definition box_area (b : Box) : Q := ((bx1 b - bx0 b) * (by1 b - by0 b))%Q.

(** [x > y] on floats *)
Definition Qgt_bool (x y : Q) : bool := negb (Qle_bool x y).

(** [area / tile_area <= thres]; numpy divides a float by the integer 0 into
    an infinity of the sign of the numerator, or nan, without raising. *)
Definition rel_size_ok (thres : Q) (tile_area : Z) (b : Box) : bool :=
  if tile_area =? 0 then Qgt_bool 0 (box_area b)
  else Qle_bool (box_area b / inject_Z tile_area) thres.

Definition abs_size_ok (b : Box) : bool := Qgt_bool (box_area b) 30.

Definition mask_mass_ok (m : ndarray Q) : bool := Qgt_bool (mask_sum m) 30.

Definition apply_index (index : list bool) (res : RawDetections) : result RawDetections :=
  s <- mask_index index (scores res) ;;
  m <- mask_index index (masks res) ;;
  b <- mask_index index (boxes res) ;;
  Ok (mkRaw s m b).

(** The dictionary returned by an early [return res]: the masks are still the
    model's. *)
Definition untrimmed (res : RawDetections) : Res :=
  mkRes (scores res) (map RawItem (masks res)) (boxes res).

Definition translate (i j : Z) (b : Box) : Box :=
  mkBox (bx0 b + inject_Z j) (by0 b + inject_Z i) (bx1 b + inject_Z j) (by1 b + inject_Z i).

(** [mask[0, int(b[1]):int(b[3]), int(b[0]):int(b[2])]] *)
Definition trim {A} (m : ndarray A) (b : Box) : ndarray A :=
  slice2 m (py_int (by0 b)) (py_int (by1 b)) (py_int (bx0 b)) (py_int (bx1 b)).

Section DetectionFilter.
Variable args : Args.

Definition score_index (res : RawDetections) : list bool :=
  map (fun s => Qle_bool (thres_prediction args) s) (scores res).
Definition rel_size_index (tile_area : Z) (res : RawDetections) : list bool :=
  map (rel_size_ok (thres_size args) tile_area) (boxes res).
Definition abs_size_index (res : RawDetections) : list bool :=
  map abs_size_ok (boxes res).
Definition mask_mass_index (res : RawDetections) : list bool :=
  map mask_mass_ok (masks res).

(** The loop [for k in range(len(res["masks"]))]: binarize mask [k], append
    its trimmed copy to [n_masks], then move box [k] to image coordinates.
    Boxes past the last mask are left as they are; a missing box is an
    [IndexError]. *)
Fixpoint trim_loop (i j : Z) (ms : list (ndarray Q)) (bs : list Box)
  : result (list mask_item * list Box) :=
  match ms with
  | [] => Ok ([], bs)
  | m :: ms' =>
      match bs with
      | [] => Raise IndexError
      | b :: bs' =>
          let mk := binarize (thres_mask args) m in
          let item := Trimmed (j, i) (trim mk b) in
          let b' := translate i j b in
          rest <- trim_loop i j ms' bs' ;;
          Ok (item :: fst rest, b' :: snd rest)
      end
  end.

(** One threshold step: compute the boolean index, then index the scores,
    the masks and the boxes with it. *)
Definition score_step (res : RawDetections) : result RawDetections :=
  apply_index (score_index res) res.
Definition rel_size_step (tile_area : Z) (res : RawDetections) : result RawDetections :=
  apply_index (rel_size_index tile_area res) res.
Definition abs_size_step (res : RawDetections) : result RawDetections :=
  apply_index (abs_size_index res) res.
Definition mask_mass_step (res : RawDetections) : result RawDetections :=
  apply_index (mask_mass_index res) res.

(** [filter_tile]; the two reshapes of one-dimensional arrays never fire, since
    indexing with a boolean mask keeps the rank of the array. *)
Definition filter_tile (res : RawDetections) (tile_area i j : Z) : result Res :=
  res <- score_step res ;;
  if (length (boxes res) =? 0)%nat then Ok (untrimmed res) else
  (* filter big prediction boxes *)
  res <- rel_size_step tile_area res ;;
  if (length (boxes res) =? 0)%nat then Ok (untrimmed res) else
  (* keep only decently sized cells *)
  res <- abs_size_step res ;;
  if (length (boxes res) =? 0)%nat then Ok (untrimmed res) else
  (* keep only those who have masks *)
  res <- mask_mass_step res ;;
  if (length (boxes res) =? 0)%nat then Ok (untrimmed res) else
  out <- trim_loop i j (masks res) (boxes res) ;;
  Ok (mkRes (scores res) (fst out) (snd out)).

(** The four threshold steps of [filter_tile] on their own: the set that
    reaches the binarization loop, or the empty set of an early exit. *)
Definition threshold_steps (res : RawDetections) (tile_area : Z) : result RawDetections :=
  res <- score_step res ;;
  if (length (boxes res) =? 0)%nat then Ok res else
  res <- rel_size_step tile_area res ;;
  if (length (boxes res) =? 0)%nat then Ok res else
  res <- abs_size_step res ;;
  if (length (boxes res) =? 0)%nat then Ok res else
  mask_mass_step res.

End DetectionFilter.

(** ** The world the pipeline runs in *)

(** An element met when iterating a stored ["boxes"] entry: a row ([ndim = 1])
    or a block of rows ([ndim = 2]). *)
Inductive box_item : Type :=
  | BoxRow (b : Box)
  | BoxBlock (bs : list Box).

(** An element met when iterating a stored ["scores"] entry: a scalar
    ([ndim = 0]) or a vector. *)
Inductive score_item : Type :=
  | Score0 (s : Q)
  | Score1 (ss : list Q).

(** A pickled checkpoint, seen as [load_all_steps] iterates it. *)
Record Pickled : Type := mkPickled {
  p_scores : list score_item;
  p_masks : list mask_item;
  p_boxes : list box_item
}.

(** [pickle.dump] of the dictionary built by [save_intermediate_step]: the
    boxes are an [N x 4] array and the scores a vector of length [N]. *)
Definition pickle_dump (res : Res) : Pickled :=
  mkPickled (map Score0 (res_scores res)) (res_masks res) (map BoxRow (res_boxes res)).

Inductive event : Type :=
  | EvImread (p : string)
  | EvListdir (p : string)
  | EvMakedirs (p : string)
  | EvLoadModel (p : string)
  | EvModelCall (i j : Z)            (* the model run on the tile cropped at row i, column j *)
  | EvSave (p : string)
  | EvViewer
  | EvImwrite (p : string).

(** Checkpoint directories with their files in listing order, the label images
    written so far, the operations performed, and the place the file system
    gives a new file in a listing: [os.listdir] promises no order, so
    [slot w dir name names] is any position among the [names] that [dir]
    already lists. *)
Record World : Type := mkWorld {
  dirs : list (string * list (string * Pickled));
  written : list (string * ndarray Z);
  trace : list event;
  slot : string -> string -> list string -> nat
}.

Definition M (A : Type) : Type := World -> result A * World.

Definition ret {A} (a : A) : M A := fun w => (Ok a, w).
Definition raise {A} (e : exn) : M A := fun w => (Raise e, w).
Definition lift {A} (r : result A) : M A := fun w => (r, w).
Definition bindM {A B} (m : M A) (k : A -> M B) : M B :=
  fun w => match m w with
           | (Ok a, w') => k a w'
           | (Raise e, w') => (Raise e, w')
           end.
Definition emit (e : event) : M unit :=
  fun w => (Ok tt, mkWorld (dirs w) (written w) (trace w ++ [e]) (slot w)).

Notation "x <~ m ;; k" := (bindM m (fun x => k))
  (at level 61, m at next level, right associativity).

(** [str(n)] *)
Definition py_str (n : Z) : string := NilZero.string_of_int (Z.to_int n).

Fixpoint last_char (s : string) : option ascii :=
  match s with
  | EmptyString => None
  | String c EmptyString => Some c
  | String _ s' => last_char s'
  end.

(** [os.path.join(a, b)] *)
Definition path_join (a b : string) : string :=
  match b with
  | String "/"%char _ => b
  | _ => match last_char a with
         | None => b
         | Some "/"%char => (a ++ b)%string
         | Some _ => (a ++ "/" ++ b)%string
         end
  end.

Fixpoint lookup {V} (k : string) (l : list (string * V)) : option V :=
  match l with
  | [] => None
  | (k', v) :: l' => if String.eqb k k' then Some v else lookup k l'
  end.

(** Replace the value under [k], or append the binding when [k] is new. *)
Fixpoint put {V} (k : string) (v : V) (l : list (string * V)) : list (string * V) :=
  match l with
  | [] => [(k, v)]
  | (k', v') :: l' => if String.eqb k k' then (k, v) :: l' else (k', v') :: put k v l'
  end.

(** The listing of a directory after a file is written in it: a file of the
    same name is overwritten where it is listed, a new file is listed at
    position [pos] (last, when [pos] is past the end). *)
Definition place {V} (pos : nat) (k : string) (v : V) (l : list (string * V))
  : list (string * V) :=
  match lookup k l with
  | Some _ => put k v l
  | None => firstn pos l ++ (k, v) :: skipn pos l
  end.

(** The listing of [dir] once [name] is written there. *)
Definition listing_after {V} (slot : string -> string -> list string -> nat)
  (dir name : string) (v : V) (entries : list (string * V)) : list (string * V) :=
  place (slot dir name (map fst entries)) name v entries.

(** [os.listdir(path)] together with the files it names. *)
Definition listdir (path : string) : M (list (string * Pickled)) :=
  fun w =>
    let w' := mkWorld (dirs w) (written w) (trace w ++ [EvListdir path]) (slot w) in
    match lookup path (dirs w) with
    | Some entries => (Ok entries, w')
    | None => (Raise (FileNotFoundError path), w')
    end.

(** [os.makedirs(path, exist_ok=True)] *)
Definition makedirs (path : string) : M unit :=
  fun w =>
    let ds := match lookup path (dirs w) with
              | Some _ => dirs w
              | None => dirs w ++ [(path, [])]
              end in
    (Ok tt, mkWorld ds (written w) (trace w ++ [EvMakedirs path]) (slot w)).

(** [save_intermediate_step(res, os.path.join(dir, name))] *)
Definition save_intermediate_step (res : Res) (dir name : string) : M unit :=
  fun w =>
    let w' := mkWorld (dirs w) (written w) (trace w ++ [EvSave (path_join dir name)])
                      (slot w) in
    match lookup dir (dirs w) with
    | Some entries =>
        (Ok tt, mkWorld (put dir (listing_after (slot w) dir name (pickle_dump res) entries)
                                 (dirs w))
                        (written w) (trace w') (slot w))
    | None => (Raise (FileNotFoundError (path_join dir name)), w')
    end.

(** [tifffile.imwrite(path, final)] *)
Definition imwrite (path : string) (final : ndarray Z) : M unit :=
  fun w => (Ok tt, mkWorld (dirs w) (put path final (written w)) (trace w ++ [EvImwrite path])
                           (slot w)).

(** The detector: a black box from a tile to its raw detections, which may
    fail. *)
Definition Model : Type := ndarray Q -> result RawDetections.

(** ** Tile scheduler and per-tile processing: [tile_extraction_part] *)

Section TileExtraction.
Variable args : Args.
Variable tiff : ndarray Q.
Variable model : Model.

Let T := tile_size args.
Let S := rolling_window args.
Let H := nrows tiff.          (* tiff.shape[0] *)
Let W := ncols tiff.          (* tiff.shape[1] *)
Let step1 := path_join (output args) "step1".

(** crop the tile at [(top, left)], run the model and filter its output *)
Definition tile_result (top left : Z) : result Res :=
  res <- model (crop tiff top left T T) ;;
  filter_tile args res (T ^ 2) top left.

Definition run_tile (top left : Z) : M Res :=
  _ <~ emit (EvModelCall top left) ;;
  lift (tile_result top left).

Definition extract_tile_run_model_save (coordX coordY counter : Z) : M unit :=
  res <~ run_tile coordX coordY ;;
  if negb (length (res_boxes res) =? 0)%nat
  then save_intermediate_step res step1 (py_str counter ++ ".pkl")
  else ret tt.

(** [for j in range(0, W, S): if j + T > W: break; ...; counter += 1] *)
Fixpoint sweep_row (i : Z) (js : list Z) (counter : Z) : M Z :=
  match js with
  | [] => ret counter
  | j :: js' =>
      if j + T >? W then ret counter
      else _ <~ extract_tile_run_model_save i j counter ;;
           sweep_row i js' (counter + 1)
  end.

(** [for i in range(0, H, S): if i + T > H: break; <row>] *)
Fixpoint sweep_rows (rows : list Z) (counter : Z) : M Z :=
  match rows with
  | [] => ret counter
  | i :: rows' =>
      if i + T >? H then ret counter
      else counter' <~ sweep_row i (py_range W S) counter ;;
           sweep_rows rows' counter'
  end.

(** an edge tile: the record is saved whatever the filter left *)
Definition edge_tile (top left counter : Z) : M unit :=
  res <~ run_tile top left ;;
  save_intermediate_step res step1 (py_str counter ++ ".pkl").

(** last row: [for j in range(0, W, S): if j + T >= W: break; ...] *)
Fixpoint last_row (js : list Z) (counter : Z) : M Z :=
  match js with
  | [] => ret counter
  | j :: js' =>
      if j + T >=? W then ret counter
      else _ <~ edge_tile (H - T) j counter ;;
           last_row js' (counter + 1)
  end.

(** last columns: [for i in range(0, H, S): if i + T >= H: break; ...] *)
Fixpoint last_columns (rows : list Z) (counter : Z) : M Z :=
  match rows with
  | [] => ret counter
  | i :: rows' =>
      if i + T >=? H then ret counter
      else _ <~ edge_tile i (W - T) counter ;;
           last_columns rows' (counter + 1)
  end.

Definition tile_extraction_part : M unit :=
  if S =? 0 then raise ValueError else       (* range() arg 3 must not be zero *)
  counter <~ sweep_rows (py_range H S) 0 ;;
  counter <~ (if negb (H mod S =? 0) then last_row (py_range W S) counter
              else ret counter) ;;
  counter <~ (if negb (W mod S =? 0) then last_columns (py_range H S) counter
              else ret counter) ;;
  if negb (H mod S =? 0) && negb (W mod S =? 0)
  then edge_tile (H - T) (W - T) counter
  else ret tt.

End TileExtraction.

(** The origins of the tiles a run has processed, in order. *)
Definition tiles_of (tr : list event) : list (Z * Z) :=
  flat_map (fun e => match e with EvModelCall i j => [(i, j)] | _ => [] end) tr.

(** Pixel [(r, c)] lies in the tile of side [T] with origin [(i, j)]. *)
Definition in_tile (T r c : Z) (origin : Z * Z) : bool :=
  (fst origin <=? r) && (r <? fst origin + T) && (snd origin <=? c) && (c <? snd origin + T).

Definition covered (T : Z) (tiles : list (Z * Z)) (r c : Z) : bool :=
  existsb (in_tile T r c) tiles.

(** ** Aggregator: [load_all_steps] *)

(** The lists [load_all_steps] appends to: box rows, score vectors, masks. *)
Record Acc : Type := mkAcc {
  acc_scores : list (list Q);
  acc_masks : list mask_item;
  acc_boxes : list Box
}.

(** [box.ndim == 1]: the row itself; otherwise every row of the block. *)
Definition box_rows (box : box_item) : list Box :=
  match box with
  | BoxRow b => [b]
  | BoxBlock bs => bs
  end.

(** [score.ndim == 0]: [score.view(1)]; otherwise the vector as it is. *)
Definition score_vector (score : score_item) : list Q :=
  match score with
  | Score0 s => [s]
  | Score1 ss => ss
  end.

(** The body of the loop over the files of the directory. *)
Definition load_step (acc : Acc) (temp : Pickled) : Acc :=
  mkAcc (acc_scores acc ++ map score_vector (p_scores temp))
        (acc_masks acc ++ p_masks temp)
        (acc_boxes acc ++ flat_map box_rows (p_boxes temp)).

(** [torch.vstack] and [torch.cat] refuse an empty list of tensors. *)
Definition torch_vstack (rows : list Box) : result (list Box) :=
  match rows with
  | [] => Raise RuntimeError
  | _ => Ok rows
  end.

Definition torch_cat (vectors : list (list Q)) : result (list Q) :=
  match vectors with
  | [] => Raise RuntimeError
  | _ => Ok (concat vectors)
  end.

Definition load_records (temps : list Pickled) : result Res :=
  let acc := fold_left load_step temps (mkAcc [] [] []) in
  b <- torch_vstack (acc_boxes acc) ;;
  s <- torch_cat (acc_scores acc) ;;
  Ok (mkRes s (acc_masks acc) b).

Definition load_all_steps (path : string) : M Res :=
  entries <~ listdir path ;;
  lift (load_records (map snd entries)).

(** ** Global deduplicator *)

Definition qmax (a b : Q) : Q := if Qle_bool a b then b else a.
Definition qmin (a b : Q) : Q := if Qle_bool a b then a else b.

(** Intersection over union of two boxes. *)
Definition iou (a b : Box) : Q :=
  let w := qmax 0 (qmin (bx1 a) (bx1 b) - qmax (bx0 a) (bx0 b)) in
  let h := qmax 0 (qmin (by1 a) (by1 b) - qmax (by0 a) (by0 b)) in
  let inter := (w * h)%Q in
  (inter / (box_area a + box_area b - inter))%Q.

(** Insert index [x] into a list of indices held by descending score, before
    the first index whose score is not greater. *)
Fixpoint insert_desc (score : nat -> Q) (x : nat) (l : list nat) : list nat :=
  match l with
  | [] => [x]
  | y :: l' => if Qle_bool (score y) (score x) then x :: l else y :: insert_desc score x l'
  end.

(** Indices by descending score, ties in original order. *)
Definition argsort_desc (scores : list Q) : list nat :=
  fold_right (insert_desc (fun k => nth k scores 0%Q)) [] (seq 0 (length scores)).

Definition dummy_box : Box := mkBox 0 0 0 0.

(** The IoU of boxes [k] and [c] exceeds the threshold. *)
Definition overlaps (thres : Q) (boxes : list Box) (k c : nat) : bool :=
  Qgt_bool (iou (nth k boxes dummy_box) (nth c boxes dummy_box)) thres.

(** Walk the candidates by descending score: a candidate is suppressed when
    its IoU with a box accepted before exceeds the threshold, accepted
    otherwise. *)
Fixpoint greedy (thres : Q) (boxes : list Box) (order kept : list nat) : list nat :=
  match order with
  | [] => kept
  | c :: order' =>
      if existsb (fun k => overlaps thres boxes k c) kept
      then greedy thres boxes order' kept
      else greedy thres boxes order' (kept ++ [c])
  end.

(** Modelled from the spec: [torchvision.ops.nms] is a library routine outside
    the repository; this is the class-agnostic greedy non-max suppression of
    the Global Deduplicator's contract (sort by score descending, accept the
    best remaining box, suppress the boxes whose IoU with an accepted box
    exceeds the threshold), returning indices by descending score with ties in
    original order. *)
Definition nms (boxes : list Box) (scores : list Q) (iou_threshold : Q) : list nat :=
  greedy iou_threshold boxes (argsort_desc scores) [].

(** Integer-array indexing [xs[indexes]]. *)
Fixpoint gather {A} (indexes : list nat) (xs : list A) : result (list A) :=
  match indexes with
  | [] => Ok []
  | i :: indexes' =>
      match nth_error xs i with
      | Some x => rest <- gather indexes' xs ;; Ok (x :: rest)
      | None => Raise IndexError
      end
  end.

(** The deduplication lines of [pipeline]. *)
Definition deduplicate (args : Args) (output : Res) : result Res :=
  let indexes := nms (res_boxes output) (res_scores output) (thres_nms args) in
  b <- gather indexes (res_boxes output) ;;
  s <- gather indexes (res_scores output) ;;
  m <- gather indexes (res_masks output) ;;
  Ok (mkRes s m b).

(** ** Canvas compositor *)

(** numpy broadcasting of an axis of length [m] onto an axis of length [n] *)
Definition broadcastable (m n : Z) : bool := (m =? n) || (m =? 1).
Definition broadcast_index (m n k : Z) : Z := if m =? n then k else 0.

(** [final[r0:r1, c0:c1] += mask] *)
Definition iadd (final : ndarray Z) (r0 r1 c0 c1 : Z) (mask : ndarray Z)
  : result (ndarray Z) :=
  let a := norm_index (nrows final) r0 in
  let b := norm_index (nrows final) r1 in
  let c := norm_index (ncols final) c0 in
  let d := norm_index (ncols final) c1 in
  let h := Z.max 0 (b - a) in
  let w := Z.max 0 (d - c) in
  if broadcastable (nrows mask) h && broadcastable (ncols mask) w then
    Ok (mkArr (nrows final) (ncols final)
          (fun r k =>
             if (a <=? r) && (r <? a + h) && (c <=? k) && (k <? c + w)
             then cell final r k +
                  cell mask (broadcast_index (nrows mask) h (r - a))
                            (broadcast_index (ncols mask) w (k - c))
             else cell final r k))
  else Raise ValueError.

(** The loop [for i in range(len(output["boxes"]))] from index [i] on. *)
Fixpoint paint (i : Z) (boxes : list Box) (masks : list mask_item) (final : ndarray Z)
  : result (ndarray Z) :=
  match boxes with
  | [] => Ok final
  | box :: boxes' =>
      match masks with
      | [] => Raise IndexError
      | RawItem _ :: _ => Raise ValueError       (* anchor, mask = ... cannot unpack *)
      | Trimmed _ mask :: masks' =>
          let x0 := py_int (bx0 box) in
          let y0 := py_int (by0 box) in
          let x1 := py_int (bx1 box) in
          let y1 := py_int (by1 box) in
          let mask := scale (i + 1) mask in
          final' <- (if negb (y1 - y0 =? nrows mask) || negb (x1 - x0 =? ncols mask)
                     then
                       let mask := slice2 mask 0 (Z.min (nrows mask) (y1 - y0))
                                               0 (Z.min (ncols mask) (x1 - x0)) in
                       iadd final y0 (y0 + nrows mask) x0 (x0 + ncols mask) mask
                     else iadd final y0 y1 x0 x1 mask) ;;
          paint (i + 1) boxes' masks' final'
      end
  end.

Definition composite (original_shape : Z * Z) (output : Res) : result (ndarray Z) :=
  let final := zeros (fst original_shape) (snd original_shape) in
  paint 0 (res_boxes output) (res_masks output) final.

(** ** The pipeline *)

(** What [tifffile.imread] returns: one plane, or a stack of at least two
    channels. *)
Inductive tiff_data : Type :=
  | Plane (d : dtype) (a : ndarray Q)
  | Stack (d : dtype) (first second : ndarray Q) (others : list (ndarray Q)).

Record Env : Type := mkEnv {
  cuda_device_count : Z;                       (* torch.cuda.device_count() *)
  imread : string -> result tiff_data;         (* tifffile.imread *)
  torch_load : string -> result Model          (* torch.load *)
}.

(** [tile_extraction_part_mt]: [pool.join()] is called on a pool that was
    never closed, which multiprocessing refuses. *)
Definition tile_extraction_part_mt : M unit := raise ValueError.

Definition pipeline (env : Env) (args : Args) : M unit :=
  _ <~ (match device args with
        | Cuda n => if n <? cuda_device_count env then ret tt else raise (SystemExit 1)
        | Cpu => ret tt
        end) ;;
  _ <~ emit (EvImread (input args)) ;;
  tiff <~ lift (imread env (input args)) ;;
  let tiff := match tiff with
              | Plane d a => mkImage d a
              | Stack d first _ _ => mkImage d first
              end in
  let original_shape := (nrows (pixels tiff), ncols (pixels tiff)) in
  let step1 := path_join (output args) "step1" in
  _ <~ listdir step1 ;;                       (* len(os.listdir(...)) == 0 or True *)
  _ <~ makedirs step1 ;;
  _ <~ emit (EvLoadModel (model_path args)) ;;
  model <~ lift (torch_load env (model_path args)) ;;
  normalized <~ lift (normalize_8_bit tiff) ;;
  let tiff := times normalized 255 in
  _ <~ (if parallel args then tile_extraction_part_mt
        else tile_extraction_part args tiff model) ;;
  loaded <~ load_all_steps step1 ;;
  kept <~ lift (deduplicate args loaded) ;;
  final <~ lift (composite original_shape kept) ;;
  _ <~ (if negb (no_viewer args) then emit EvViewer else ret tt) ;;
  imwrite (path_join (output args) "output.tiff") final.

(** ** The script *)

(** The plane [pipeline] works on: the image itself, or the first channel of
    a stack. *)
Definition first_plane (t : tiff_data) : image :=
  match t with
  | Plane d a => mkImage d a
  | Stack d first _ _ => mkImage d first
  end.

(** What the script asks the file system before it starts. *)
Record Host : Type := mkHost {
  isfile : string -> bool;            (* os.path.isfile *)
  path_exists : string -> bool        (* os.path.exists *)
}.

(** The script body under [if __name__ == "__main__"].  Its first test,
    [args.device == "cuda"], holds of neither ["cpu"] nor ["cuda:N"], the two
    selectors [device_sel] describes, and is left out. *)
Definition main (env : Env) (host : Host) (args : Args) : M unit :=
  if negb (isfile host (input args)) then raise (SystemExit 1) else
  if negb (isfile host (model_path args)) then raise (SystemExit 1) else
  if parallel args then raise (SystemExit 1) else
  _ <~ (if negb (path_exists host (output args)) then makedirs (output args) else ret tt) ;;
  pipeline env args.

(** ** Detections one by one, and the Detection Filter in the words of its contract *)

(** One detection of a raw set, and one of a filtered set. *)
Record RawDetection : Type := mkRawDetection {
  rd_box : Box;
  rd_score : Q;
  rd_mask : ndarray Q
}.

Record FilteredDetection : Type := mkFiltered {
  fd_box : Box;
  fd_score : Q;
  fd_anchor : anchor;
  fd_mask : ndarray Z
}.

(** The three parallel arrays have the same leading dimension. *)
Definition aligned (res : RawDetections) : Prop :=
  length (scores res) = length (masks res) /\ length (masks res) = length (boxes res).

Definition aligned_res (res : Res) : Prop :=
  length (res_scores res) = length (res_masks res) /\
  length (res_masks res) = length (res_boxes res).

Fixpoint zip3 (ss : list Q) (ms : list (ndarray Q)) (bs : list Box) : list RawDetection :=
  match ss, ms, bs with
  | s :: ss', m :: ms', b :: bs' => mkRawDetection b s m :: zip3 ss' ms' bs'
  | _, _, _ => []
  end.

(** The detections of the parallel arrays, position by position, and back. *)
Definition raw_detections (res : RawDetections) : list RawDetection :=
  zip3 (scores res) (masks res) (boxes res).

Definition of_detections (l : list RawDetection) : RawDetections :=
  mkRaw (map rd_score l) (map rd_mask l) (map rd_box l).

(** The dictionary holding a list of filtered detections. *)
Definition res_of_filtered (l : list FilteredDetection) : Res :=
  mkRes (map fd_score l) (map (fun d => Trimmed (fd_anchor d) (fd_mask d)) l) (map fd_box l).

Definition is_empty {A} (l : list A) : bool :=
  match l with
  | [] => true
  | _ => false
  end.

(** The contract is written from its wording alone; it uses none of the
    functions [filter_tile] is made of. *)

(** [x <= y], [x >= y] and [x > y] on rationals. *)
Definition at_most (x y : Q) : bool :=
  match (x ?= y)%Q with
  | Gt => false
  | _ => true
  end.
Definition at_least (x y : Q) : bool := at_most y x.
Definition exceeds (x y : Q) : bool :=
  match (x ?= y)%Q with
  | Gt => true
  | _ => false
  end.

(** The area of a box [x0, y0, x1, y1]: width times height. *)
Definition area (b : Box) : Q := ((bx1 b - bx0 b) * (by1 b - by0 b))%Q.

(** The sum of the probabilities of a mask, over all its cells. *)
Definition probability_sum (m : ndarray Q) : Q :=
  fold_right Qplus 0%Q (concat (to_lists m)).

(** A mask thresholded at [t]: 1 where the probability is at least [t], 0
    elsewhere. *)
Definition threshold (t : Q) (m : ndarray Q) : ndarray Z :=
  mkArr (nrows m) (ncols m) (fun r c => if at_least (cell m r c) t then 1 else 0).

(** The window [y0:y1, x0:x1] of an array. *)
Definition window {A} (m : ndarray A) (y0 y1 x0 x1 : Z) : ndarray A :=
  mkArr (y1 - y0) (x1 - x0) (fun r c => cell m (y0 + r) (x0 + c)).

(** The pixel extent of a box in the tile's local frame: the whole parts of
    its coordinates. *)
Definition pixel_extent (m : ndarray Z) (b : Box) : ndarray Z :=
  window m (Qfloor (by0 b)) (Qfloor (by1 b)) (Qfloor (bx0 b)) (Qfloor (bx1 b)).

Section DetectionFilterContract.
Variables thresPrediction thresSize thresMask : Q.
Variable tileArea : Z.
Variables originRow originCol : Z.

(** 1. keep only detections with [score >= thresPrediction] *)
Definition keep_score (l : list RawDetection) : list RawDetection :=
  filter (fun d => at_least (rd_score d) thresPrediction) l.

(** 2. keep only boxes whose [area / tileArea <= thresSize] *)
Definition keep_relative_size (l : list RawDetection) : list RawDetection :=
  filter (fun d => at_most (area (rd_box d) / inject_Z tileArea) thresSize) l.

(** 3. keep only boxes with [area > 30] *)
Definition keep_absolute_size (l : list RawDetection) : list RawDetection :=
  filter (fun d => exceeds (area (rd_box d)) 30) l.

(** 4. keep only detections whose raw mask probability sum is [> 30] *)
Definition keep_mask_mass (l : list RawDetection) : list RawDetection :=
  filter (fun d => exceeds (probability_sum (rd_mask d)) 30) l.

(** 5. threshold every surviving mask at [thresMask] to a 0/1 array *)
Definition binarize_all (l : list RawDetection) : list (Box * Q * ndarray Z) :=
  map (fun d => (rd_box d, rd_score d, threshold thresMask (rd_mask d))) l.

(** 6. trim every binary mask to the pixel extent of its box,
    [y0:y1, x0:x1] in the tile's local frame, keeping the tile origin as the
    anchor *)
Definition crop_all (l : list (Box * Q * ndarray Z)) : list (Box * Q * (anchor * ndarray Z)) :=
  map (fun d => match d with
                | (b, s, m) => (b, s, ((originCol, originRow), pixel_extent m b))
                end) l.

(** 7. add [(originCol, originRow, originCol, originRow)] to [x0, y0, x1, y1] *)
Definition translate_all (l : list (Box * Q * (anchor * ndarray Z))) : list FilteredDetection :=
  map (fun d => match d with
                | (b, s, (a, m)) =>
                    mkFiltered (mkBox (bx0 b + inject_Z originCol) (by0 b + inject_Z originRow)
                                      (bx1 b + inject_Z originCol) (by1 b + inject_Z originRow))
                               s a m
                end) l.

(** The seven steps in order, leaving at the first step that empties the set. *)
Definition detection_filter_contract (raw : list RawDetection) : list FilteredDetection :=
  let s := keep_score raw in
  if is_empty s then [] else
  let s := keep_relative_size s in
  if is_empty s then [] else
  let s := keep_absolute_size s in
  if is_empty s then [] else
  let s := keep_mask_mass s in
  if is_empty s then [] else
  translate_all (crop_all (binarize_all s)).

End DetectionFilterContract.

(** A filtered detection read as a raw one, to be filtered again: its box,
    its score, and its binary mask as probabilities 0 and 1. *)
Definition as_raw (d : FilteredDetection) : RawDetection :=
  mkRawDetection (fd_box d) (fd_score d)
    (mkArr (nrows (fd_mask d)) (ncols (fd_mask d)) (fun r c => inject_Z (cell (fd_mask d) r c))).

(** A raw detection as the data model has it: the box lies in the frame of
    its mask, which has the size of the tile. *)
Definition box_in_mask (d : RawDetection) : Prop :=
  (0 <= bx0 (rd_box d))%Q /\ (bx0 (rd_box d) <= bx1 (rd_box d))%Q
  /\ (bx1 (rd_box d) <= inject_Z (ncols (rd_mask d)))%Q
  /\ (0 <= by0 (rd_box d))%Q /\ (by0 (rd_box d) <= by1 (rd_box d))%Q
  /\ (by1 (rd_box d) <= inject_Z (nrows (rd_mask d)))%Q.

(** Two arrays hold the same: the same shape, and the same value in every
    cell of it. *)
Definition same_array {A} (a b : ndarray A) : Prop :=
  nrows a = nrows b /\ ncols a = ncols b
  /\ forall r c, 0 <= r < nrows a -> 0 <= c < ncols a -> cell a r c = cell b r c.

(** A dictionary holds the filtered detections [l]: their scores and boxes
    in order, and for each its anchor paired with an array that holds the
    same as its mask. *)
Definition holds (out : Res) (l : list FilteredDetection) : Prop :=
  res_scores out = map fd_score l
  /\ res_boxes out = map fd_box l
  /\ Forall2 (fun item d => exists m, item = Trimmed (fd_anchor d) m
                                      /\ same_array m (fd_mask d))
             (res_masks out) l.

(** The four threshold tests of [filter_tile], on one detection. *)
Definition passes_score (args : Args) (d : RawDetection) : bool :=
  Qle_bool (thres_prediction args) (rd_score d).
Definition passes_rel_size (args : Args) (tile_area : Z) (d : RawDetection) : bool :=
  rel_size_ok (thres_size args) tile_area (rd_box d).
Definition passes_abs_size (d : RawDetection) : bool := abs_size_ok (rd_box d).
Definition passes_mask_mass (d : RawDetection) : bool := mask_mass_ok (rd_mask d).

(** What it means for a step of the filter to shrink the set [res] into
    [res'] and to leave [res'] unchanged when run again. *)
Definition shrinks_and_settles (step : RawDetections -> result RawDetections)
  (res : RawDetections) : Prop :=
  exists res',
    step res = Ok res'
    /\ aligned res'
    /\ (length (scores res') <= length (scores res))%nat
    /\ incl (raw_detections res') (raw_detections res)
    /\ step res' = Ok res'.

(** The detections a dictionary holds, position by position, and the
    dictionary holding a list of detections. *)
Definition stored_detections (res : Res) : list (Box * (Q * mask_item)) :=
  combine (res_boxes res) (combine (res_scores res) (res_masks res)).

Definition res_of_stored (l : list (Box * (Q * mask_item))) : Res :=
  mkRes (map (fun d => fst (snd d)) l) (map (fun d => snd (snd d)) l) (map fst l).

(** A filtered detection as a dictionary stores it. *)
Definition stored (d : FilteredDetection) : Box * (Q * mask_item) :=
  (fd_box d, (fd_score d, Trimmed (fd_anchor d) (fd_mask d))).

(** ** What the compositor is given, and what a canvas cell should hold *)

(** A mask is binary: every entry is 0 or 1. *)
Definition binary (m : ndarray Z) : Prop := forall r c, cell m r c = 0 \/ cell m r c = 1.

(** The invariant of a filtered detection on an image of [h] rows and [w]
    columns: the mask is a trimmed binary mask of a proper shape, and the
    integer box lies inside the image. *)
Definition well_placed (h w : Z) (box : Box) (item : mask_item) : Prop :=
  match item with
  | RawItem _ => False
  | Trimmed _ mask =>
      binary mask /\ 0 <= nrows mask /\ 0 <= ncols mask
      /\ 0 <= py_int (bx0 box) <= py_int (bx1 box) /\ py_int (bx1 box) <= w
      /\ 0 <= py_int (by0 box) <= py_int (by1 box) /\ py_int (by1 box) <= h
  end.

(** Detection [box], [mask] marks the cell [(r, c)]: the cell lies in the
    window that starts at the box's corner and has the smaller of the mask's
    and the box's extents, and the mask is 1 there. *)
Definition marks (box : Box) (mask : ndarray Z) (r c : Z) : bool :=
  let x0 := py_int (bx0 box) in
  let y0 := py_int (by0 box) in
  let x1 := py_int (bx1 box) in
  let y1 := py_int (by1 box) in
  (y0 <=? r) && (r <? y0 + Z.min (nrows mask) (y1 - y0)) &&
  (x0 <=? c) && (c <? x0 + Z.min (ncols mask) (x1 - x0)) &&
  (cell mask (r - y0) (c - x0) =? 1).

(** The instance ids [i + 1] of the detections that mark the cell [(r, c)],
    the first detection having index [i]. *)
Fixpoint instance_ids (i : Z) (boxes : list Box) (masks : list mask_item) (r c : Z)
  : list Z :=
  match boxes, masks with
  | box :: boxes', Trimmed _ mask :: masks' =>
      (if marks box mask r c then [i + 1] else []) ++ instance_ids (i + 1) boxes' masks' r c
  | _, _ => []
  end.

Definition sum_ids (ids : list Z) : Z := fold_right Z.add 0 ids.

(** The device selector passes the check at the head of [pipeline]. *)
Definition device_available (env : Env) (args : Args) : Prop :=
  match device args with
  | Cuda n => n < cuda_device_count env
  | Cpu => True
  end.

(** The events that load the model or process a tile. *)
Definition is_model_event (e : event) : bool :=
  match e with
  | EvLoadModel _ | EvModelCall _ _ => true
  | _ => false
  end.

(** ** The tiles a scan emits, as a list *)

(** The elements of a loop's range that are visited before its [break]. *)
Fixpoint take_until (stop : Z -> bool) (l : list Z) : list Z :=
  match l with
  | [] => []
  | x :: l' => if stop x then [] else x :: take_until stop l'
  end.

(** The origins along one axis of length [n]: those of the primary sweep
    (break on [k + T > n]) and those of an edge pass (break on [k + T >= n]). *)
Definition sweep_origins (n T S : Z) : list Z :=
  take_until (fun k => k + T >? n) (py_range n S).
Definition edge_origins (n T S : Z) : list Z :=
  take_until (fun k => k + T >=? n) (py_range n S).

(** Primary sweep row by row, then last row, last columns, corner. *)
Definition schedule (H W T S : Z) : list (Z * Z) :=
  flat_map (fun i => map (fun j => (i, j)) (sweep_origins W T S)) (sweep_origins H T S)
  ++ (if negb (H mod S =? 0) then map (fun j => (H - T, j)) (edge_origins W T S) else [])
  ++ (if negb (W mod S =? 0) then map (fun i => (i, W - T)) (edge_origins H T S) else [])
  ++ (if negb (H mod S =? 0) && negb (W mod S =? 0) then [(H - T, W - T)] else []).

(** The detections that pass the four threshold tests, and the filtered
    detection the loop of [filter_tile] makes of one of them. *)
Definition survivors (args : Args) (tile_area : Z) (l : list RawDetection)
  : list RawDetection :=
  filter passes_mask_mass
    (filter passes_abs_size
       (filter (passes_rel_size args tile_area) (filter (passes_score args) l))).

Definition finish (args : Args) (i j : Z) (d : RawDetection) : FilteredDetection :=
  mkFiltered (translate i j (rd_box d)) (rd_score d) (j, i)
             (trim (binarize (thres_mask args) (rd_mask d)) (rd_box d)).

(** The checkpoint directory of a run exists. *)
Definition ready (args : Args) (w : World) : Prop :=
  lookup (path_join (output args) "step1") (dirs w) <> None.

(** Index [x] does not score below index [y]. *)
Definition scores_no_less (scores : list Q) (x y : nat) : Prop :=
  (nth y scores 0 <= nth x scores 0)%Q.

(** A box of a raw detection lies in its tile of side [T]. *)
Definition box_in_tile (T : Z) (b : Box) : Prop :=
  (0 <= bx0 b)%Q /\ (0 <= by0 b)%Q /\ (0 <= bx1 b)%Q /\ (0 <= by1 b)%Q
  /\ py_int (bx0 b) <= py_int (bx1 b) <= T
  /\ py_int (by0 b) <= py_int (by1 b) <= T.

(** ** Pixels, tiles, checkpoints and runs, as the properties speak of them *)

(** A pixel value lies in the range of an unsigned integer of [bits] bits. *)
Definition in_unsigned_range (bits : Z) (x : Q) : Prop :=
  (0 <= x)%Q /\ (x < inject_Z (2 ^ bits))%Q.

(** What holds of every detection of a dictionary the filter returns for the
    tile at row [i], column [j]. *)
Definition filtered_invariant (args : Args) (tile_area i j : Z) (out : Res) : Prop :=
  aligned_res out
  /\ Forall (fun s => (thres_prediction args <= s)%Q) (res_scores out)
  /\ Forall (fun b => (30 < box_area b)%Q) (res_boxes out)
  /\ (tile_area <> 0 ->
      Forall (fun b => (box_area b / inject_Z tile_area <= thres_size args)%Q) (res_boxes out))
  /\ Forall (fun m => exists mask, m = Trimmed (j, i) mask /\ binary mask) (res_masks out).

(** The tile of side [T] with the given origin lies inside an image of [H]
    rows and [W] columns. *)
Definition tile_inside (H W T : Z) (origin : Z * Z) : Prop :=
  0 <= fst origin /\ fst origin + T <= H /\ 0 <= snd origin /\ snd origin + T <= W.

(** The detector answers on every tile with aligned arrays. *)
Definition answers (model : Model) : Prop :=
  forall tile, exists raw, model tile = Ok raw /\ aligned raw.

(** How many origins the primary sweep, and an edge pass, visit along an axis
    of length [n]. *)
Definition sweep_count (n T S : Z) : Z := (n - T) / S + 1.
Definition edge_count (n T S : Z) : Z := (n - T - 1) / S + 1.

(** How many tiles a scan processes. *)
Definition tile_count (H W T S : Z) : Z :=
  sweep_count H T S * sweep_count W T S
  + (if negb (H mod S =? 0) then edge_count W T S else 0)
  + (if negb (W mod S =? 0) then edge_count H T S else 0)
  + (if negb (H mod S =? 0) && negb (W mod S =? 0) then 1 else 0).

(** The tiles of a scan in order, those of the primary sweep flagged: theirs
    are the records saved only when not empty. *)
Definition tagged_schedule (H W T S : Z) : list (bool * (Z * Z)) :=
  map (pair true)
      (flat_map (fun i => map (fun j => (i, j)) (sweep_origins W T S)) (sweep_origins H T S))
  ++ map (pair false)
         (if negb (H mod S =? 0) then map (fun j => (H - T, j)) (edge_origins W T S) else [])
  ++ map (pair false)
         (if negb (W mod S =? 0) then map (fun i => (i, W - T)) (edge_origins H T S) else [])
  ++ map (pair false)
         (if negb (H mod S =? 0) && negb (W mod S =? 0) then [(H - T, W - T)] else []).

(** The tiles of a list processed one after the other, the counter going up
    by one with each. *)
Fixpoint run_tiles (args : Args) (tiff : ndarray Q) (model : Model)
  (tiles : list (bool * (Z * Z))) (counter : Z) : M Z :=
  match tiles with
  | [] => ret counter
  | (primary, (i, j)) :: tiles' =>
      _ <~ (if primary then extract_tile_run_model_save args tiff model i j counter
            else edge_tile args tiff model i j counter) ;;
      run_tiles args tiff model tiles' (counter + 1)
  end.

(** The record of a tile is saved: always for an edge tile, and for a tile
    of the primary sweep when the filtered set is not empty. *)
Definition saves (primary : bool) (res : Res) : bool :=
  negb primary || negb (length (res_boxes res) =? 0)%nat.

(** The name [str(counter) + ".pkl"] of the checkpoint of the tile numbered
    [counter]. *)
Definition checkpoint_name (counter : Z) : string := (py_str counter ++ ".pkl")%string.

(** What [os.path.join(a, b)] puts before [b] when [b] is not absolute. *)
Definition join_prefix (a : string) : string :=
  match last_char a with
  | None => EmptyString
  | Some "/"%char => a
  | Some _ => (a ++ "/")%string
  end.

(** The paths a run has saved records to, in order. *)
Definition saves_of (tr : list event) : list string :=
  flat_map (fun e => match e with EvSave p => [p] | _ => [] end) tr.

(** The counters below [c] whose checkpoints make up the list [saved], in
    ascending order. *)
Definition saved_under (dir : string) (c : Z) (saved : list string) : Prop :=
  exists ks, saved = map (fun k => path_join dir (checkpoint_name k)) ks
             /\ StronglySorted Z.lt ks
             /\ Forall (fun k => 0 <= k < c) ks.

(** The dictionary that holds the records [files] one after the other. *)
Definition res_of_records (files : list Res) : Res :=
  mkRes (flat_map res_scores files) (flat_map res_masks files) (flat_map res_boxes files).

(** A checkpoint that holds its boxes as one block of rows and its scores as
    one vector. *)
Definition block_record (ss : list Q) (ms : list mask_item) (bs : list Box) : Pickled :=
  mkPickled [Score1 ss] ms [BoxBlock bs].

(** The detector answers on every tile, and scores nothing at or above the
    prediction threshold. *)
Definition finds_nothing (args : Args) (model : Model) : Prop :=
  forall tile, exists raw,
    model tile = Ok raw /\ aligned raw
    /\ Forall (fun s => (s < thres_prediction args)%Q) (scores raw).

(** A checkpoint that holds no box. *)
Definition empty_record (f : string * Pickled) : Prop := p_boxes (snd f) = [].

(** A dictionary the deduplicator and the compositor can work on, for an
    image of [h] rows and [w] columns: as many scores as boxes, and every box
    with a mask placed as the compositor expects. *)
Definition sound_res (h w : Z) (res : Res) : Prop :=
  length (res_scores res) = length (res_boxes res)
  /\ Forall2 (well_placed h w) (res_boxes res) (res_masks res).

(** A checkpoint that holds such a dictionary. *)
Definition sound_record (h w : Z) (f : string * Pickled) : Prop :=
  exists res, snd f = pickle_dump res /\ sound_res h w res.

(** What a record of the checkpoint directory is during a scan: a sound
    record, or the record of a tile the scan has processed. *)
Definition traced_record (args : Args) (tiff : ndarray Q) (model : Model) (h w : Z)
  (tr : list event) (f : string * Pickled) : Prop :=
  sound_record h w f
  \/ exists i j res, In (i, j) (tiles_of tr)
                     /\ tile_result args tiff model i j = Ok res
                     /\ snd f = pickle_dump res.

(** The detector answers on every tile with aligned arrays and boxes that lie
    in the tile. *)
Definition answers_in_tile (T : Z) (model : Model) : Prop :=
  forall tile, exists raw,
    model tile = Ok raw /\ aligned raw /\ Forall (box_in_tile T) (boxes raw).

(** The world in which [pipeline] starts the scan: the image is read, the
    checkpoint directory listed and made, the model loaded. *)
Definition at_scan (args : Args) (w : World) : World :=
  mkWorld (dirs w) (written w)
    ((((trace w ++ [EvImread (input args)])
       ++ [EvListdir (path_join (output args) "step1")])
      ++ [EvMakedirs (path_join (output args) "step1")])
     ++ [EvLoadModel (model_path args)])
    (slot w).

(** A prepared run: the device is there, the image is read and has a
    supported pixel format, the checkpoint directory exists and holds sound
    records only, no tile has been processed yet, the model is loaded and
    answers with boxes in the tile, the scan is sequential with a positive
    stride, and the tile fits the image. *)
Definition prepared (env : Env) (args : Args) (w : World) (tiff : tiff_data)
  (model : Model) (normalized : ndarray Q) : Prop :=
  let h := nrows (pixels (first_plane tiff)) in
  let w' := ncols (pixels (first_plane tiff)) in
  device_available env args
  /\ imread env (input args) = Ok tiff
  /\ normalize_8_bit (first_plane tiff) = Ok normalized
  /\ (exists entries, lookup (path_join (output args) "step1") (dirs w) = Some entries
                      /\ Forall (sound_record h w') entries)
  /\ tiles_of (trace w) = []
  /\ torch_load env (model_path args) = Ok model
  /\ answers_in_tile (tile_size args) model
  /\ parallel args = false
  /\ 0 < rolling_window args
  /\ tile_size args <= h /\ tile_size args <= w'.

(** ** Example inputs *)

(** An all-zero image of the given shape. *)
Definition blank (h w : Z) : ndarray Q := mkArr h w (fun _ _ => 0%Q).

(** A detector that finds nothing in any tile. *)
Definition no_detections : Model := fun _ => Ok (mkRaw [] [] []).

(** [parse_args] with its default thresholds and the given tile side and
    stride, writing under ["out"]. *)
Definition args_with (T S : Z) : Args :=
  mkArgs "in.tiff" "out" (1 # 10) (6 # 10) (95 # 100) (3 # 10) T "/model.py" (Cuda 0) S
         false false.

(** A file system that lists the files of a directory in the order of their
    creation. *)
Definition creation_order : string -> string -> list string -> nat :=
  fun _ _ names => length names.

(** A world in which ["out/step1"] exists and is empty. *)
Definition prepared_world : World :=
  mkWorld [("out/step1"%string, [])] [] [] creation_order.

(** A world with no checkpoint directory at all. *)
Definition fresh_world : World := mkWorld [] [] [] creation_order.

(** The scan of a blank [h x w] image with tile side [T] and stride [S]. *)
Definition blank_scan (h w T S : Z) : result unit * World :=
  tile_extraction_part (args_with T S) (blank h w) no_detections prepared_world.

(** One detection in a tile of side 32: score 0.9, box [0, 0, 10, 10], and a
    mask of probability 1 everywhere. *)
Definition sample_raw : RawDetections :=
  mkRaw [9 # 10] [mkArr 32 32 (fun _ _ => 1%Q)] [mkBox 0 0 10 10].

(** Arrays as no detector should return them: a score and a box without a
    mask, and a mask and a box without a score. *)
Definition ragged_raw : RawDetections := mkRaw [9 # 10] [] [mkBox 0 0 10 10].
Definition scoreless_raw : RawDetections :=
  mkRaw [] [mkArr 32 32 (fun _ _ => 1%Q)] [mkBox 0 0 10 10].

(** Six detections in a tile of side 32.  The first passes every test: its
    box has fractional corners and is wider than high, and its mask is 1 in
    the six columns on the left and 1/2 elsewhere.  The second fails on its
    score, the third on its relative size, the fourth on its absolute size,
    the fifth on the sum of its mask.  The last is the box [0, 0, 10, 10]
    under a mask of ones. *)
Definition left_columns : ndarray Q :=
  mkArr 32 32 (fun _ c => if c <? 6 then 1%Q else (1 # 2)%Q).
Definition ones : ndarray Q := mkArr 32 32 (fun _ _ => 1%Q).
Definition faint : ndarray Q := mkArr 32 32 (fun _ _ => (1 # 100)%Q).
Definition six_detections : list RawDetection :=
  [mkRawDetection (mkBox (5 # 2) (5 # 4) (43 # 4) (15 # 2)) (9 # 10) left_columns;
   mkRawDetection (mkBox 0 0 10 10) (5 # 10) ones;
   mkRawDetection (mkBox 0 0 32 32) (9 # 10) ones;
   mkRawDetection (mkBox 0 0 5 5) (9 # 10) ones;
   mkRawDetection (mkBox 0 0 10 10) (9 # 10) faint;
   mkRawDetection (mkBox 0 0 10 10) (8 # 10) ones].

(** Two checkpoint files as the filter leaves them: one detection, and two. *)
Definition two_files : list (string * list FilteredDetection) :=
  [("0.pkl"%string, [mkFiltered (mkBox 0 0 2 2) (9 # 10) (0, 0) (mkArr 2 2 (fun _ _ => 1))]);
   ("7.pkl"%string, [mkFiltered (mkBox 10 0 11 1) (8 # 10) (10, 0) (mkArr 1 1 (fun _ _ => 1));
                     mkFiltered (mkBox 12 3 13 5) (7 # 10) (10, 0) (mkArr 2 1 (fun _ _ => 1))])].

(** A world whose checkpoint directory holds these two files. *)
Definition two_record_world : World :=
  mkWorld [("out/step1"%string,
            map (fun f => (fst f, pickle_dump (res_of_filtered (snd f)))) two_files)] [] []
          creation_order.

(** A file system that lists a new file before the files already there. *)
Definition newest_first : string -> string -> list string -> nat :=
  fun _ _ _ => 0%nat.

(** The same directory on such a file system. *)
Definition two_record_world_newest_first : World :=
  mkWorld (dirs two_record_world) [] [] newest_first.

(** Two boxes with IoU 1/2, two boxes with IoU 1/20, and an aggregated set
    holding the first pair. *)
Definition wide_box : Box := mkBox 0 0 2 1.
Definition unit_box : Box := mkBox 0 0 1 1.
Definition long_box : Box := mkBox 0 0 20 1.
Definition overlapping_pair : list (Box * (Q * mask_item)) :=
  [(wide_box, (7 # 10, Trimmed (0, 0) (mkArr 1 2 (fun _ _ => 1))));
   (unit_box, (9 # 10, Trimmed (0, 0) (mkArr 1 1 (fun _ _ => 1))))].

(** Two kept detections that overlap on a 4 x 5 image: a 2 x 2 mask at rows
    0-1, columns 0-1, and a 2 x 3 mask at rows 1-2, columns 1-3. *)
Definition overlapping_kept : Res :=
  mkRes [9 # 10; 8 # 10]
        [Trimmed (0, 0) (mkArr 2 2 (fun _ _ => 1)); Trimmed (0, 0) (mkArr 2 3 (fun _ _ => 1))]
        [mkBox 0 0 2 2; mkBox 1 1 4 3].

(** One GPU, a 16-bit 4 x 4 input image, and the detector that finds nothing. *)
Definition small_env : Env :=
  mkEnv 1 (fun _ => Ok (Plane uint16 (blank 4 4))) (fun _ => Ok no_detections).

(** A 34 x 34 image with one bright 6 x 6 blob at rows and columns 12-17, and
    a detector that reports the lit part of a tile: its bounding box, its mask,
    and as score the fraction of the blob it sees. *)
Definition blob_image : ndarray Q :=
  mkArr 34 34 (fun r c => if (12 <=? r) && (r <? 18) && (12 <=? c) && (c <? 18)
                          then 65535%Q else 0%Q).

Definition bright (m : ndarray Q) (r c : Z) : bool := Qgt_bool (cell m r c) 0.

Definition blob_model : Model := fun tile =>
  let rows := filter (fun r => existsb (bright tile r) (indices (ncols tile)))
                     (indices (nrows tile)) in
  let cols := filter (fun c => existsb (fun r => bright tile r c) (indices (nrows tile)))
                     (indices (ncols tile)) in
  match rows, cols with
  | y0 :: _, x0 :: _ =>
      let y1 := last rows 0 + 1 in
      let x1 := last cols 0 + 1 in
      Ok (mkRaw [inject_Z ((y1 - y0) * (x1 - x0)) / 36]%Q
                [mkArr (nrows tile) (ncols tile)
                       (fun r c => if bright tile r c then 1%Q else 0%Q)]
                [mkBox (inject_Z x0) (inject_Z y0) (inject_Z x1) (inject_Z y1)])
  | _, _ => Ok (mkRaw [] [] [])
  end.

Definition blob_env : Env :=
  mkEnv 1 (fun _ => Ok (Plane uint16 blob_image)) (fun _ => Ok blob_model).

(** The label image a run is expected to write for the blob. *)
Definition is_blob_label (final : ndarray Z) : bool :=
  (nrows final =? 34) && (ncols final =? 34) &&
  forallb (fun r => forallb (fun c =>
             cell final r c
             =? (if (12 <=? r) && (r <? 18) && (12 <=? c) && (c <? 18) then 1 else 0))
           (indices 34)) (indices 34).

(** One GPU and an 8-bit 4 x 4 input image. *)
Definition uint8_env : Env :=
  mkEnv 1 (fun _ => Ok (Plane uint8 (blank 4 4))) (fun _ => Ok no_detections).

(** One filtered detection, as a dictionary. *)
Definition one_detection : Res :=
  res_of_filtered [mkFiltered (mkBox 0 0 2 2) (9 # 10) (0, 0) (mkArr 2 2 (fun _ _ => 1))].

(** A host on which every path is a file and exists. *)
Definition full_host : Host := mkHost (fun _ => true) (fun _ => true).

(** A detector that reports the same cell in every tile: score 0.9, box
    [0, 0, 8, 8], and a 16 x 16 mask of probability 1. *)
Definition fixed_model : Model := fun _ =>
  Ok (mkRaw [9 # 10] [mkArr 16 16 (fun _ _ => 1%Q)] [mkBox 0 0 8 8]).

(** One GPU, a 16-bit 34 x 34 blank image, and that detector. *)
Definition fixed_env : Env :=
  mkEnv 1 (fun _ => Ok (Plane uint16 (blank 34 34))) (fun _ => Ok fixed_model).

(* ================================================================= *)
(** * Part II: properties *)
(* ================================================================= *)

(** ** Input normalization *)





(** ** Detection filter *)

Lemma select_map {A B} (P : A -> bool) (f : A -> B) (l : list A) :
  select (map P l) (map f l) = map f (filter P l).
Proof.
  induction l as [|a l IH]; simpl; [reflexivity|].
  destruct (P a); simpl; now rewrite IH.
Qed.

Lemma apply_index_of_detections (P : RawDetection -> bool) (l : list RawDetection) :
  apply_index (map P l) (of_detections l) = Ok (of_detections (filter P l)).
Proof.
  unfold apply_index, mask_index, of_detections; simpl.
  rewrite !length_map, Nat.eqb_refl.
  destruct l as [|d l]; [reflexivity|]. cbn [length Nat.eqb bind].
  now rewrite !select_map.
Qed.

Lemma raw_of_detections (l : list RawDetection) : raw_detections (of_detections l) = l.
Proof.
  unfold raw_detections, of_detections; simpl.
  induction l as [|[b s m] l IH]; simpl; [reflexivity|]. now rewrite IH.
Qed.

Lemma of_raw_detections (res : RawDetections) :
  aligned res -> of_detections (raw_detections res) = res.
Proof.
  destruct res as [ss ms bs]; unfold aligned, raw_detections, of_detections; simpl.
  revert ms bs; induction ss as [|s ss IH]; intros [|m ms] [|b bs] [E1 E2];
    simpl in *; try discriminate; [reflexivity|].
  injection E1 as E1; injection E2 as E2.
  specialize (IH ms bs (conj E1 E2)). injection IH as -> -> ->. reflexivity.
Qed.

Lemma aligned_of_detections (l : list RawDetection) : aligned (of_detections l).
Proof. unfold aligned, of_detections; simpl. now rewrite !length_map. Qed.

Lemma length_boxes_of_detections (l : list RawDetection) :
  (length (boxes (of_detections l)) =? 0)%nat = is_empty l.
Proof. destruct l; reflexivity. Qed.

Section FilterOnDetections.
Variable args : Args.
Variable tile_area : Z.

Lemma score_step_of_detections l :
  score_step args (of_detections l) = Ok (of_detections (filter (passes_score args) l)).
Proof.
  unfold score_step, score_index; simpl. rewrite map_map.
  apply (apply_index_of_detections (passes_score args)).
Qed.

Lemma rel_size_step_of_detections l :
  rel_size_step args tile_area (of_detections l)
  = Ok (of_detections (filter (passes_rel_size args tile_area) l)).
Proof.
  unfold rel_size_step, rel_size_index; simpl. rewrite map_map.
  apply (apply_index_of_detections (passes_rel_size args tile_area)).
Qed.

Lemma abs_size_step_of_detections l :
  abs_size_step (of_detections l) = Ok (of_detections (filter passes_abs_size l)).
Proof.
  unfold abs_size_step, abs_size_index; simpl. rewrite map_map.
  apply (apply_index_of_detections passes_abs_size).
Qed.

Lemma mask_mass_step_of_detections l :
  mask_mass_step (of_detections l) = Ok (of_detections (filter passes_mask_mass l)).
Proof.
  unfold mask_mass_step, mask_mass_index; simpl. rewrite map_map.
  apply (apply_index_of_detections passes_mask_mass).
Qed.

Lemma trim_loop_of_detections i j l :
  trim_loop args i j (map rd_mask l) (map rd_box l)
  = Ok (map (fun d => Trimmed (j, i) (trim (binarize (thres_mask args) (rd_mask d)) (rd_box d))) l,
        map (fun d => translate i j (rd_box d)) l).
Proof.
  induction l as [|d l IH]; simpl; [reflexivity|]. now rewrite IH.
Qed.

(** The four threshold steps amount to one pass that keeps the detections
    passing all four tests. *)
Lemma threshold_steps_of_detections l :
  threshold_steps args (of_detections l) tile_area
  = Ok (of_detections
          (filter passes_mask_mass
             (filter passes_abs_size
                (filter (passes_rel_size args tile_area) (filter (passes_score args) l))))).
Proof.
  unfold threshold_steps.
  rewrite score_step_of_detections; cbn [bind].
  rewrite length_boxes_of_detections.
  destruct (filter (passes_score args) l) as [|d1 l1] eqn:E1; [reflexivity|]; cbn [is_empty].
  rewrite rel_size_step_of_detections; cbn [bind].
  rewrite length_boxes_of_detections.
  destruct (filter (passes_rel_size args tile_area) (d1 :: l1)) as [|d2 l2] eqn:E2;
    [reflexivity|]; cbn [is_empty].
  rewrite abs_size_step_of_detections; cbn [bind].
  rewrite length_boxes_of_detections.
  destruct (filter passes_abs_size (d2 :: l2)) as [|d3 l3] eqn:E3; [reflexivity|]; cbn [is_empty].
  apply mask_mass_step_of_detections.
Qed.

(** [filter_tile] keeps the survivors of the four tests and finishes each. *)
Lemma filter_tile_survivors i j l :
  filter_tile args (of_detections l) tile_area i j
  = Ok (res_of_filtered (map (finish args i j) (survivors args tile_area l))).
Proof.
  unfold filter_tile, survivors.
  rewrite score_step_of_detections; cbn [bind].
  rewrite length_boxes_of_detections.
  destruct (filter (passes_score args) l) as [|d1 l1]; [reflexivity|]; cbn [is_empty].
  rewrite rel_size_step_of_detections; cbn [bind].
  rewrite length_boxes_of_detections.
  destruct (filter (passes_rel_size args tile_area) (d1 :: l1)) as [|d2 l2];
    [reflexivity|]; cbn [is_empty].
  rewrite abs_size_step_of_detections; cbn [bind].
  rewrite length_boxes_of_detections.
  destruct (filter passes_abs_size (d2 :: l2)) as [|d3 l3]; [reflexivity|]; cbn [is_empty].
  rewrite mask_mass_step_of_detections; cbn [bind].
  rewrite length_boxes_of_detections.
  destruct (filter passes_mask_mass (d3 :: l3)) as [|d4 l4]; [reflexivity|]; cbn [is_empty].
  unfold of_detections at 1 2; cbn [masks boxes].
  rewrite trim_loop_of_detections; cbn [bind fst snd].
  unfold res_of_filtered, finish, of_detections.
  cbn [scores]. rewrite !map_map. reflexivity.
Qed.

End FilterOnDetections.

Lemma filter_filter {A} (P R : A -> bool) (l : list A) :
  filter R (filter P l) = filter (fun x => P x && R x) l.
Proof.
  induction l as [|a l IH]; simpl; [reflexivity|].
  destruct (P a); simpl; [destruct (R a); now rewrite IH | exact IH].
Qed.

Lemma filter_idempotent {A} (P : A -> bool) (l : list A) :
  filter P (filter P l) = filter P l.
Proof.
  rewrite filter_filter. apply filter_ext. intro a. now destruct (P a).
Qed.

Lemma filter_length_le {A} (P : A -> bool) (l : list A) :
  (length (filter P l) <= length l)%nat.
Proof.
  induction l as [|a l IH]; simpl; [lia|]. destruct (P a); simpl; lia.
Qed.

Lemma step_shrinks_and_settles (P : RawDetection -> bool)
  (step : RawDetections -> result RawDetections) (res : RawDetections) :
  (forall l, step (of_detections l) = Ok (of_detections (filter P l))) ->
  aligned res -> shrinks_and_settles step res.
Proof.
  intros Hstep Hres.
  pose proof (of_raw_detections res Hres) as E.
  remember (raw_detections res) as l eqn:El.
  exists (of_detections (filter P l)).
  rewrite <- E, !Hstep, filter_idempotent, !raw_of_detections.
  split; [reflexivity|].
  split; [apply aligned_of_detections|].
  split; [cbn [of_detections scores]; rewrite !length_map; apply filter_length_le|].
  split; [apply incl_filter | reflexivity].
Qed.

(** Arrays of different lengths make the first boolean indexing fail, when
    there is a score to index with. *)
Lemma filter_tile_misaligned (args : Args) (res : RawDetections) (tile_area i j : Z) :
  ~ aligned res -> scores res <> [] ->
  filter_tile args res tile_area i j = Raise IndexError.
Proof.
  intros Hres Hs. unfold filter_tile, score_step, apply_index, mask_index, score_index.
  rewrite length_map, Nat.eqb_refl.
  destruct (scores res) as [|s ss] eqn:Es; [congruence|]. cbn [length Nat.eqb bind].
  destruct (masks res) as [|m ms] eqn:Em; [reflexivity|]. cbn [length Nat.eqb].
  destruct (length ss =? length ms)%nat eqn:E1; [|reflexivity]. cbn [bind].
  destruct (boxes res) as [|b bs] eqn:Eb; [reflexivity|]. cbn [length Nat.eqb].
  destruct (length ss =? length bs)%nat eqn:E2; [|reflexivity].
  exfalso. apply Hres. apply Nat.eqb_eq in E1, E2. unfold aligned.
  rewrite Es, Em, Eb. cbn [length]. split; congruence.
Qed.

(** Without scores the first index is empty: it selects nothing from the
    masks and the boxes, however many there are. *)
Lemma filter_tile_without_scores (args : Args) (res : RawDetections) (tile_area i j : Z) :
  scores res = [] -> filter_tile args res tile_area i j = Ok (mkRes [] [] []).
Proof.
  intro Hs. unfold filter_tile, score_step, apply_index, mask_index, score_index.
  rewrite Hs. reflexivity.
Qed.

(** *** The filter against its contract *)

Lemma at_most_Qle_bool (x y : Q) : at_most x y = Qle_bool x y.
Proof. reflexivity. Qed.

Lemma exceeds_Qgt_bool (x y : Q) : exceeds x y = Qgt_bool x y.
Proof.
  unfold exceeds, Qgt_bool, Qle_bool, Qcompare, Z.leb. now destruct (_ ?= _)%Z.
Qed.

Lemma exceeds_comp (x x' y : Q) : (x == x')%Q -> exceeds x y = exceeds x' y.
Proof. intro H. unfold exceeds. now rewrite H. Qed.

Lemma sum_app (l l' : list Q) :
  (fold_right Qplus 0 (l ++ l') == fold_right Qplus 0 l + fold_right Qplus 0 l')%Q.
Proof.
  induction l as [|x l IH]; cbn [app fold_right]; [ring|]. rewrite IH. ring.
Qed.

Lemma sum_concat (ll : list (list Q)) :
  (fold_right Qplus 0 (concat ll) == fold_right Qplus 0 (map (fold_right Qplus 0%Q) ll))%Q.
Proof.
  induction ll as [|l ll IH]; cbn [concat map fold_right]; [reflexivity|].
  now rewrite sum_app, IH.
Qed.

(** Summing a mask cell by cell, or row by row, gives the same. *)
Lemma probability_sum_mask_sum (m : ndarray Q) : (probability_sum m == mask_sum m)%Q.
Proof.
  unfold probability_sum, mask_sum, to_lists. now rewrite sum_concat, map_map.
Qed.

(** [int(x)] takes the whole part of a float that is not negative. *)
Lemma py_int_Qfloor (q : Q) : (0 <= q)%Q -> py_int q = Qfloor q.
Proof.
  destruct q as [n d]. unfold Qle, py_int, Qfloor; cbn [Qnum Qden]. intro H.
  apply Z.quot_div_nonneg; lia.
Qed.

Lemma norm_index_inside (n k : Z) : 0 <= k <= n -> norm_index n k = k.
Proof.
  intro H. unfold norm_index. destruct (k <? 0) eqn:E; [apply Z.ltb_lt in E|]; lia.
Qed.

Lemma Qfloor_inside (n : Z) (a b : Q) :
  (0 <= a)%Q -> (a <= b)%Q -> (b <= inject_Z n)%Q ->
  0 <= Qfloor a /\ Qfloor a <= Qfloor b /\ Qfloor b <= n.
Proof.
  intros H0 H1 H2. split; [|split].
  - change 0 with (Qfloor 0). now apply Qfloor_resp_le.
  - now apply Qfloor_resp_le.
  - rewrite <- (Qfloor_Z n). now apply Qfloor_resp_le.
Qed.

(** On a box that lies in its mask, the slice [filter_tile] takes of the
    binarized mask is the pixel extent of the box in the thresholded mask. *)
Lemma trim_pixel_extent (t : Q) (d : RawDetection) :
  box_in_mask d ->
  same_array (trim (binarize t (rd_mask d)) (rd_box d))
             (pixel_extent (threshold t (rd_mask d)) (rd_box d)).
Proof.
  intros (X0 & X01 & X1 & Y0 & Y01 & Y1).
  destruct (Qfloor_inside _ _ _ X0 X01 X1) as (FX0 & FX01 & FX1).
  destruct (Qfloor_inside _ _ _ Y0 Y01 Y1) as (FY0 & FY01 & FY1).
  unfold trim, slice2, pixel_extent, window, binarize, threshold, same_array.
  cbn [nrows ncols cell].
  rewrite (py_int_Qfloor _ X0), (py_int_Qfloor _ Y0).
  rewrite (py_int_Qfloor _ (Qle_trans _ _ _ X0 X01)), (py_int_Qfloor _ (Qle_trans _ _ _ Y0 Y01)).
  rewrite !norm_index_inside by lia.
  split; [lia|]. split; [lia|]. intros r c _ _. reflexivity.
Qed.

Lemma Forall_filter {A} (P : A -> Prop) (f : A -> bool) (l : list A) :
  Forall P l -> Forall P (filter f l).
Proof.
  intro H. apply Forall_forall. intros x Hx. apply filter_In in Hx as [Hx _].
  revert x Hx. now apply Forall_forall.
Qed.

(** What steps 5 to 7 of the contract make of a set is what the loop of
    [filter_tile] makes of it. *)
Lemma finish_holds (args : Args) (i j : Z) (l : list RawDetection) :
  Forall box_in_mask l ->
  holds (res_of_filtered (map (finish args i j) l))
        (translate_all i j (crop_all i j (binarize_all (thres_mask args) l))).
Proof.
  intro H. unfold holds, res_of_filtered, translate_all, crop_all, binarize_all.
  cbn [res_scores res_boxes res_masks]. rewrite !map_map. cbn [fd_score fd_box finish].
  split; [reflexivity|]. split; [reflexivity|].
  induction H as [|d l Hd Hl IH]; cbn [map]; constructor; [|exact IH].
  cbn [fd_anchor fd_mask]. eexists. split; [reflexivity|]. now apply trim_pixel_extent.
Qed.

Section ContractOnDetections.
Variable args : Args.
Variable tile_area : Z.
Hypothesis tile_area_not_zero : tile_area <> 0.

Lemma keep_score_passes l :
  keep_score (thres_prediction args) l = filter (passes_score args) l.
Proof. reflexivity. Qed.

Lemma keep_relative_size_passes l :
  keep_relative_size (thres_size args) tile_area l = filter (passes_rel_size args tile_area) l.
Proof.
  apply filter_ext. intro d. unfold passes_rel_size, rel_size_ok.
  apply Z.eqb_neq in tile_area_not_zero. rewrite tile_area_not_zero. reflexivity.
Qed.

Lemma keep_absolute_size_passes l : keep_absolute_size l = filter passes_abs_size l.
Proof. apply filter_ext. intro d. apply exceeds_Qgt_bool. Qed.

Lemma keep_mask_mass_passes l : keep_mask_mass l = filter passes_mask_mass l.
Proof.
  apply filter_ext. intro d. unfold passes_mask_mass, mask_mass_ok.
  rewrite (exceeds_comp _ _ 30 (probability_sum_mask_sum (rd_mask d))).
  apply exceeds_Qgt_bool.
Qed.

(** The seven steps of the contract keep the detections that pass the four
    tests of [filter_tile]. *)
Lemma contract_survivors i j l :
  detection_filter_contract (thres_prediction args) (thres_size args) (thres_mask args)
    tile_area i j l
  = translate_all i j (crop_all i j (binarize_all (thres_mask args)
                                       (survivors args tile_area l))).
Proof.
  unfold detection_filter_contract, survivors. rewrite keep_score_passes.
  destruct (filter (passes_score args) l) as [|d1 l1]; [reflexivity|]; cbn [is_empty].
  rewrite keep_relative_size_passes.
  destruct (filter (passes_rel_size args tile_area) (d1 :: l1)) as [|d2 l2];
    [reflexivity|]; cbn [is_empty].
  rewrite keep_absolute_size_passes.
  destruct (filter passes_abs_size (d2 :: l2)) as [|d3 l3]; [reflexivity|]; cbn [is_empty].
  rewrite keep_mask_mass_passes.
  destruct (filter passes_mask_mass (d3 :: l3)) as [|d4 l4]; reflexivity.
Qed.

(** [filter_tile] returns a dictionary that holds what the contract gives. *)
Lemma filter_tile_holds_contract i j l :
  Forall box_in_mask l ->
  exists out,
    filter_tile args (of_detections l) tile_area i j = Ok out
    /\ holds out (detection_filter_contract (thres_prediction args) (thres_size args)
                    (thres_mask args) tile_area i j l).
Proof.
  intro H. rewrite filter_tile_survivors, contract_survivors.
  eexists. split; [reflexivity|]. apply finish_holds.
  unfold survivors. now repeat apply Forall_filter.
Qed.

End ContractOnDetections.

Lemma same_array_to_lists {A} (a b : ndarray A) : same_array a b -> to_lists a = to_lists b.
Proof.
  intros (Hr & Hc & Hcell). unfold to_lists. rewrite <- Hr, <- Hc.
  apply map_ext_in. intros r Hr'. apply map_ext_in. intros c Hc'.
  unfold indices in Hr', Hc'.
  apply in_map_iff in Hr' as (x & <- & Hx). apply in_seq in Hx.
  apply in_map_iff in Hc' as (y & <- & Hy). apply in_seq in Hy.
  apply Hcell; lia.
Qed.

(** C3: for every raw detection set whose boxes lie in their masks, every
    tile area other than 0 and every tile origin, [filter_tile] on the arrays
    of the set returns a dictionary that holds exactly what the seven steps of
    the contract give, in their order and with their early exits: score
    [>= thresPrediction], [area / tileArea <= thresSize], [area > 30], mask
    probability sum [> 30], thresholding at [thresMask], trimming to the
    pixel extent [y0:y1, x0:x1] of the box with the tile origin as anchor,
    translation by (originCol, originRow, originCol, originRow).  The box
    [0, 0, 10, 10] of a tile with origin (50, 20) becomes [20, 50, 30, 60]. *)
Theorem filter_tile_follows_contract (args : Args) (raw : list RawDetection)
  (tile_area originRow originCol : Z) :
  tile_area <> 0 ->
  Forall box_in_mask raw ->
  (exists out,
      filter_tile args (of_detections raw) tile_area originRow originCol = Ok out
      /\ holds out (detection_filter_contract (thres_prediction args) (thres_size args)
                      (thres_mask args) tile_area originRow originCol raw))
  /\ translate 50 20 (mkBox 0 0 10 10) = mkBox 20 50 30 60.
Proof.
  intros Ha Hraw. split; [|reflexivity].
  now apply filter_tile_holds_contract.
Qed.

(** Of the six detections the filter keeps the first and the last.  The
    first comes out with its box moved by (20, 50) and a mask of 6 rows and
    8 columns: rows 1 to 6 and columns 2 to 9 of its mask, of which columns
    2 to 5 are 1.  The last comes out with the box [20, 50, 30, 60] and a
    10 x 10 mask of ones. *)
Lemma filter_tile_follows_contract_witness :
  exists out m1 m2,
    filter_tile (args_with 32 10) (of_detections six_detections) (32 ^ 2) 50 20 = Ok out
    /\ res_scores out = [9 # 10; 8 # 10]
    /\ res_boxes out = [mkBox (45 # 2) (205 # 4) (123 # 4) (115 # 2); mkBox 20 50 30 60]
    /\ res_masks out = [Trimmed (20, 50) m1; Trimmed (20, 50) m2]
    /\ to_lists m1 = repeat [1; 1; 1; 1; 0; 0; 0; 0] 6
    /\ to_lists m2 = repeat (repeat 1 10) 10.
Proof.
  assert (Ha : 32 ^ 2 <> 0) by discriminate.
  assert (Hraw : Forall box_in_mask six_detections).
  { repeat constructor; vm_compute; congruence. }
  destruct (filter_tile_follows_contract (args_with 32 10) six_detections (32 ^ 2) 50 20
              Ha Hraw) as [(out & E & Hs & Hb & Hm) _].
  remember (detection_filter_contract (thres_prediction (args_with 32 10))
              (thres_size (args_with 32 10)) (thres_mask (args_with 32 10))
              (32 ^ 2) 50 20 six_detections) as kept eqn:Ek.
  assert (Hk : map fd_score kept = [9 # 10; 8 # 10]
               /\ map fd_box kept
                  = [mkBox (45 # 2) (205 # 4) (123 # 4) (115 # 2); mkBox 20 50 30 60]
               /\ map fd_anchor kept = [(20, 50); (20, 50)]
               /\ map (fun d => to_lists (fd_mask d)) kept
                  = [repeat [1; 1; 1; 1; 0; 0; 0; 0] 6; repeat (repeat 1 10) 10]).
  { rewrite Ek. vm_compute. repeat split. }
  destruct Hk as (Ks & Kb & Ka & Km). rewrite Ks in Hs. rewrite Kb in Hb.
  destruct kept as [|k1 [|k2 [|k3 kept]]]; try discriminate Ks.
  injection Ka as A1 A2. injection Km as M1 M2.
  inversion Hm as [|item1 d1 items1 l1 (m1 & I1 & S1) Hm1 Eitems El].
  inversion Hm1 as [|item2 d2 items2 l2 (m2 & I2 & S2) Hm2 Eitems1 El1].
  inversion Hm2 as [Eitems2|].
  exists out, m1, m2. split; [exact E|]. split; [exact Hs|]. split; [exact Hb|].
  split; [now rewrite <- Eitems, <- Eitems1, <- Eitems2, I1, I2, A1, A2|].
  split.
  - rewrite (same_array_to_lists _ _ S1). exact M1.
  - rewrite (same_array_to_lists _ _ S2). exact M2.
Defined.
(** C8, as stated, fails for the filter as a whole: a filtered set, given to
    the filter again, does not come back as it is.  The dictionary
    [filter_tile] returns holds its masks as pairs of an anchor and a trimmed
    array, which is no input of [filter_tile]; read back as a raw set
    ([as_raw]), the detection that came out with the box [20, 50, 30, 60] in
    the tile at (50, 20) is kept, and its box is moved by the tile origin a
    second time.  The seven steps of the contract do the same. *)
Lemma filter_tile_not_idempotent :
  ~ (forall (args : Args) (tile_area i j : Z) (raw : list RawDetection)
            (kept : list FilteredDetection),
        filter_tile args (of_detections raw) tile_area i j = Ok (res_of_filtered kept) ->
        filter_tile args (of_detections (map as_raw kept)) tile_area i j
        = Ok (res_of_filtered kept))
  /\ ~ (forall (thresPrediction thresSize thresMask : Q) (tileArea i j : Z)
               (raw : list RawDetection),
          let kept := detection_filter_contract thresPrediction thresSize thresMask
                        tileArea i j raw in
          detection_filter_contract thresPrediction thresSize thresMask tileArea i j
            (map as_raw kept)
          = kept).
Proof.
  set (raw := [mkRawDetection (mkBox 0 0 10 10) (9 # 10) ones]).
  split; intro claim.
  - specialize (claim (args_with 32 10) (32 ^ 2) 50 20 raw
                      (map (finish (args_with 32 10) 50 20)
                           (survivors (args_with 32 10) (32 ^ 2) raw))
                      (filter_tile_survivors _ _ _ _ _)).
    rewrite filter_tile_survivors in claim. injection claim as _ _ Hboxes.
    vm_compute in Hboxes. discriminate Hboxes.
  - specialize (claim (6 # 10) (3 # 10) (95 # 100) (32 ^ 2) 50 20 raw).
    apply (f_equal (map fd_box)) in claim.
    vm_compute in claim. discriminate claim.
Qed.

(** C8, amended: for every detection set, each threshold step of the filter
    (score, relative size, absolute size, mask mass) succeeds, returns a set
    that is no longer than its input and whose detections all come from the
    input, and returns that set unchanged when it is run on it again; the
    same holds for the four steps in sequence.  The steps after them, which
    binarize, trim and translate, are not covered: the whole filter is not
    idempotent. *)
Theorem threshold_steps_shrink_idempotent (args : Args) (tile_area : Z)
  (raw : list RawDetection) :
  shrinks_and_settles (score_step args) (of_detections raw)
  /\ shrinks_and_settles (rel_size_step args tile_area) (of_detections raw)
  /\ shrinks_and_settles abs_size_step (of_detections raw)
  /\ shrinks_and_settles mask_mass_step (of_detections raw)
  /\ shrinks_and_settles (fun r => threshold_steps args r tile_area) (of_detections raw).
Proof.
  pose proof (aligned_of_detections raw) as Hres. repeat split.
  - eapply step_shrinks_and_settles; [apply score_step_of_detections | exact Hres].
  - eapply step_shrinks_and_settles; [apply rel_size_step_of_detections | exact Hres].
  - eapply step_shrinks_and_settles; [apply abs_size_step_of_detections | exact Hres].
  - eapply step_shrinks_and_settles; [apply mask_mass_step_of_detections | exact Hres].
  - eapply step_shrinks_and_settles; [|exact Hres].
    intro l. rewrite threshold_steps_of_detections, !filter_filter. reflexivity.
Qed.

(** ** The scan as a whole *)

Lemma tiles_of_app (tr tr' : list event) : tiles_of (tr ++ tr') = tiles_of tr ++ tiles_of tr'.
Proof. unfold tiles_of. apply flat_map_app. Qed.

Lemma lookup_put_same {V} (k : string) (v : V) (l : list (string * V)) :
  lookup k (put k v l) = Some v.
Proof.
  induction l as [|[k' v'] l IH]; simpl.
  - now rewrite String.eqb_refl.
  - destruct (String.eqb k k') eqn:E; simpl; [now rewrite String.eqb_refl | now rewrite E].
Qed.

Lemma lookup_put_other {V} (k k' : string) (v : V) (l : list (string * V)) :
  k <> k' -> lookup k (put k' v l) = lookup k l.
Proof.
  intro Hk. induction l as [|[k0 v0] l IH]; cbn.
  - apply String.eqb_neq in Hk. now rewrite Hk.
  - destruct (String.eqb k' k0) eqn:E; cbn.
    + apply String.eqb_eq in E. subst k0.
      apply String.eqb_neq in Hk. now rewrite Hk.
    + destruct (String.eqb k k0); [reflexivity | exact IH].
Qed.

Lemma put_same {V} (k : string) (v : V) (l : list (string * V)) :
  lookup k l = Some v -> put k v l = l.
Proof.
  induction l as [|[k' v'] l IH]; cbn; [discriminate|].
  destruct (String.eqb_spec k k') as [->|Hk].
  - now intros [= ->].
  - intro H. now rewrite IH.
Qed.

Lemma put_fresh {V} (k : string) (v : V) (l : list (string * V)) :
  lookup k l = None -> put k v l = l ++ [(k, v)].
Proof.
  induction l as [|[k' v'] l IH]; cbn; [reflexivity|].
  destruct (String.eqb k k'); [discriminate|]. intro H. now rewrite IH.
Qed.

Lemma Forall_put {V} (R : string * V -> Prop) (k : string) (v : V) (l : list (string * V)) :
  R (k, v) -> Forall R l -> Forall R (put k v l).
Proof.
  intros Hkv. induction 1 as [|[k' v'] l Hx Hl IH]; cbn; [auto|].
  destruct (String.eqb k k'); constructor; auto.
Qed.

Lemma lookup_app {V} (k : string) (l l' : list (string * V)) :
  lookup k (l ++ l') = match lookup k l with Some v => Some v | None => lookup k l' end.
Proof.
  induction l as [|[k' v'] l IH]; cbn; [reflexivity|].
  destruct (String.eqb k k'); [reflexivity | exact IH].
Qed.

Lemma lookup_firstn_skipn {V} (k : string) (n : nat) (l : list (string * V)) :
  lookup k l = match lookup k (firstn n l) with
               | Some v => Some v
               | None => lookup k (skipn n l)
               end.
Proof. now rewrite <- lookup_app, firstn_skipn. Qed.

Lemma lookup_place_same {V} (pos : nat) (k : string) (v : V) (l : list (string * V)) :
  lookup k (place pos k v l) = Some v.
Proof.
  unfold place. destruct (lookup k l) eqn:E; [apply lookup_put_same|].
  rewrite lookup_app. rewrite (lookup_firstn_skipn k pos l) in E.
  destruct (lookup k (firstn pos l)); [discriminate|].
  cbn. now rewrite String.eqb_refl.
Qed.

Lemma lookup_place_other {V} (pos : nat) (k k' : string) (v : V) (l : list (string * V)) :
  k <> k' -> lookup k (place pos k' v l) = lookup k l.
Proof.
  intro Hk. unfold place. destruct (lookup k' l); [now apply lookup_put_other|].
  rewrite lookup_app, (lookup_firstn_skipn k pos l). cbn.
  apply String.eqb_neq in Hk. now rewrite Hk.
Qed.

Lemma place_same {V} (pos : nat) (k : string) (v : V) (l : list (string * V)) :
  lookup k l = Some v -> place pos k v l = l.
Proof. intro H. unfold place. rewrite H. now apply put_same. Qed.

Lemma place_fresh {V} (pos : nat) (k : string) (v : V) (l : list (string * V)) :
  lookup k l = None -> place pos k v l = firstn pos l ++ (k, v) :: skipn pos l.
Proof. intro H. unfold place. now rewrite H. Qed.

Lemma Forall_place {V} (R : string * V -> Prop) (pos : nat) (k : string) (v : V)
  (l : list (string * V)) :
  R (k, v) -> Forall R l -> Forall R (place pos k v l).
Proof.
  intros Hkv Hl. unfold place. destruct (lookup k l); [now apply Forall_put|].
  rewrite <- (firstn_skipn pos l) in Hl. apply Forall_app in Hl as [Hl1 Hl2].
  apply Forall_app. split; [exact Hl1|]. now constructor.
Qed.

(** On aligned model output the filter returns a dictionary. *)
Lemma filter_tile_total (args : Args) (res : RawDetections) (tile_area i j : Z) :
  aligned res ->
  filter_tile args res tile_area i j
  = Ok (res_of_filtered (map (finish args i j) (survivors args tile_area (raw_detections res)))).
Proof.
  intro Hres. rewrite <- (of_raw_detections res Hres) at 1. apply filter_tile_survivors.
Qed.

Section ScanRun.
Variable args : Args.
Variable tiff : ndarray Q.
Variable model : Model.

(** Every tile is processed without an exception: the detector answers and
    its arrays are aligned. *)
Hypothesis model_total : forall tile, exists raw, model tile = Ok raw /\ aligned raw.

Lemma tile_result_total (top left : Z) :
  exists res, tile_result args tiff model top left = Ok res.
Proof.
  unfold tile_result.
  destruct (model_total (crop tiff top left (tile_size args) (tile_size args)))
    as (raw & E & Hraw).
  rewrite E; cbn [bind]. rewrite (filter_tile_total _ _ _ _ _ Hraw). eauto.
Qed.

(** A tile of the primary sweep: the record is written exactly when the
    filtered set is not empty. *)
Lemma primary_tile_saves_iff_nonempty (top left counter : Z) (w : World)
  (res : Res) (entries : list (string * Pickled)) :
  tile_result args tiff model top left = Ok res ->
  lookup (path_join (output args) "step1") (dirs w) = Some entries ->
  let run := extract_tile_run_model_save args tiff model top left counter w in
  fst run = Ok tt
  /\ dirs (snd run)
     = (if (length (res_boxes res) =? 0)%nat then dirs w
        else put (path_join (output args) "step1")
                 (listing_after (slot w) (path_join (output args) "step1")
                    (py_str counter ++ ".pkl")%string (pickle_dump res) entries) (dirs w))
  /\ tiles_of (trace (snd run)) = tiles_of (trace w) ++ [(top, left)].
Proof.
  intros E Hdir run. unfold run, extract_tile_run_model_save, run_tile, bindM, emit, lift.
  rewrite E. destruct (length (res_boxes res) =? 0)%nat; cbn [negb].
  - cbn. now rewrite tiles_of_app.
  - unfold save_intermediate_step; cbn [dirs written trace]. rewrite Hdir.
    cbn. now rewrite !tiles_of_app, app_nil_r.
Qed.

(** An edge or corner tile: the record is written whatever the filtered set. *)
Lemma edge_tile_always_saves (top left counter : Z) (w : World)
  (res : Res) (entries : list (string * Pickled)) :
  tile_result args tiff model top left = Ok res ->
  lookup (path_join (output args) "step1") (dirs w) = Some entries ->
  let run := edge_tile args tiff model top left counter w in
  fst run = Ok tt
  /\ dirs (snd run)
     = put (path_join (output args) "step1")
           (listing_after (slot w) (path_join (output args) "step1")
              (py_str counter ++ ".pkl")%string (pickle_dump res) entries) (dirs w)
  /\ tiles_of (trace (snd run)) = tiles_of (trace w) ++ [(top, left)].
Proof.
  intros E Hdir run. unfold run, edge_tile, run_tile, bindM, emit, lift.
  rewrite E. unfold save_intermediate_step; cbn [dirs written trace]. rewrite Hdir.
  cbn. now rewrite !tiles_of_app, app_nil_r.
Qed.

Lemma extract_tile_ok (top left counter : Z) (w : World) :
  ready args w ->
  exists w', extract_tile_run_model_save args tiff model top left counter w = (Ok tt, w')
             /\ ready args w'
             /\ tiles_of (trace w') = tiles_of (trace w) ++ [(top, left)].
Proof.
  intro Hw. destruct (tile_result_total top left) as [res E].
  unfold ready in Hw.
  destruct (lookup (path_join (output args) "step1") (dirs w)) as [entries|] eqn:Hdir;
    [|congruence].
  destruct (primary_tile_saves_iff_nonempty top left counter w res entries E Hdir)
    as (R & D & Tr).
  destruct (extract_tile_run_model_save args tiff model top left counter w) as [r w'].
  cbn [fst snd] in *. subst r. exists w'. split; [reflexivity|]. split; [|exact Tr].
  unfold ready. rewrite D. destruct (length (res_boxes res) =? 0)%nat.
  - congruence.
  - rewrite lookup_put_same. discriminate.
Qed.

Lemma edge_tile_ok (top left counter : Z) (w : World) :
  ready args w ->
  exists w', edge_tile args tiff model top left counter w = (Ok tt, w')
             /\ ready args w'
             /\ tiles_of (trace w') = tiles_of (trace w) ++ [(top, left)].
Proof.
  intro Hw. destruct (tile_result_total top left) as [res E].
  unfold ready in Hw.
  destruct (lookup (path_join (output args) "step1") (dirs w)) as [entries|] eqn:Hdir;
    [|congruence].
  destruct (edge_tile_always_saves top left counter w res entries E Hdir) as (R & D & Tr).
  destruct (edge_tile args tiff model top left counter w) as [r w'].
  cbn [fst snd] in *. subst r. exists w'. split; [reflexivity|]. split; [|exact Tr].
  unfold ready. rewrite D, lookup_put_same. discriminate.
Qed.

Lemma sweep_row_ok (i : Z) (js : list Z) :
  forall counter w, ready args w ->
  exists counter' w',
    sweep_row args tiff model i js counter w = (Ok counter', w')
    /\ ready args w'
    /\ tiles_of (trace w')
       = tiles_of (trace w)
         ++ map (fun j => (i, j)) (take_until (fun j => j + tile_size args >? ncols tiff) js).
Proof.
  induction js as [|j js IH]; intros counter w Hw; cbn.
  - exists counter, w. now rewrite app_nil_r.
  - destruct (j + tile_size args >? ncols tiff).
    + exists counter, w. now rewrite app_nil_r.
    + unfold bindM.
      destruct (extract_tile_ok i j counter w Hw) as (w1 & E & Hw1 & Tr1). rewrite E.
      destruct (IH (counter + 1) w1 Hw1) as (c' & w' & E' & Hw' & Tr').
      exists c', w'. split; [exact E'|]. split; [exact Hw'|].
      rewrite Tr', Tr1, <- app_assoc. reflexivity.
Qed.

Lemma sweep_rows_ok (rows : list Z) :
  forall counter w, ready args w ->
  exists counter' w',
    sweep_rows args tiff model rows counter w = (Ok counter', w')
    /\ ready args w'
    /\ tiles_of (trace w')
       = tiles_of (trace w)
         ++ flat_map (fun i => map (fun j => (i, j))
                                   (sweep_origins (ncols tiff) (tile_size args)
                                                  (rolling_window args)))
                     (take_until (fun i => i + tile_size args >? nrows tiff) rows).
Proof.
  induction rows as [|i rows IH]; intros counter w Hw; cbn.
  - exists counter, w. now rewrite app_nil_r.
  - destruct (i + tile_size args >? nrows tiff).
    + exists counter, w. now rewrite app_nil_r.
    + unfold bindM.
      destruct (sweep_row_ok i (py_range (ncols tiff) (rolling_window args)) counter w Hw)
        as (c1 & w1 & E & Hw1 & Tr1). rewrite E.
      destruct (IH c1 w1 Hw1) as (c' & w' & E' & Hw' & Tr').
      exists c', w'. split; [exact E'|]. split; [exact Hw'|].
      rewrite Tr', Tr1, <- app_assoc. reflexivity.
Qed.

Lemma last_row_ok (js : list Z) :
  forall counter w, ready args w ->
  exists counter' w',
    last_row args tiff model js counter w = (Ok counter', w')
    /\ ready args w'
    /\ tiles_of (trace w')
       = tiles_of (trace w)
         ++ map (fun j => (nrows tiff - tile_size args, j))
                (take_until (fun j => j + tile_size args >=? ncols tiff) js).
Proof.
  induction js as [|j js IH]; intros counter w Hw; cbn.
  - exists counter, w. now rewrite app_nil_r.
  - destruct (j + tile_size args >=? ncols tiff).
    + exists counter, w. now rewrite app_nil_r.
    + unfold bindM.
      destruct (edge_tile_ok (nrows tiff - tile_size args) j counter w Hw)
        as (w1 & E & Hw1 & Tr1). rewrite E.
      destruct (IH (counter + 1) w1 Hw1) as (c' & w' & E' & Hw' & Tr').
      exists c', w'. split; [exact E'|]. split; [exact Hw'|].
      rewrite Tr', Tr1, <- app_assoc. reflexivity.
Qed.

Lemma last_columns_ok (rows : list Z) :
  forall counter w, ready args w ->
  exists counter' w',
    last_columns args tiff model rows counter w = (Ok counter', w')
    /\ ready args w'
    /\ tiles_of (trace w')
       = tiles_of (trace w)
         ++ map (fun i => (i, ncols tiff - tile_size args))
                (take_until (fun i => i + tile_size args >=? nrows tiff) rows).
Proof.
  induction rows as [|i rows IH]; intros counter w Hw; cbn.
  - exists counter, w. now rewrite app_nil_r.
  - destruct (i + tile_size args >=? nrows tiff).
    + exists counter, w. now rewrite app_nil_r.
    + unfold bindM.
      destruct (edge_tile_ok i (ncols tiff - tile_size args) counter w Hw)
        as (w1 & E & Hw1 & Tr1). rewrite E.
      destruct (IH (counter + 1) w1 Hw1) as (c' & w' & E' & Hw' & Tr').
      exists c', w'. split; [exact E'|]. split; [exact Hw'|].
      rewrite Tr', Tr1, <- app_assoc. reflexivity.
Qed.

(** With a non-zero stride, a detector that answers and an existing
    checkpoint directory, the scan succeeds and processes exactly the tiles
    of [schedule], in that order. *)
Lemma tile_extraction_part_schedule (w : World) :
  rolling_window args <> 0 -> ready args w ->
  exists w',
    tile_extraction_part args tiff model w = (Ok tt, w')
    /\ ready args w'
    /\ tiles_of (trace w')
       = tiles_of (trace w)
         ++ schedule (nrows tiff) (ncols tiff) (tile_size args) (rolling_window args).
Proof.
  intros HS Hw. unfold tile_extraction_part, schedule.
  apply Z.eqb_neq in HS. rewrite HS. unfold bindM.
  destruct (sweep_rows_ok (py_range (nrows tiff) (rolling_window args)) 0 w Hw)
    as (c1 & w1 & E1 & Hw1 & Tr1). rewrite E1.
  fold (sweep_origins (nrows tiff) (tile_size args) (rolling_window args)) in Tr1.
  assert (B : exists c2 w2,
             (if negb (nrows tiff mod rolling_window args =? 0)
              then last_row args tiff model (py_range (ncols tiff) (rolling_window args)) c1
              else ret c1) w1 = (Ok c2, w2)
             /\ ready args w2
             /\ tiles_of (trace w2)
                = tiles_of (trace w1)
                  ++ (if negb (nrows tiff mod rolling_window args =? 0)
                      then map (fun j => (nrows tiff - tile_size args, j))
                               (edge_origins (ncols tiff) (tile_size args)
                                             (rolling_window args))
                      else [])).
  { destruct (negb (nrows tiff mod rolling_window args =? 0)).
    - apply last_row_ok, Hw1.
    - exists c1, w1. unfold ret. now rewrite app_nil_r. }
  destruct B as (c2 & w2 & E2 & Hw2 & Tr2). rewrite E2.
  assert (C : exists c3 w3,
             (if negb (ncols tiff mod rolling_window args =? 0)
              then last_columns args tiff model (py_range (nrows tiff) (rolling_window args)) c2
              else ret c2) w2 = (Ok c3, w3)
             /\ ready args w3
             /\ tiles_of (trace w3)
                = tiles_of (trace w2)
                  ++ (if negb (ncols tiff mod rolling_window args =? 0)
                      then map (fun i => (i, ncols tiff - tile_size args))
                               (edge_origins (nrows tiff) (tile_size args)
                                             (rolling_window args))
                      else [])).
  { destruct (negb (ncols tiff mod rolling_window args =? 0)).
    - apply last_columns_ok, Hw2.
    - exists c2, w2. unfold ret. now rewrite app_nil_r. }
  destruct C as (c3 & w3 & E3 & Hw3 & Tr3). rewrite E3.
  destruct (negb (nrows tiff mod rolling_window args =? 0)
            && negb (ncols tiff mod rolling_window args =? 0)).
  - destruct (edge_tile_ok (nrows tiff - tile_size args) (ncols tiff - tile_size args) c3 w3 Hw3)
      as (w4 & E4 & Hw4 & Tr4).
    exists w4. split; [exact E4|]. split; [exact Hw4|].
    rewrite Tr4, Tr3, Tr2, Tr1, <- !app_assoc. reflexivity.
  - exists w3. split; [reflexivity|]. split; [exact Hw3|].
    rewrite Tr3, Tr2, Tr1, <- !app_assoc, app_nil_r. reflexivity.
Qed.

End ScanRun.

(** ** Which pixels the schedule covers *)

Lemma In_take_until (stop : Z -> bool) (l : list Z) (x : Z) :
  In x (take_until stop l) -> In x l /\ stop x = false.
Proof.
  induction l as [|a l IH]; simpl; [tauto|].
  destruct (stop a) eqn:E; simpl; [tauto|].
  intros [<- | H]; [auto | destruct (IH H); auto].
Qed.

(** An element of an ascending range is visited when the loop has not broken
    at it nor at any element below it. *)
Lemma take_until_multiples (stop : Z -> bool) (S x : Z) (m : nat) :
  0 < S ->
  forall a, In x (map (fun k => Z.of_nat k * S) (seq a m)) ->
  (forall y, y <= x -> stop y = false) ->
  In x (take_until stop (map (fun k => Z.of_nat k * S) (seq a m))).
Proof.
  intros HS. induction m as [|m IH]; intros a Hin Hstop; simpl in *; [tauto|].
  assert (Ha : Z.of_nat a * S <= x).
  { destruct Hin as [<- | Hin]; [lia|].
    apply in_map_iff in Hin as (k & <- & Hk). apply in_seq in Hk. nia. }
  rewrite (Hstop _ Ha). destruct Hin as [E | Hin]; [now left | right; auto].
Qed.

Lemma py_range_multiple (n S k : Z) :
  0 < S -> 0 <= k -> k * S < n -> In (k * S) (py_range n S).
Proof.
  intros HS Hk Hn. unfold py_range, range_len.
  assert (Hpos : 0 < n) by nia.
  apply Z.ltb_lt in HS as HS'. apply Z.ltb_lt in Hpos as Hpos'.
  rewrite HS', Hpos'; cbn [andb].
  apply in_map_iff. exists (Z.to_nat k). split; [now rewrite Z2Nat.id|].
  apply in_seq. split; [lia|].
  assert (k <= (n - 1) / S) by (apply Z.div_le_lower_bound; lia).
  lia.
Qed.

Lemma In_py_range (n S j : Z) :
  0 < S -> In j (py_range n S) -> 0 <= j < n /\ j mod S = 0.
Proof.
  intros HS Hin. unfold py_range, range_len in Hin.
  apply in_map_iff in Hin as (k & <- & Hk). apply in_seq in Hk.
  apply Z.ltb_lt in HS as HS'. rewrite HS' in Hk. cbn [andb] in Hk.
  destruct (0 <? n) eqn:Hn.
  - apply Z.ltb_lt in Hn. rewrite Z.mod_mul by lia. split; [|reflexivity].
    assert (0 <= (n - 1) / S) by (apply Z.div_pos; lia).
    assert (Z.of_nat k <= (n - 1) / S) by lia.
    pose proof (Z.mul_div_le (n - 1) S HS). nia.
  - destruct (S <? 0) eqn:E; [apply Z.ltb_lt in E; lia|]. cbn [andb] in Hk.
    change (Z.to_nat 0) with 0%nat in Hk. lia.
Qed.

(** Along an axis of length [n], a position [x] lies in a window of side [T]
    whose origin both the primary sweep and the edge pass visit, or within
    [T] of the end of the axis. *)
Lemma axis_choice (n T S x : Z) :
  0 < S <= T -> 0 <= x < n ->
  (exists k, In k (sweep_origins n T S) /\ In k (edge_origins n T S) /\ k <= x < k + T)
  \/ n - T <= x.
Proof.
  intros HS Hx.
  pose proof (Z.mul_div_le x S ltac:(lia)) as Hlo.
  pose proof (Z.mul_succ_div_gt x S ltac:(lia)) as Hhi.
  pose proof (Z.div_pos x S ltac:(lia) ltac:(lia)) as Hq.
  set (q := x / S) in *.
  destruct (Z.lt_ge_cases (q * S + T) n) as [Hin | Hout]; [left | right; lia].
  exists (q * S).
  assert (Hr : In (q * S) (py_range n S)) by (apply py_range_multiple; lia).
  unfold sweep_origins, edge_origins, py_range in *.
  split; [|split; [|lia]].
  - apply take_until_multiples; [lia | exact Hr |].
    intros y Hy. rewrite Z.gtb_ltb. apply Z.ltb_ge. lia.
  - apply take_until_multiples; [lia | exact Hr |].
    intros y Hy. rewrite Z.geb_leb. apply Z.leb_gt. lia.
Qed.

(** Where both edge passes run and the stride does not exceed the tile side,
    every pixel of the image lies in a scheduled tile. *)
Lemma schedule_covers (H W T S r c : Z) :
  0 < S <= T ->
  H mod S <> 0 -> W mod S <> 0 ->
  0 <= r < H -> 0 <= c < W ->
  covered T (schedule H W T S) r c = true.
Proof.
  intros HS HH HW Hr Hc. unfold covered, schedule.
  apply Z.eqb_neq in HH. apply Z.eqb_neq in HW. rewrite HH, HW; cbn [negb andb].
  rewrite !existsb_app.
  destruct (axis_choice H T S r HS Hr) as [(i & Hi & Hi' & Ri) | Ri];
    destruct (axis_choice W T S c HS Hc) as [(j & Hj & Hj' & Rj) | Rj].
  - apply orb_true_iff; left. apply existsb_exists. exists (i, j). split.
    + apply in_flat_map. exists i. split; [exact Hi|]. now apply in_map.
    + unfold in_tile; cbn [fst snd].
      repeat (apply andb_true_iff; split); try apply Z.leb_le; try apply Z.ltb_lt; lia.
  - apply orb_true_iff; right. apply orb_true_iff; right. apply orb_true_iff; left.
    apply existsb_exists. exists (i, W - T). split.
    + apply in_map_iff. exists i. auto.
    + unfold in_tile; cbn [fst snd].
      repeat (apply andb_true_iff; split); try apply Z.leb_le; try apply Z.ltb_lt; lia.
  - apply orb_true_iff; right. apply orb_true_iff; left.
    apply existsb_exists. exists (H - T, j). split.
    + apply in_map_iff. exists j. auto.
    + unfold in_tile; cbn [fst snd].
      repeat (apply andb_true_iff; split); try apply Z.leb_le; try apply Z.ltb_lt; lia.
  - apply orb_true_iff; right. apply orb_true_iff; right. apply orb_true_iff; right.
    cbn [existsb]. unfold in_tile; cbn [fst snd]. rewrite orb_false_r.
    repeat (apply andb_true_iff; split); try apply Z.leb_le; try apply Z.ltb_lt; lia.
Qed.

(** Where the stride divides the height but not [H - T], no scheduled tile
    reaches the last row of the image: the primary sweep stops short of it
    and the guard [H mod S <> 0] keeps the bottom-edge row and the corner
    tile away. *)
Lemma schedule_misses_last_row (H W T S c : Z) :
  0 < S -> H mod S = 0 -> (H - T) mod S <> 0 ->
  covered T (schedule H W T S) (H - 1) c = false.
Proof.
  intros HS HH HT. unfold covered, schedule.
  apply Z.eqb_eq in HH. rewrite HH; cbn [negb andb app].
  rewrite app_nil_r, existsb_app.
  apply orb_false_iff. split.
  - apply not_true_is_false. intro Hex. apply existsb_exists in Hex as ((i, j) & Hin & Hcov).
    apply in_flat_map in Hin as (i' & Hi & Hj). apply in_map_iff in Hj as (j' & E & _).
    injection E as <- <-.
    apply In_take_until in Hi as [Hi Hstop]. apply In_py_range in Hi as [Hi Hmod]; [|exact HS].
    rewrite Z.gtb_ltb in Hstop. apply Z.ltb_ge in Hstop.
    unfold in_tile in Hcov; cbn [fst snd] in Hcov.
    apply andb_true_iff in Hcov as [Hcov _]. apply andb_true_iff in Hcov as [Hcov _].
    apply andb_true_iff in Hcov as [_ Hcov]. apply Z.ltb_lt in Hcov.
    assert (i' = H - T) by lia. subst i'. contradiction.
  - destruct (negb (W mod S =? 0)); [|reflexivity].
    apply not_true_is_false. intro Hex. apply existsb_exists in Hex as ((i, j) & Hin & Hcov).
    apply in_map_iff in Hin as (i' & E & Hi). injection E as <- <-.
    apply In_take_until in Hi as [_ Hstop]. rewrite Z.geb_leb in Hstop.
    apply Z.leb_gt in Hstop.
    unfold in_tile in Hcov; cbn [fst snd] in Hcov.
    apply andb_true_iff in Hcov as [Hcov _]. apply andb_true_iff in Hcov as [Hcov _].
    apply andb_true_iff in Hcov as [_ Hcov]. apply Z.ltb_lt in Hcov. lia.
Qed.

(** The last origin of the primary sweep, [n - T] when the stride divides it,
    is never an origin of the edge pass along the same axis. *)
Lemma last_origin_not_in_edge_pass (n T S : Z) :
  0 < S -> 0 < T <= n -> (n - T) mod S = 0 ->
  In (n - T) (sweep_origins n T S) /\ ~ In (n - T) (edge_origins n T S).
Proof.
  intros HS HT Hmod. split.
  - apply Z.div_exact in Hmod; [|lia].
    assert (Hq : 0 <= (n - T) / S) by (apply Z.div_pos; lia).
    assert (E : n - T = (n - T) / S * S) by lia.
    unfold sweep_origins. rewrite E at 1.
    assert (Hr : In ((n - T) / S * S) (py_range n S)) by (apply py_range_multiple; lia).
    unfold py_range in *. apply take_until_multiples; [lia | exact Hr |].
    intros y Hy. rewrite Z.gtb_ltb. apply Z.ltb_ge. lia.
  - intro Hin. apply In_take_until in Hin as [_ Hstop].
    rewrite Z.geb_leb in Hstop. apply Z.leb_gt in Hstop. lia.
Qed.

Lemma covered_app (T : Z) (l m : list (Z * Z)) (r c : Z) :
  covered T (l ++ m) r c = covered T l r c || covered T m r c.
Proof. unfold covered. apply existsb_app. Qed.

(** X9: the scan covers the image where both edge passes run and the stride
    does not exceed the tile side: with a detector that answers and an
    existing checkpoint directory, every pixel of the image lies in a tile
    the scan processes. *)
Lemma scan_covers_image (args : Args) (tiff : ndarray Q) (model : Model) (w : World) :
  (forall tile, exists raw, model tile = Ok raw /\ aligned raw) ->
  ready args w ->
  0 < rolling_window args <= tile_size args ->
  nrows tiff mod rolling_window args <> 0 ->
  ncols tiff mod rolling_window args <> 0 ->
  exists w',
    tile_extraction_part args tiff model w = (Ok tt, w')
    /\ forall r c, 0 <= r < nrows tiff -> 0 <= c < ncols tiff ->
                   covered (tile_size args) (tiles_of (trace w')) r c = true.
Proof.
  intros Hmodel Hw HS HH HW.
  destruct (tile_extraction_part_schedule args tiff model Hmodel w ltac:(lia) Hw)
    as (w' & E & _ & Tr).
  exists w'. split; [exact E|]. intros r c Hr Hc.
  rewrite Tr, covered_app, (schedule_covers _ _ _ _ r c HS HH HW Hr Hc).
  apply orb_true_r.
Qed.

(** X10: the scan leaves the last row of the image out where the stride
    divides the height but not the height less the tile side: no tile it
    processes reaches row [H - 1]. *)
Lemma scan_misses_last_row (args : Args) (tiff : ndarray Q) (model : Model) (w : World) :
  (forall tile, exists raw, model tile = Ok raw /\ aligned raw) ->
  ready args w -> tiles_of (trace w) = [] ->
  0 < rolling_window args ->
  nrows tiff mod rolling_window args = 0 ->
  (nrows tiff - tile_size args) mod rolling_window args <> 0 ->
  exists w',
    tile_extraction_part args tiff model w = (Ok tt, w')
    /\ forall c, covered (tile_size args) (tiles_of (trace w')) (nrows tiff - 1) c = false.
Proof.
  intros Hmodel Hw Hfresh HS HH HT.
  destruct (tile_extraction_part_schedule args tiff model Hmodel w ltac:(lia) Hw)
    as (w' & E & _ & Tr).
  exists w'. split; [exact E|]. intro c.
  rewrite Tr, Hfresh. cbn [app]. now apply schedule_misses_last_row.
Qed.

(** ** The scheduler on concrete images *)

(** C1 on the code: with the default tile side 128 and stride 10, the scan of
    a 260 x 260 image succeeds, and no emitted tile contains the pixel
    (259, 259).  The primary sweep stops at origin 130, which covers rows and
    columns up to 257, and [260 mod 10 = 0] switches every edge pass off. *)
Theorem scan_260_misses_last_pixel :
  let run := blank_scan 260 260 128 10 in
  (128 <=? 260) = true
  /\ fst run = Ok tt
  /\ length (tiles_of (trace (snd run))) = 196%nat
  /\ covered 128 (tiles_of (trace (snd run))) 257 257 = true
  /\ covered 128 (tiles_of (trace (snd run))) 259 259 = false.
Proof. vm_compute. repeat split. Qed.

(** C7 on the code: for a 5 x 4 image with tile side 2 and stride 2,
    [5 mod 2 <> 0] and the primary sweep uses the column origins 0 and 2, but
    the bottom-edge row anchored at [5 - 2 = 3] has the single tile (3, 0):
    its loop breaks on [j + T >= W] and drops the origin [j = 2]. *)
Theorem bottom_row_drops_last_origin :
  let run := blank_scan 5 4 2 2 in
  fst run = Ok tt
  /\ tiles_of (trace (snd run)) = [(0, 0); (0, 2); (2, 0); (2, 2); (3, 0)]
  /\ covered 2 (tiles_of (trace (snd run))) 4 2 = false.
Proof. vm_compute. repeat split. Qed.

(** ** Checkpoint writes during the scan *)

(** C2 on the code: a 15 x 15 image, tile side 10, stride 10, and a detector
    that finds nothing.  The primary tile (0, 0), counter 0, writes no record;
    the bottom-edge, right-edge and corner tiles, counters 1 to 3, each write
    a record although their filtered sets are empty. *)
Theorem edge_tiles_save_empty_sets :
  let run := blank_scan 15 15 10 10 in
  fst run = Ok tt
  /\ tiles_of (trace (snd run)) = [(0, 0); (5, 0); (0, 5); (5, 5)]
  /\ map (fun d => (fst d, map (fun f => (fst f, length (p_boxes (snd f)))) (snd d)))
         (dirs (snd run))
     = [("out/step1"%string,
         [("1.pkl"%string, 0%nat); ("2.pkl"%string, 0%nat); ("3.pkl"%string, 0%nat)])].
Proof. vm_compute. repeat split. Qed.

(** ** Aggregator *)

Lemma fold_load_step (temps : list Pickled) (acc : Acc) :
  fold_left load_step temps acc
  = mkAcc (acc_scores acc ++ flat_map (fun t => map score_vector (p_scores t)) temps)
          (acc_masks acc ++ flat_map p_masks temps)
          (acc_boxes acc ++ flat_map (fun t => flat_map box_rows (p_boxes t)) temps).
Proof.
  revert acc; induction temps as [|t temps IH]; intro acc; simpl.
  - destruct acc; simpl. now rewrite !app_nil_r.
  - rewrite IH. unfold load_step; simpl. now rewrite <- !app_assoc.
Qed.

Lemma flat_box_rows (bs : list Box) : flat_map box_rows (map BoxRow bs) = bs.
Proof. induction bs as [|b bs IH]; simpl; [reflexivity|]. now rewrite IH. Qed.

Lemma concat_score_vectors (ss : list Q) : concat (map score_vector (map Score0 ss)) = ss.
Proof. induction ss as [|x ss IH]; simpl; [reflexivity|]. now rewrite IH. Qed.

Lemma concat_flat_map {A B} (f : A -> list (list B)) (l : list A) :
  concat (flat_map f l) = flat_map (fun a => concat (f a)) l.
Proof.
  induction l as [|a l IH]; simpl; [reflexivity|]. now rewrite concat_app, IH.
Qed.

(** Every record saved from a dictionary is loaded back as that dictionary's
    boxes, scores and masks, in that order after those of the records before
    it; nothing is loaded when no record holds a box or a score. *)
Lemma load_records_of_results (results : list Res) :
  load_records (map pickle_dump results)
  = match flat_map res_boxes results, flat_map res_scores results with
    | [], _ => Raise RuntimeError
    | _ :: _, [] => Raise RuntimeError
    | _ :: _, _ :: _ =>
        Ok (mkRes (flat_map res_scores results) (flat_map res_masks results)
                  (flat_map res_boxes results))
    end.
Proof.
  unfold load_records. rewrite fold_load_step; cbn [acc_scores acc_masks acc_boxes app].
  rewrite !flat_map_concat_map, !map_map; cbn [pickle_dump p_scores p_masks p_boxes].
  rewrite <- !flat_map_concat_map.
  assert (EB : flat_map (fun x => flat_map box_rows (map BoxRow (res_boxes x))) results
               = flat_map res_boxes results).
  { apply flat_map_ext. intro r. apply flat_box_rows. }
  assert (ES : concat (flat_map (fun x => map score_vector (map Score0 (res_scores x))) results)
               = flat_map res_scores results).
  { rewrite concat_flat_map. apply flat_map_ext. intro r. apply concat_score_vectors. }
  rewrite EB. destruct (flat_map res_boxes results) as [|b bs]; [reflexivity|].
  cbn [torch_vstack bind].
  unfold torch_cat.
  destruct (flat_map (fun x => map score_vector (map Score0 (res_scores x))) results)
    as [|v vs] eqn:EV.
  - simpl in ES. rewrite <- ES. reflexivity.
  - rewrite ES. cbn [bind].
    destruct (flat_map res_scores results) as [|x xs] eqn:EX; [|reflexivity].
    exfalso. clear - EV EX.
    induction results as [|r results IH]; simpl in *; [discriminate|].
    apply app_eq_nil in EX as [E1 E2]. rewrite E1 in EV. simpl in EV. auto.
Qed.

(** C4, as stated, fails: on a checkpoint directory that exists and holds no
    record, [load_all_steps] raises instead of returning empty collections. *)
Lemma load_all_steps_empty_directory_raises :
  lookup "out/step1" (dirs prepared_world) = Some []
  /\ fst (load_all_steps "out/step1" prepared_world) = Raise RuntimeError.
Proof. split; reflexivity. Qed.

Lemma flat_map_fields {A B C} (g : B -> C) (files : list (A * list B)) :
  flat_map (fun f => map g (snd f)) files = map g (flat_map snd files).
Proof.
  induction files as [|f files IH]; simpl; [reflexivity|]. now rewrite map_app, IH.
Qed.

Lemma stored_of_filtered (l : list FilteredDetection) :
  stored_detections (res_of_filtered l) = map stored l.
Proof.
  unfold stored_detections, res_of_filtered; simpl.
  induction l as [|d l IH]; simpl; [reflexivity|]. now rewrite IH.
Qed.

(** C4, amended: when the directory holds records saved by the store with at
    least one detection among them, [load_all_steps] succeeds and returns the
    detections of all records in listing order, single-detection and
    multi-detection records alike, as three flat collections of one length
    whose k-th box, score and mask are those of the k-th stored detection.
    With no detection stored it raises. *)
Theorem load_all_steps_flat_and_aligned (w : World) (path : string)
  (files : list (string * list FilteredDetection)) :
  lookup path (dirs w)
  = Some (map (fun f => (fst f, pickle_dump (res_of_filtered (snd f)))) files) ->
  let all := flat_map snd files in
  fst (load_all_steps path w)
  = (if is_empty all then Raise RuntimeError else Ok (res_of_filtered all))
  /\ aligned_res (res_of_filtered all)
  /\ stored_detections (res_of_filtered all) = map stored all
  /\ forall k d, nth_error all k = Some d ->
        nth_error (res_boxes (res_of_filtered all)) k = Some (fd_box d)
        /\ nth_error (res_scores (res_of_filtered all)) k = Some (fd_score d)
        /\ nth_error (res_masks (res_of_filtered all)) k
           = Some (Trimmed (fd_anchor d) (fd_mask d)).
Proof.
  intros Hdir all.
  assert (E : fst (load_all_steps path w)
              = load_records (map pickle_dump (map (fun f => res_of_filtered (snd f)) files))).
  { unfold load_all_steps, bindM, listdir, lift. rewrite Hdir. cbn [fst].
    now rewrite !map_map. }
  split; [|split; [|split]].
  - rewrite E, load_records_of_results, !flat_map_concat_map, !map_map.
    cbn [res_of_filtered res_boxes res_scores res_masks].
    rewrite <- !flat_map_concat_map, !flat_map_fields. fold all.
    unfold res_of_filtered. destruct all as [|d all']; reflexivity.
  - unfold aligned_res, res_of_filtered; simpl. now rewrite !length_map.
  - apply stored_of_filtered.
  - intros k d Hk. unfold res_of_filtered; cbn [res_boxes res_scores res_masks].
    rewrite !nth_error_map, Hk. auto.
Qed.

Lemma load_all_steps_flat_and_aligned_witness :
  lookup "out/step1" (dirs two_record_world)
  = Some (map (fun f => (fst f, pickle_dump (res_of_filtered (snd f)))) two_files)
  /\ fst (load_all_steps "out/step1" two_record_world)
     = Ok (res_of_filtered (flat_map snd two_files)).
Proof.
  split; [reflexivity|].
  exact (proj1 (load_all_steps_flat_and_aligned two_record_world "out/step1" two_files
                  eq_refl)).
Defined.

(** ** Global deduplicator *)

Lemma insert_desc_In (score : nat -> Q) (x i : nat) (l : list nat) :
  In i (insert_desc score x l) -> i = x \/ In i l.
Proof.
  induction l as [|y l IH]; simpl.
  - intros [E|[]]; auto.
  - destruct (Qle_bool (score y) (score x)); simpl.
    + intros [E|[E|H]]; auto.
    + intros [E|H]; auto. destruct (IH H); auto.
Qed.

Lemma argsort_desc_in_range (scores : list Q) (i : nat) :
  In i (argsort_desc scores) -> (i < length scores)%nat.
Proof.
  unfold argsort_desc. intro H.
  assert (G : forall l, In i (fold_right (insert_desc (fun k => nth k scores 0%Q)) [] l) -> In i l).
  { induction l as [|x l IH]; simpl; [auto|].
    intro Hi. apply insert_desc_In in Hi as [E|Hi]; auto. }
  apply G in H. apply in_seq in H. lia.
Qed.

Lemma greedy_In (thres : Q) (boxes : list Box) (order kept : list nat) (i : nat) :
  In i (greedy thres boxes order kept) -> In i order \/ In i kept.
Proof.
  revert kept; induction order as [|c order IH]; intro kept; simpl; [auto|].
  destruct (existsb _ kept); intro H; apply IH in H as [H|H]; auto.
  apply in_app_or in H as [H|[E|[]]]; auto.
Qed.

Lemma nms_in_range (boxes : list Box) (scores : list Q) (thres : Q) (i : nat) :
  In i (nms boxes scores thres) -> (i < length scores)%nat.
Proof.
  unfold nms. intro H. apply greedy_In in H as [H|[]].
  now apply argsort_desc_in_range.
Qed.

Lemma gather_in_range {A} (indexes : list nat) (xs : list A) :
  (forall i, In i indexes -> (i < length xs)%nat) ->
  exists ys, gather indexes xs = Ok ys
             /\ length ys = length indexes
             /\ forall k i, nth_error indexes k = Some i ->
                            nth_error ys k = nth_error xs i.
Proof.
  induction indexes as [|i indexes IH]; intro Hin; simpl.
  - exists []. repeat split. intros [|k] i H; discriminate H.
  - destruct IH as (ys & E & L & N); [intros; apply Hin; now right|].
    destruct (nth_error xs i) as [x|] eqn:Ex.
    + exists (x :: ys). rewrite E; simpl. repeat split; [now rewrite L|].
      intros [|k] i' H; simpl in *; [now injection H as <- | now apply N].
    + apply nth_error_None in Ex. specialize (Hin i (or_introl eq_refl)). lia.
Qed.

Lemma Qgt_bool_true (x y : Q) : Qgt_bool x y = true <-> (y < x)%Q.
Proof.
  unfold Qgt_bool. rewrite negb_true_iff. split; intro H.
  - apply Qnot_le_lt. intro L. apply Qle_bool_iff in L. congruence.
  - destruct (Qle_bool x y) eqn:E; [|reflexivity].
    apply Qle_bool_iff in E. exfalso. now apply (Qlt_not_le _ _ H).
Qed.

Lemma Qgt_bool_false (x y : Q) : Qgt_bool x y = false <-> (x <= y)%Q.
Proof.
  unfold Qgt_bool. rewrite negb_false_iff. apply Qle_bool_iff.
Qed.

(** Non-max suppression of two boxes, the first with the higher score. *)
Lemma nms_pair (a b : Box) (sa sb thres : Q) :
  (sb < sa)%Q ->
  nms [a; b] [sa; sb] thres = (if Qgt_bool (iou a b) thres then [0%nat] else [0%nat; 1%nat])
  /\ nms [b; a] [sb; sa] thres = (if Qgt_bool (iou a b) thres then [1%nat] else [1%nat; 0%nat]).
Proof.
  intro Hs. unfold nms, argsort_desc; simpl.
  assert (E1 : Qle_bool sb sa = true) by (apply Qle_bool_iff; now apply Qlt_le_weak).
  assert (E2 : Qle_bool sa sb = false).
  { destruct (Qle_bool sa sb) eqn:E; [|reflexivity].
    apply Qle_bool_iff in E. exfalso. now apply (Qlt_not_le _ _ Hs). }
  rewrite E1, E2; simpl. unfold overlaps; simpl. rewrite !orb_false_r.
  split; destruct (Qgt_bool (iou a b) thres); reflexivity.
Qed.

(** *** What non-max suppression returns *)

Lemma insert_desc_In_iff (score : nat -> Q) (x i : nat) (l : list nat) :
  In i (insert_desc score x l) <-> i = x \/ In i l.
Proof.
  split; [apply insert_desc_In|].
  induction l as [|y l IH]; simpl.
  - intros [E|[]]; auto.
  - destruct (Qle_bool (score y) (score x)); simpl; intuition.
Qed.

Lemma insert_desc_sorted (scores : list Q) (x : nat) (l : list nat) :
  StronglySorted (scores_no_less scores) l ->
  StronglySorted (scores_no_less scores) (insert_desc (fun k => nth k scores 0%Q) x l).
Proof.
  induction 1 as [|y l Hl IH Hy]; simpl; [repeat constructor|].
  destruct (Qle_bool (nth y scores 0%Q) (nth x scores 0%Q)) eqn:E.
  - apply Qle_bool_iff in E. constructor; [now constructor|].
    constructor; [exact E|].
    eapply Forall_impl; [|exact Hy]. unfold scores_no_less. intros z Hz.
    now apply Qle_trans with (nth y scores 0%Q).
  - constructor; [exact IH|].
    apply Forall_forall. intros z Hz. apply insert_desc_In in Hz as [-> | Hz].
    + unfold scores_no_less. apply Qlt_le_weak, Qgt_bool_true.
      unfold Qgt_bool. now rewrite E.
    + rewrite Forall_forall in Hy. now apply Hy.
Qed.

Lemma argsort_desc_sorted (scores : list Q) :
  StronglySorted (scores_no_less scores) (argsort_desc scores).
Proof.
  unfold argsort_desc. induction (seq 0 (length scores)) as [|x l IH]; simpl.
  - constructor.
  - now apply insert_desc_sorted.
Qed.

Lemma argsort_desc_complete (scores : list Q) (i : nat) :
  (i < length scores)%nat -> In i (argsort_desc scores).
Proof.
  intro Hi. unfold argsort_desc.
  assert (G : forall l, In i l ->
                        In i (fold_right (insert_desc (fun k => nth k scores 0%Q)) [] l)).
  { induction l as [|x l IH]; simpl; [auto|].
    intros [-> | Hl]; apply insert_desc_In_iff; auto. }
  apply G, in_seq. lia.
Qed.

Lemma greedy_keeps (thres : Q) (boxes : list Box) (order kept : list nat) (k : nat) :
  In k kept -> In k (greedy thres boxes order kept).
Proof.
  revert kept; induction order as [|c order IH]; intros kept Hk; simpl; [exact Hk|].
  destruct (existsb _ kept); apply IH; [exact Hk | apply in_or_app; now left].
Qed.

Lemma ForallOrdPairs_snoc {A} (R : A -> A -> Prop) (l : list A) (c : A) :
  ForallOrdPairs R l -> Forall (fun k => R k c) l -> ForallOrdPairs R (l ++ [c]).
Proof.
  induction 1 as [|a l Ha Hl IH]; intro Hc; simpl.
  - repeat constructor.
  - inversion Hc as [|? ? Hac Hlc]; subst. constructor; [|now apply IH].
    apply Forall_app. split; [exact Ha | now constructor].
Qed.

(** No accepted box overlaps, beyond the threshold, a box accepted before it. *)
Lemma greedy_separated (thres : Q) (boxes : list Box) (order kept : list nat) :
  ForallOrdPairs (fun k c => overlaps thres boxes k c = false) kept ->
  ForallOrdPairs (fun k c => overlaps thres boxes k c = false)
                 (greedy thres boxes order kept).
Proof.
  revert kept; induction order as [|c order IH]; intros kept Hk; simpl; [exact Hk|].
  destruct (existsb (fun k => overlaps thres boxes k c) kept) eqn:E; apply IH; [exact Hk|].
  apply ForallOrdPairs_snoc; [exact Hk|].
  apply Forall_forall. intros k Hin.
  destruct (overlaps thres boxes k c) eqn:Eo; [|reflexivity].
  assert (existsb (fun k => overlaps thres boxes k c) kept = true)
    by (apply existsb_exists; eauto).
  congruence.
Qed.

(** Every candidate is accepted or overlaps, beyond the threshold, an
    accepted box. *)
Lemma greedy_suppressed (thres : Q) (boxes : list Box) (order kept : list nat) (c : nat) :
  In c order ->
  In c (greedy thres boxes order kept)
  \/ exists k, In k (greedy thres boxes order kept) /\ overlaps thres boxes k c = true.
Proof.
  revert kept; induction order as [|x order IH]; intros kept Hc; simpl; [destruct Hc|].
  destruct Hc as [-> | Hc].
  - destruct (existsb (fun k => overlaps thres boxes k c) kept) eqn:E.
    + right. apply existsb_exists in E as (k & Hk & Ho).
      exists k. split; [now apply greedy_keeps | exact Ho].
    + left. apply greedy_keeps, in_or_app. right. now left.
  - destruct (existsb _ kept); now apply IH.
Qed.

Lemma StronglySorted_remove {A} (R : A -> A -> Prop) (l1 l2 : list A) (x : A) :
  StronglySorted R (l1 ++ x :: l2) -> StronglySorted R (l1 ++ l2).
Proof.
  induction l1 as [|a l1 IH]; simpl; intro H.
  - now inversion H.
  - inversion H as [|? ? Hs Ha]; subst. constructor; [now apply IH|].
    apply Forall_app in Ha as [Ha1 Ha2]. apply Forall_app. split; [exact Ha1|].
    now inversion Ha2.
Qed.

Lemma greedy_sorted (R : nat -> nat -> Prop) (thres : Q) (boxes : list Box)
  (order kept : list nat) :
  StronglySorted R (kept ++ order) -> StronglySorted R (greedy thres boxes order kept).
Proof.
  revert kept; induction order as [|c order IH]; intros kept H; simpl.
  - now rewrite app_nil_r in H.
  - destruct (existsb _ kept); apply IH.
    + now apply StronglySorted_remove in H.
    + now rewrite <- app_assoc.
Qed.

(** The indices returned by non-max suppression: in range, by descending
    score, pairwise separated, and accounting for every box. *)
Lemma nms_is_greedy_suppression (boxes : list Box) (scores : list Q) (thres : Q) :
  let indexes := nms boxes scores thres in
  (forall i, In i indexes -> (i < length scores)%nat)
  /\ StronglySorted (scores_no_less scores) indexes
  /\ ForallOrdPairs (fun k c => overlaps thres boxes k c = false) indexes
  /\ forall c, (c < length scores)%nat ->
        In c indexes \/ exists k, In k indexes /\ overlaps thres boxes k c = true.
Proof.
  intro indexes. unfold indexes, nms. split; [|split; [|split]].
  - intros i Hi. now apply nms_in_range in Hi.
  - apply greedy_sorted. apply argsort_desc_sorted.
  - apply greedy_separated. constructor.
  - intros c Hc. apply greedy_suppressed. now apply argsort_desc_complete.
Qed.

Lemma gather_map {A B} (f : A -> B) (indexes : list nat) (xs : list A) :
  gather indexes (map f xs) = (kept <- gather indexes xs ;; Ok (map f kept)).
Proof.
  induction indexes as [|i indexes IH]; simpl; [reflexivity|].
  rewrite nth_error_map. destruct (nth_error xs i) as [x|]; simpl; [|reflexivity].
  rewrite IH. destruct (gather indexes xs); reflexivity.
Qed.

(** C6: the deduplication step takes the indices that greedy non-max
    suppression returns for the aggregated boxes and scores and applies that
    one index list to the boxes, the scores and the masks: what is kept is the
    list of the aggregated detections at those indices, in that order.  Of two
    boxes with IoU 0.5 and threshold 0.1 only the higher-scoring one is kept,
    wherever it stands; with IoU 0.05 both are kept, the higher score
    first. *)
Theorem deduplicate_uniform_and_greedy (args : Args)
  (aggregated : list (Box * (Q * mask_item))) (a b : Box) (sa sb : Q) :
  let loaded := res_of_stored aggregated in
  let indexes := nms (res_boxes loaded) (res_scores loaded) (thres_nms args) in
  (exists kept,
      gather indexes aggregated = Ok kept
      /\ deduplicate args loaded = Ok (res_of_stored kept)
      /\ length kept = length indexes
      /\ forall k i, nth_error indexes k = Some i ->
                     nth_error kept k = nth_error aggregated i)
  /\ (StronglySorted (scores_no_less (res_scores loaded)) indexes
      /\ ForallOrdPairs (fun k c => overlaps (thres_nms args) (res_boxes loaded) k c = false)
                        indexes
      /\ forall c, (c < length aggregated)%nat ->
            In c indexes
            \/ exists k, In k indexes
                         /\ overlaps (thres_nms args) (res_boxes loaded) k c = true)
  /\ ((sb < sa)%Q -> (iou a b == 1 # 2)%Q ->
      nms [a; b] [sa; sb] (1 # 10) = [0%nat] /\ nms [b; a] [sb; sa] (1 # 10) = [1%nat])
  /\ ((sb < sa)%Q -> (iou a b == 1 # 20)%Q ->
      nms [a; b] [sa; sb] (1 # 10) = [0%nat; 1%nat]
      /\ nms [b; a] [sb; sa] (1 # 10) = [1%nat; 0%nat]).
Proof.
  intros loaded indexes. split; [|split; [|split]].
  - destruct (gather_in_range indexes aggregated) as (kept & E & L & N).
    { intros i Hi. apply nms_in_range in Hi.
      unfold loaded, res_of_stored in Hi; cbn [res_scores] in Hi.
      now rewrite length_map in Hi. }
    exists kept. split; [exact E|]. split; [|split; [exact L | exact N]].
    unfold deduplicate. fold loaded indexes.
    unfold loaded, res_of_stored; cbn [res_boxes res_scores res_masks].
    rewrite !gather_map, E. reflexivity.
  - destruct (nms_is_greedy_suppression (res_boxes loaded) (res_scores loaded)
                (thres_nms args)) as (_ & Hsorted & Hsep & Hall).
    split; [exact Hsorted|]. split; [exact Hsep|].
    intros c Hc. apply Hall.
    unfold loaded, res_of_stored; cbn [res_scores]. now rewrite length_map.
  - intros Hs Hiou. destruct (nms_pair a b sa sb (1 # 10) Hs) as [-> ->].
    assert (G : Qgt_bool (iou a b) (1 # 10) = true).
    { apply Qgt_bool_true. rewrite Hiou. reflexivity. }
    rewrite G. split; reflexivity.
  - intros Hs Hiou. destruct (nms_pair a b sa sb (1 # 10) Hs) as [-> ->].
    assert (G : Qgt_bool (iou a b) (1 # 10) = false).
    { apply Qgt_bool_false. rewrite Hiou. discriminate. }
    rewrite G. split; reflexivity.
Qed.

Lemma deduplicate_uniform_and_greedy_witness :
  (7 # 10 < 9 # 10)%Q
  /\ (iou unit_box wide_box == 1 # 2)%Q
  /\ nms [unit_box; wide_box] [9 # 10; 7 # 10] (1 # 10) = [0%nat]
  /\ nms [wide_box; unit_box] [7 # 10; 9 # 10] (1 # 10) = [1%nat]
  /\ (iou unit_box long_box == 1 # 20)%Q
  /\ nms [long_box; unit_box] [7 # 10; 9 # 10] (1 # 10) = [1%nat; 0%nat].
Proof.
  assert (Hs : (7 # 10 < 9 # 10)%Q) by reflexivity.
  assert (Hi : (iou unit_box wide_box == 1 # 2)%Q) by reflexivity.
  assert (Hj : (iou unit_box long_box == 1 # 20)%Q) by reflexivity.
  split; [exact Hs|]. split; [exact Hi|].
  split; [|split; [|split; [exact Hj|]]].
  - exact (proj1 (proj1 (proj2 (proj2 (deduplicate_uniform_and_greedy (args_with 128 10)
                                   overlapping_pair unit_box wide_box (9 # 10) (7 # 10))))
                        Hs Hi)).
  - exact (proj2 (proj1 (proj2 (proj2 (deduplicate_uniform_and_greedy (args_with 128 10)
                                   overlapping_pair unit_box wide_box (9 # 10) (7 # 10))))
                        Hs Hi)).
  - exact (proj2 (proj2 (proj2 (proj2 (deduplicate_uniform_and_greedy (args_with 128 10)
                                   overlapping_pair unit_box long_box (9 # 10) (7 # 10))))
                        Hs Hj)).
Defined.

(** ** Canvas compositor *)

(** An in-place addition whose window lies inside the canvas and has the
    shape of the mask succeeds and adds the mask cell by cell. *)
Lemma iadd_window (final mask : ndarray Z) (r0 r1 c0 c1 : Z) :
  0 <= r0 <= r1 -> r1 <= nrows final ->
  0 <= c0 <= c1 -> c1 <= ncols final ->
  nrows mask = r1 - r0 -> ncols mask = c1 - c0 ->
  exists final',
    iadd final r0 r1 c0 c1 mask = Ok final'
    /\ nrows final' = nrows final /\ ncols final' = ncols final
    /\ forall r c,
         cell final' r c
         = cell final r c +
           (if (r0 <=? r) && (r <? r1) && (c0 <=? c) && (c <? c1)
            then cell mask (r - r0) (c - c0) else 0).
Proof.
  intros Hr Hr1 Hc Hc1 Hm Hn. unfold iadd.
  rewrite !norm_index_inside by lia.
  replace (Z.max 0 (r1 - r0)) with (r1 - r0) by lia.
  replace (Z.max 0 (c1 - c0)) with (c1 - c0) by lia.
  unfold broadcastable, broadcast_index.
  rewrite Hm, Hn, !Z.eqb_refl; simpl.
  eexists. split; [reflexivity|]. simpl. repeat split.
  intros r c.
  replace (r0 + (r1 - r0)) with r1 by lia.
  replace (c0 + (c1 - c0)) with c1 by lia.
  destruct ((r0 <=? r) && (r <? r1) && (c0 <=? c) && (c <? c1)); lia.
Qed.

(** One turn of the compositor's loop on a well-placed detection. *)
Lemma paint_one (h w i : Z) (box : Box) (mask final : ndarray Z) :
  binary mask -> 0 <= nrows mask -> 0 <= ncols mask ->
  0 <= py_int (bx0 box) <= py_int (bx1 box) -> py_int (bx1 box) <= w ->
  0 <= py_int (by0 box) <= py_int (by1 box) -> py_int (by1 box) <= h ->
  nrows final = h -> ncols final = w ->
  let x0 := py_int (bx0 box) in
  let y0 := py_int (by0 box) in
  let x1 := py_int (bx1 box) in
  let y1 := py_int (by1 box) in
  let scaled := scale (i + 1) mask in
  exists final',
    (if negb (y1 - y0 =? nrows scaled) || negb (x1 - x0 =? ncols scaled)
     then
       let cut := slice2 scaled 0 (Z.min (nrows scaled) (y1 - y0))
                                0 (Z.min (ncols scaled) (x1 - x0)) in
       iadd final y0 (y0 + nrows cut) x0 (x0 + ncols cut) cut
     else iadd final y0 y1 x0 x1 scaled) = Ok final'
    /\ nrows final' = h /\ ncols final' = w
    /\ forall r c,
         cell final' r c
         = cell final r c + sum_ids (if marks box mask r c then [i + 1] else []).
Proof.
  intros Hbin Hrows Hcols Hx Hx1 Hy Hy1 Hh Hw x0 y0 x1 y1 scaled.
  assert (Hcell : forall r c, cell scaled r c = if cell mask r c =? 1 then i + 1 else 0).
  { intros r c. unfold scaled; cbn [cell scale].
    destruct (Hbin r c) as [E | E]; rewrite E;
      [change (0 =? 1) with false | change (1 =? 1) with true]; cbv iota; lia. }
  destruct (negb (y1 - y0 =? nrows scaled) || negb (x1 - x0 =? ncols scaled)) eqn:Eshape.
  - cbv zeta.
    set (cut := slice2 scaled 0 (Z.min (nrows scaled) (y1 - y0))
                              0 (Z.min (ncols scaled) (x1 - x0))).
    assert (Hcr : nrows cut = Z.min (nrows mask) (y1 - y0)).
    { unfold cut, slice2, scaled; simpl. rewrite !norm_index_inside by lia. lia. }
    assert (Hcc : ncols cut = Z.min (ncols mask) (x1 - x0)).
    { unfold cut, slice2, scaled; simpl. rewrite !norm_index_inside by lia. lia. }
    assert (Hcut : forall r c, cell cut r c = cell scaled r c).
    { intros r c. unfold cut, slice2; simpl.
      rewrite !norm_index_inside by (unfold scaled; simpl; lia). reflexivity. }
    destruct (iadd_window final cut y0 (y0 + nrows cut) x0 (x0 + ncols cut))
      as (final' & E & R & C & Hf); try lia.
    exists final'. split; [exact E|]. split; [lia|]. split; [lia|].
    intros r c. rewrite Hf, Hcut, Hcell, Hcr, Hcc. unfold marks. fold x0 y0 x1 y1.
    destruct ((y0 <=? r) && (r <? y0 + Z.min (nrows mask) (y1 - y0)) &&
              (x0 <=? c) && (c <? x0 + Z.min (ncols mask) (x1 - x0))); simpl;
      [destruct (cell mask (r - y0) (c - x0) =? 1); simpl; lia | reflexivity].
  - apply orb_false_elim in Eshape as [E1 E2].
    apply negb_false_iff, Z.eqb_eq in E1. apply negb_false_iff, Z.eqb_eq in E2.
    assert (Er : nrows scaled = nrows mask) by reflexivity.
    assert (Ec : ncols scaled = ncols mask) by reflexivity.
    destruct (iadd_window final scaled y0 y1 x0 x1)
      as (final' & E & R & C & Hf); try lia.
    exists final'. split; [exact E|]. split; [lia|]. split; [lia|].
    intros r c. rewrite Hf, Hcell. unfold marks. fold x0 y0 x1 y1.
    replace (y0 + Z.min (nrows mask) (y1 - y0)) with y1 by lia.
    replace (x0 + Z.min (ncols mask) (x1 - x0)) with x1 by lia.
    destruct ((y0 <=? r) && (r <? y1) && (x0 <=? c) && (c <? x1)); simpl;
      [destruct (cell mask (r - y0) (c - x0) =? 1); simpl; lia | reflexivity].
Qed.

Lemma sum_ids_app (l m : list Z) : sum_ids (l ++ m) = sum_ids l + sum_ids m.
Proof. induction l as [|x l IH]; simpl; [reflexivity|]. unfold sum_ids in *. simpl. lia. Qed.

Lemma paint_well_placed (h w : Z) (boxes : list Box) (masks : list mask_item) :
  Forall2 (well_placed h w) boxes masks ->
  forall i final, nrows final = h -> ncols final = w ->
  exists canvas,
    paint i boxes masks final = Ok canvas
    /\ nrows canvas = h /\ ncols canvas = w
    /\ forall r c, cell canvas r c
                   = cell final r c + sum_ids (instance_ids i boxes masks r c).
Proof.
  induction 1 as [|box item boxes masks Hwp _ IH]; intros i final Hh Hw.
  - exists final. simpl. repeat split; auto. intros; lia.
  - destruct item as [m | a mask]; [destruct Hwp|].
    destruct Hwp as (Hbin & Hr & Hc & Hx & Hx1 & Hy & Hy1).
    destruct (paint_one h w i box mask final Hbin Hr Hc Hx Hx1 Hy Hy1 Hh Hw)
      as (final' & E & R & C & Hf).
    cbn [paint]. cbv zeta in E. rewrite E. cbn [bind].
    destruct (IH (i + 1) final' R C) as (canvas & Ep & Rc & Cc & Hcanvas).
    exists canvas. split; [exact Ep|]. split; [exact Rc|]. split; [exact Cc|].
    intros r c. rewrite Hcanvas, Hf. cbn [instance_ids]. rewrite sum_ids_app. lia.
Qed.

Lemma instance_ids_positive (boxes : list Box) (masks : list mask_item) (r c : Z) :
  forall i, 0 <= i -> Forall (fun id => i < id) (instance_ids i boxes masks r c).
Proof.
  revert masks; induction boxes as [|box boxes IH]; intros masks i Hi; simpl; [constructor|].
  destruct masks as [|[m | a mask] masks]; try constructor.
  apply Forall_app. split.
  - destruct (marks box mask r c); constructor; [lia | constructor].
  - eapply Forall_impl; [|apply IH; lia]. simpl. intros; lia.
Qed.

Lemma sum_ids_positive (ids : list Z) :
  Forall (fun id => 0 < id) ids -> ids <> [] -> 0 < sum_ids ids.
Proof.
  induction 1 as [|x ids Hx Hids IH]; intro Hne; [congruence|].
  unfold sum_ids in *; simpl. destruct ids as [|y ids]; simpl in *; [lia|].
  assert (0 < y + fold_right Z.add 0 ids) by (apply IH; discriminate). lia.
Qed.

(** C5: for detections that satisfy the invariant of filtered detections on an
    image of [h] rows and [w] columns, the compositor returns a canvas of
    exactly that shape, built from [numpy.zeros], in which every cell holds
    the sum of the ids [k + 1] of the detections [k] (0-based, in the order
    kept) that mark it; a detection marks the window at its box's corner whose
    extent is the smaller of the mask's and the box's, so overlapping
    instances add up.  A cell is 0 when nothing marks it and positive
    otherwise. *)
Theorem composite_adds_instance_ids (h w : Z) (kept : Res) :
  Forall2 (well_placed h w) (res_boxes kept) (res_masks kept) ->
  exists canvas,
    composite (h, w) kept = Ok canvas
    /\ nrows canvas = h /\ ncols canvas = w
    /\ (forall r c, cell (zeros h w) r c = 0)
    /\ forall r c,
         let ids := instance_ids 0 (res_boxes kept) (res_masks kept) r c in
         cell canvas r c = sum_ids ids
         /\ Forall (fun id => 1 <= id) ids
         /\ (ids = [] /\ cell canvas r c = 0 \/ ids <> [] /\ 0 < cell canvas r c).
Proof.
  intro Hwp. unfold composite; cbn [fst snd].
  destruct (paint_well_placed h w _ _ Hwp 0 (zeros h w) eq_refl eq_refl)
    as (canvas & E & R & C & Hcell).
  exists canvas. split; [exact E|]. split; [exact R|]. split; [exact C|].
  split; [reflexivity|].
  intros r c. specialize (Hcell r c). simpl in Hcell.
  pose proof (instance_ids_positive (res_boxes kept) (res_masks kept) r c 0 (Z.le_refl 0))
    as Hpos.
  set (ids := instance_ids 0 (res_boxes kept) (res_masks kept) r c) in *.
  split; [exact Hcell|]. split.
  - eapply Forall_impl; [|exact Hpos]. simpl. intros; lia.
  - destruct ids as [|id ids'] eqn:Eids.
    + left. split; [reflexivity | rewrite Hcell; reflexivity].
    + right. split; [discriminate|]. rewrite Hcell.
      apply sum_ids_positive; [exact Hpos | discriminate].
Qed.

Lemma composite_adds_instance_ids_witness :
  exists canvas,
    composite (4, 5) overlapping_kept = Ok canvas
    /\ nrows canvas = 4 /\ ncols canvas = 5
    /\ cell canvas 0 0 = 1 /\ cell canvas 1 1 = 3 /\ cell canvas 2 3 = 2
    /\ cell canvas 3 4 = 0.
Proof.
  assert (Hwp : Forall2 (well_placed 4 5) (res_boxes overlapping_kept)
                        (res_masks overlapping_kept)).
  { repeat (constructor;
              [cbn [well_placed]; repeat split;
               try (intros r c; right; reflexivity); vm_compute; discriminate|]).
    constructor. }
  destruct (composite_adds_instance_ids 4 5 overlapping_kept Hwp)
    as (canvas & E & R & C & _ & Hcell).
  exists canvas. split; [exact E|]. split; [exact R|]. split; [exact C|].
  split; [exact (proj1 (Hcell 0 0))|].
  split; [exact (proj1 (Hcell 1 1))|].
  split; [exact (proj1 (Hcell 2 3))|].
  exact (proj1 (Hcell 3 4)).
Defined.

(** *** The shape of the canvas, whatever the detections *)

Lemma iadd_keeps_shape (final final' mask : ndarray Z) (r0 r1 c0 c1 : Z) :
  iadd final r0 r1 c0 c1 mask = Ok final' ->
  nrows final' = nrows final /\ ncols final' = ncols final.
Proof.
  unfold iadd. destruct (broadcastable _ _ && broadcastable _ _); [|discriminate].
  intro E. injection E as <-. split; reflexivity.
Qed.

Lemma paint_keeps_shape (boxes : list Box) (masks : list mask_item) :
  forall i final canvas,
    paint i boxes masks final = Ok canvas ->
    nrows canvas = nrows final /\ ncols canvas = ncols final.
Proof.
  revert masks; induction boxes as [|box boxes IH]; intros masks i final canvas E.
  - simpl in E. injection E as <-. split; reflexivity.
  - destruct masks as [|[m | a mask] masks]; try discriminate E.
    cbn [paint] in E.
    match type of E with
    | bind ?step _ = _ => destruct step as [final'|e] eqn:Estep; [|discriminate E]
    end.
    cbn [bind] in E. apply IH in E as [R C].
    assert (Hshape : nrows final' = nrows final /\ ncols final' = ncols final).
    { destruct (negb _ || negb _) in Estep; now apply iadd_keeps_shape in Estep. }
    destruct Hshape. split; congruence.
Qed.

(** X16: whenever the compositor returns a canvas, for any dictionary at
    all, the canvas has the shape it was given. *)
Lemma composite_keeps_shape (h w : Z) (kept : Res) (canvas : ndarray Z) :
  composite (h, w) kept = Ok canvas -> nrows canvas = h /\ ncols canvas = w.
Proof.
  unfold composite; cbn [fst snd]. intro E. now apply paint_keeps_shape in E.
Qed.

(** *** Filtered detections are well placed *)

Lemma py_int_add_nonneg (x : Q) (j : Z) :
  (0 <= x)%Q -> 0 <= j -> py_int (x + inject_Z j) = py_int x + j.
Proof.
  destruct x as [a b]. unfold Qle, py_int; simpl. intros Ha Hj.
  rewrite Pos.mul_1_r, !Z.mul_1_r in *.
  apply Z.quot_add; [discriminate | nia].
Qed.

Lemma py_int_nonneg (x : Q) : (0 <= x)%Q -> 0 <= py_int x.
Proof.
  destruct x as [a b]. unfold Qle, py_int; simpl. intro Ha.
  apply Z.quot_pos; lia.
Qed.

(** A detection whose box lies in its tile, the tile lying in the image,
    leaves the filter as the compositor expects it. *)
Lemma finish_well_placed (args : Args) (h w T i j : Z) (d : RawDetection) :
  box_in_tile T (rd_box d) ->
  0 <= i -> i + T <= h -> 0 <= j -> j + T <= w ->
  well_placed h w (fd_box (finish args i j d))
              (Trimmed (fd_anchor (finish args i j d)) (fd_mask (finish args i j d))).
Proof.
  intros (Hx0 & Hy0 & Hx1 & Hy1 & Hx & Hy) Hi Hih Hj Hjw.
  unfold finish, well_placed, translate; cbn [fd_box fd_anchor fd_mask bx0 by0 bx1 by1].
  rewrite !py_int_add_nonneg by assumption.
  pose proof (py_int_nonneg _ Hx0). pose proof (py_int_nonneg _ Hy0).
  split; [|unfold trim, slice2; cbn [nrows ncols]; lia].
  intros r c. unfold trim, slice2, binarize; cbn [cell].
  destruct (Qle_bool _ _); auto.
Qed.

Lemma filtered_set_well_placed (args : Args) (h w T tile_area i j : Z)
  (l : list RawDetection) :
  Forall (fun d => box_in_tile T (rd_box d)) l ->
  0 <= i -> i + T <= h -> 0 <= j -> j + T <= w ->
  let out := res_of_filtered (map (finish args i j) (survivors args tile_area l)) in
  Forall2 (well_placed h w) (res_boxes out) (res_masks out).
Proof.
  intros Hl Hi Hih Hj Hjw out. unfold out, res_of_filtered; cbn [res_boxes res_masks].
  assert (Hs : Forall (fun d => box_in_tile T (rd_box d)) (survivors args tile_area l)).
  { apply Forall_forall. intros d Hd. rewrite Forall_forall in Hl. apply Hl.
    unfold survivors in Hd. repeat (apply filter_In in Hd as [Hd _]). exact Hd. }
  induction Hs as [|d s Hd _ IH]; simpl; constructor; [|exact IH].
  now apply (finish_well_placed args h w T).
Qed.

(** ** The pipeline on a fresh output directory *)

(** C10: when the device selector is accepted and the input image is read, a
    run in which [<output>/step1] does not exist stops at the listing of that
    directory with a file-not-found error: the directory is not created,
    nothing is written, and the only operations performed are the read of the
    input and the listing itself, so the model is neither loaded nor run on
    any tile. *)
Theorem pipeline_lists_step1_before_creating_it (env : Env) (args : Args) (w : World)
  (tiff : tiff_data) :
  device_available env args ->
  imread env (input args) = Ok tiff ->
  lookup (path_join (output args) "step1") (dirs w) = None ->
  let step1 := path_join (output args) "step1" in
  let run := pipeline env args w in
  fst run = Raise (FileNotFoundError step1)
  /\ dirs (snd run) = dirs w
  /\ written (snd run) = written w
  /\ trace (snd run) = trace w ++ [EvImread (input args); EvListdir step1]
  /\ existsb is_model_event [EvImread (input args); EvListdir step1] = false.
Proof.
  intros Hdev Hread Hdir step1 run.
  assert (E : run = (Raise (FileNotFoundError step1),
                     mkWorld (dirs w) (written w)
                             ((trace w ++ [EvImread (input args)]) ++ [EvListdir step1])
                             (slot w))).
  { unfold run, pipeline, bindM.
    assert (D : (match device args with
                 | Cuda n => if n <? cuda_device_count env then ret tt
                             else raise (SystemExit 1)
                 | Cpu => ret tt
                 end) w = (Ok tt, w)).
    { unfold device_available in Hdev. destruct (device args) as [|n]; [reflexivity|].
      apply Z.ltb_lt in Hdev. now rewrite Hdev. }
    rewrite D. unfold emit, lift. rewrite Hread.
    unfold listdir, step1; cbn [dirs written trace]. rewrite Hdir. reflexivity. }
  rewrite E; cbn [fst snd dirs written trace].
  rewrite <- app_assoc. repeat split.
Qed.

Lemma pipeline_lists_step1_before_creating_it_witness :
  device_available small_env (args_with 2 2)
  /\ lookup "out/step1" (dirs fresh_world) = None
  /\ fst (pipeline small_env (args_with 2 2) fresh_world)
     = Raise (FileNotFoundError "out/step1").
Proof.
  assert (Hdev : device_available small_env (args_with 2 2)) by (vm_compute; reflexivity).
  split; [exact Hdev|]. split; [reflexivity|].
  exact (proj1 (pipeline_lists_step1_before_creating_it small_env (args_with 2 2)
                  fresh_world (Plane uint16 (blank 4 4)) Hdev eq_refl eq_refl)).
Defined.

(** ** A whole run *)

(** The default arguments are those with tile side 128 and stride 10. *)
Example default_args_tile_and_stride : default_args "in.tiff" "out" = args_with 128 10.
Proof. reflexivity. Qed.

(** On the blob image, with tile side 16 and stride 8, the pipeline runs to
    completion.  Of the nine tiles of the primary sweep only tile (8, 8), the
    one that sees the whole blob, leaves a record; the seven edge and corner
    tiles see nothing and leave empty records; the label image written has
    instance id 1 on the blob and 0 elsewhere. *)
Example pipeline_blob_run :
  let run := pipeline blob_env (args_with 16 8) prepared_world in
  fst run = Ok tt
  /\ length (tiles_of (trace (snd run))) = 16%nat
  /\ map (fun d => (fst d, map (fun f => (fst f, length (p_boxes (snd f)))) (snd d)))
         (dirs (snd run))
     = [("out/step1"%string,
         [("4.pkl"%string, 1%nat); ("9.pkl"%string, 0%nat); ("10.pkl"%string, 0%nat);
          ("11.pkl"%string, 0%nat); ("12.pkl"%string, 0%nat); ("13.pkl"%string, 0%nat);
          ("14.pkl"%string, 0%nat); ("15.pkl"%string, 0%nat)])]
  /\ map (fun f => (fst f, is_blob_label (snd f))) (written (snd run))
     = [("out/output.tiff"%string, true)].
Proof. vm_compute. repeat split. Qed.

(** ** Normalized pixels *)

Lemma scaled_below (p : Q) (k : Z) :
  0 < k -> (0 <= p)%Q -> (p < inject_Z k)%Q ->
  (0 <= p / inject_Z k * 255)%Q /\ (p / inject_Z k * 255 < 255)%Q.
Proof.
  intros Hk H0 H1.
  assert (Hk' : (0 < inject_Z k)%Q) by (unfold Qlt; simpl; lia).
  assert (A : (0 <= p / inject_Z k)%Q) by (apply Qle_shift_div_l; [exact Hk'|]; now rewrite Qmult_0_l).
  assert (B : (p / inject_Z k < 1)%Q) by (apply Qlt_shift_div_r; [exact Hk'|]; now rewrite Qmult_1_l).
  split.
  - apply Qmult_le_0_compat; [exact A | discriminate].
  - setoid_replace (255%Q) with (1 * 255)%Q at 2 by ring.
    apply Qmult_lt_compat_r; [reflexivity | exact B].
Qed.

Lemma scaled_within (p : Q) (k : Z) :
  0 < k -> (0 <= p)%Q -> (p <= inject_Z k)%Q ->
  (0 <= p / inject_Z k * 255)%Q /\ (p / inject_Z k * 255 <= 255)%Q.
Proof.
  intros Hk H0 H1.
  assert (Hk' : (0 < inject_Z k)%Q) by (unfold Qlt; simpl; lia).
  assert (A : (0 <= p / inject_Z k)%Q) by (apply Qle_shift_div_l; [exact Hk'|]; now rewrite Qmult_0_l).
  assert (B : (p / inject_Z k <= 1)%Q) by (apply Qle_shift_div_r; [exact Hk'|]; now rewrite Qmult_1_l).
  split.
  - apply Qmult_le_0_compat; [exact A | discriminate].
  - setoid_replace (255%Q) with (1 * 255)%Q at 2 by ring.
    apply Qmult_le_compat_r; [exact B | discriminate].
Qed.

Lemma round_half_even_bounds (n e : Z) :
  n / 2 ^ e <= round_half_even n e <= n / 2 ^ e + 1.
Proof.
  unfold round_half_even.
  destruct (_ <? _); [lia|]. destruct (_ <? _); [lia|]. destruct (Z.even _); lia.
Qed.

(** Rounding to [float64] keeps an unsigned 64-bit integer within [0, 2^64]. *)
Lemma float64_of_Z_bounds (n : Z) : 0 <= n < 2 ^ 64 -> 0 <= float64_of_Z n <= 2 ^ 64.
Proof.
  intros [H0 H1]. unfold float64_of_Z.
  destruct (n <? 2 ^ 53) eqn:E.
  - apply Z.ltb_lt in E. split; [exact H0 | lia].
  - apply Z.ltb_ge in E.
    assert (Hn : 0 < n) by (pose proof (Z.pow_pos_nonneg 2 53); lia).
    assert (L1 : 53 <= Z.log2 n) by (apply Z.log2_le_pow2; lia).
    assert (L2 : Z.log2 n < 64) by (apply Z.log2_lt_pow2; lia).
    set (e := Z.log2 n - 52).
    assert (He : 1 <= e <= 11) by (unfold e; lia).
    pose proof (round_half_even_bounds n e) as [R0 R1].
    assert (Hp : 0 < 2 ^ e) by (apply Z.pow_pos_nonneg; lia).
    assert (Q0 : 0 <= n / 2 ^ e) by (apply Z.div_pos; lia).
    assert (Q1 : n / 2 ^ e < 2 ^ 53).
    { apply Z.div_lt_upper_bound; [exact Hp|]. rewrite <- Z.pow_add_r by lia.
      replace (e + 53) with (Z.succ (Z.log2 n)) by (unfold e; lia).
      apply Z.log2_spec; lia. }
    split; [apply Z.mul_nonneg_nonneg; lia|].
    transitivity (2 ^ 53 * 2 ^ e).
    + apply Z.mul_le_mono_nonneg_r; lia.
    + rewrite <- Z.pow_add_r by lia. apply Z.pow_le_mono_r; lia.
Qed.

Lemma Qfloor_unsigned (bits : Z) (p : Q) :
  in_unsigned_range bits p -> 0 <= Qfloor p < 2 ^ bits.
Proof.
  intros [H0 H1]. split.
  - change 0 with (Qfloor 0). now apply Qfloor_resp_le.
  - rewrite Zlt_Qlt. eapply Qle_lt_trans; [apply Qfloor_le | exact H1].
Qed.

(** The scaled pixels of an image divided exactly by the size of its range. *)
Ltac exact_quotient Hpx :=
  split;
  [ intros r c; destruct (Hpx r c) as [H0 H1]; cbn [times divide cell];
    split; [|apply Qlt_le_weak]; apply scaled_below;
    solve [reflexivity | exact H0 | exact H1]
  | split;
    [ intros _ r c; destruct (Hpx r c) as [H0 H1]; cbn [times divide cell];
      apply scaled_below; solve [reflexivity | exact H0 | exact H1]
    | discriminate ] ].

(** X1: an image whose pixels lie in the unsigned range of its format is
    scaled by [pipeline] (normalize, then times 255) to an image of the same
    shape with every pixel in [0, 255].  For every accepted format but
    [uint64] the value 255 itself is never reached; a [uint64] pixel is
    rounded to [float64] before the division and may reach it.  A [float16]
    image comes out as zeros. *)
Theorem normalized_pixels_within_255 (d : dtype) (px out : ndarray Q) :
  normalize_8_bit (mkImage d px) = Ok out ->
  (forall r c, in_unsigned_range (dtype_bits d) (cell px r c)) ->
  nrows (times out 255) = nrows px /\ ncols (times out 255) = ncols px
  /\ (forall r c, (0 <= cell (times out 255) r c)%Q /\ (cell (times out 255) r c <= 255)%Q)
  /\ (d <> uint64 -> forall r c, (cell (times out 255) r c < 255)%Q)
  /\ (d = float16 -> forall r c, (cell (times out 255) r c == 0)%Q).
Proof.
  intros E Hpx.
  destruct d; cbn in E; try discriminate; injection E as <-;
    (split; [reflexivity|]; split; [reflexivity|]).
  - (* int8 *) exact_quotient Hpx.
  - (* uint16 *) exact_quotient Hpx.
  - (* uint32 *) exact_quotient Hpx.
  - (* uint64 *)
    split; [|split; [congruence | discriminate]].
    intros r c. pose proof (float64_of_Z_bounds _ (Qfloor_unsigned _ _ (Hpx r c))) as [A B].
    cbn [times divide cell as_float64].
    apply scaled_within; [reflexivity | |].
    + change 0%Q with (inject_Z 0). now rewrite <- Zle_Qle.
    + now rewrite <- Zle_Qle.
  - (* float16 *)
    split; [|split]; [intros r c; split | intros _ r c | intros _ r c];
      cbn [times zeros_like cell]; vm_compute; congruence.
  - (* float32 *) exact_quotient Hpx.
  - (* float64 *) exact_quotient Hpx.
Qed.

Lemma normalized_pixels_within_255_witness :
  (exists out,
      normalize_8_bit (mkImage uint16 blob_image) = Ok out
      /\ (cell (times out 255) 12 12 < 255)%Q)
  /\ (exists out,
        normalize_8_bit (mkImage uint64 (mkArr 1 1 (fun _ _ => inject_Z (2 ^ 64 - 1)))) = Ok out
        /\ (cell (times out 255) 0 0 == 255)%Q).
Proof.
  split.
  - exists (divide blob_image (2 ^ 16)). split; [reflexivity|].
    apply (normalized_pixels_within_255 uint16 blob_image (divide blob_image (2 ^ 16)) eq_refl);
      [|discriminate].
    intros r c. unfold in_unsigned_range, blob_image; cbn [cell dtype_bits].
    destruct ((12 <=? r) && (r <? 18) && (12 <=? c) && (c <? 18)); split;
      vm_compute; congruence.
  - eexists. split; [reflexivity|]. vm_compute. reflexivity.
Defined.

(** ** What the filter returns *)

(** X2: [filter_tile] returns a dictionary exactly when the three arrays of
    the model's output have the same leading dimension, or there is no score
    at all; without scores the dictionary is the empty one, whatever the masks
    and boxes.  In every other case the first boolean indexing raises
    [IndexError], and that is the only exception the filter raises. *)
Theorem filter_tile_succeeds_iff (args : Args) (res : RawDetections)
  (tile_area i j : Z) :
  (is_ok (filter_tile args res tile_area i j) = true <-> aligned res \/ scores res = [])
  /\ (is_ok (filter_tile args res tile_area i j) = false <->
      filter_tile args res tile_area i j = Raise IndexError)
  /\ (scores res = [] -> filter_tile args res tile_area i j = Ok (mkRes [] [] [])).
Proof.
  split; [|split; [|apply filter_tile_without_scores]].
  - destruct (scores res) as [|s ss] eqn:Es.
    { rewrite (filter_tile_without_scores _ _ _ _ _ Es). cbn [is_ok]. tauto. }
    assert (Hs : scores res <> []) by (rewrite Es; discriminate). rewrite <- Es.
    assert (D : aligned res \/ ~ aligned res).
    { unfold aligned.
      destruct (Nat.eq_dec (length (scores res)) (length (masks res))) as [E1 | E1];
        destruct (Nat.eq_dec (length (masks res)) (length (boxes res))) as [E2 | E2];
        tauto. }
    destruct D as [H | H].
    + rewrite (filter_tile_total _ _ _ _ _ H). cbn [is_ok]. tauto.
    + rewrite (filter_tile_misaligned _ _ _ _ _ H Hs). cbn [is_ok].
      split; [discriminate | tauto].
  - destruct (filter_tile args res tile_area i j) as [out|e] eqn:E; cbn [is_ok].
    + split; discriminate.
    + split; [intros _ | reflexivity].
      destruct (scores res) as [|s ss] eqn:Es.
      { rewrite (filter_tile_without_scores _ _ _ _ _ Es) in E. discriminate. }
      assert (Hs : scores res <> []) by (rewrite Es; discriminate).
      assert (D : aligned res \/ ~ aligned res).
      { unfold aligned.
        destruct (Nat.eq_dec (length (scores res)) (length (masks res))) as [E1 | E1];
          destruct (Nat.eq_dec (length (masks res)) (length (boxes res))) as [E2 | E2];
          tauto. }
      destruct D as [H | H].
      * rewrite (filter_tile_total _ _ _ _ _ H) in E. discriminate.
      * rewrite (filter_tile_misaligned _ _ _ _ _ H Hs) in E. congruence.
Qed.

Lemma filter_tile_succeeds_iff_witness :
  filter_tile (args_with 32 10) scoreless_raw (32 ^ 2) 0 0 = Ok (mkRes [] [] [])
  /\ filter_tile (args_with 32 10) ragged_raw (32 ^ 2) 0 0 = Raise IndexError.
Proof.
  split.
  - apply (filter_tile_succeeds_iff (args_with 32 10) scoreless_raw (32 ^ 2) 0 0).
    reflexivity.
  - apply (filter_tile_succeeds_iff (args_with 32 10) ragged_raw (32 ^ 2) 0 0).
    reflexivity.
Defined.

Lemma length_raw_detections (res : RawDetections) :
  aligned res -> length (raw_detections res) = length (boxes res).
Proof.
  intro H. rewrite <- (of_raw_detections res H) at 2.
  unfold of_detections; cbn [boxes]. now rewrite length_map.
Qed.

Lemma In_survivors (args : Args) (tile_area : Z) (l : list RawDetection) (d : RawDetection) :
  In d (survivors args tile_area l) ->
  In d l /\ passes_score args d = true /\ passes_rel_size args tile_area d = true
  /\ passes_abs_size d = true /\ passes_mask_mass d = true.
Proof.
  unfold survivors. intro H.
  apply filter_In in H as [H H4]. apply filter_In in H as [H H3].
  apply filter_In in H as [H H2]. apply filter_In in H as [H H1]. tauto.
Qed.

Lemma box_area_translate (i j : Z) (b : Box) : (box_area (translate i j b) == box_area b)%Q.
Proof. unfold box_area, translate; cbn [bx0 by0 bx1 by1]. ring. Qed.

(** X3: on aligned arrays [filter_tile] returns a dictionary that holds no
    more detections than it was given, whose three lists have the same
    length, whose scores are at least the prediction threshold, whose boxes,
    once moved to image coordinates, still have an area above 30 and (for a
    tile area other than 0) a relative area within the size threshold, and
    whose masks are binary masks paired with the anchor [(j, i)] of the
    tile. *)
Theorem filter_tile_output_invariant (args : Args) (res : RawDetections)
  (tile_area i j : Z) :
  aligned res ->
  exists out,
    filter_tile args res tile_area i j = Ok out
    /\ (length (res_boxes out) <= length (boxes res))%nat
    /\ filtered_invariant args tile_area i j out.
Proof.
  intro Hres. rewrite (filter_tile_total _ _ _ _ _ Hres).
  eexists. split; [reflexivity|].
  rewrite <- (length_raw_detections res Hres).
  set (l := raw_detections res). unfold res_of_filtered; cbn [res_boxes res_scores res_masks].
  split.
  { rewrite !length_map. unfold survivors.
    repeat (etransitivity; [apply filter_length_le|]). reflexivity. }
  unfold filtered_invariant, aligned_res; cbn [res_boxes res_scores res_masks].
  split; [now rewrite !length_map|].
  split.
  { rewrite map_map. apply Forall_map, Forall_forall. intros d Hd.
    apply In_survivors in Hd as (_ & H1 & _). now apply Qle_bool_iff. }
  split.
  { rewrite map_map. apply Forall_map, Forall_forall. intros d Hd.
    apply In_survivors in Hd as (_ & _ & _ & H3 & _).
    cbn [finish fd_box]. rewrite box_area_translate. now apply Qgt_bool_true. }
  split.
  { intro Ha. rewrite map_map. apply Forall_map, Forall_forall. intros d Hd.
    apply In_survivors in Hd as (_ & _ & H2 & _).
    cbn [finish fd_box]. rewrite box_area_translate.
    unfold passes_rel_size, rel_size_ok in H2.
    apply Z.eqb_neq in Ha. rewrite Ha in H2. now apply Qle_bool_iff. }
  rewrite map_map. apply Forall_map, Forall_forall. intros d _.
  cbn [finish fd_anchor fd_mask]. eexists. split; [reflexivity|].
  intros r c. unfold trim, slice2, binarize; cbn [cell].
  destruct (Qle_bool _ _); auto.
Qed.

Lemma filter_tile_output_invariant_witness :
  exists out,
    filter_tile (args_with 32 10) sample_raw (32 ^ 2) 50 20 = Ok out
    /\ filtered_invariant (args_with 32 10) (32 ^ 2) 50 20 out.
Proof.
  assert (H : aligned sample_raw) by (split; reflexivity).
  destruct (filter_tile_output_invariant (args_with 32 10) sample_raw (32 ^ 2) 50 20 H)
    as (out & E & _ & Hout).
  exists out. split; [exact E | exact Hout].
Defined.

Lemma Forall_boxes_raw_detections (P : Box -> Prop) (res : RawDetections) :
  aligned res -> Forall P (boxes res) -> Forall (fun d => P (rd_box d)) (raw_detections res).
Proof.
  intros H HP. rewrite <- (of_raw_detections res H) in HP.
  unfold of_detections in HP; cbn [boxes] in HP. now apply (proj1 (Forall_map rd_box P _)) in HP.
Qed.

(** X4: the filter hands the compositor what it can paint.  When the boxes
    of the model's output lie in their tile and the tile lies in the image,
    every detection [filter_tile] returns is well placed on the image, and
    [composite] on that dictionary returns a canvas of the image's shape: no
    broadcasting error, no unpacking error, no index error. *)
Theorem filter_tile_output_composites (args : Args) (res : RawDetections)
  (tile_area h w i j : Z) :
  aligned res ->
  Forall (box_in_tile (tile_size args)) (boxes res) ->
  0 <= i -> i + tile_size args <= h -> 0 <= j -> j + tile_size args <= w ->
  exists out canvas,
    filter_tile args res tile_area i j = Ok out
    /\ Forall2 (well_placed h w) (res_boxes out) (res_masks out)
    /\ composite (h, w) out = Ok canvas
    /\ nrows canvas = h /\ ncols canvas = w.
Proof.
  intros Hres Hb Hi Hih Hj Hjw. rewrite (filter_tile_total _ _ _ _ _ Hres).
  pose proof (filtered_set_well_placed args h w (tile_size args) tile_area i j
                (raw_detections res) (Forall_boxes_raw_detections _ _ Hres Hb)
                Hi Hih Hj Hjw) as Hwp.
  cbv zeta in Hwp.
  destruct (paint_well_placed h w _ _ Hwp 0 (zeros h w) eq_refl eq_refl)
    as (canvas & E & Hr & Hc & _).
  eexists. exists canvas. split; [reflexivity|]. split; [exact Hwp|].
  split; [exact E|]. split; [exact Hr | exact Hc].
Qed.

Lemma filter_tile_output_composites_witness :
  exists out canvas,
    filter_tile (args_with 32 10) sample_raw (32 ^ 2) 50 20 = Ok out
    /\ composite (100, 100) out = Ok canvas.
Proof.
  assert (H : aligned sample_raw) by (split; reflexivity).
  assert (Hb : Forall (box_in_tile (tile_size (args_with 32 10))) (boxes sample_raw)).
  { constructor; [|constructor]. unfold box_in_tile; cbn.
    repeat split; try discriminate; vm_compute; discriminate. }
  destruct (filter_tile_output_composites (args_with 32 10) sample_raw (32 ^ 2) 100 100 50 20
              H Hb ltac:(lia) ltac:(cbn; lia) ltac:(lia) ltac:(cbn; lia))
    as (out & canvas & E & _ & Ec & _).
  exists out, canvas. split; [exact E | exact Ec].
Defined.

(** ** The tiles of a scan *)

Lemma no_detections_answers : answers no_detections.
Proof. intro tile. eexists. split; [reflexivity | split; reflexivity]. Qed.

Lemma ready_prepared_world (T S : Z) : ready (args_with T S) prepared_world.
Proof. unfold ready. cbn. discriminate. Qed.

(** X5: with a detector that answers, a stride other than 0 and an existing
    checkpoint directory, [tile_extraction_part] succeeds and calls the model
    on exactly the tiles of [schedule], in that order: the primary sweep row
    by row, then the last row, the last columns and the corner. *)
Theorem scan_processes_schedule (args : Args) (tiff : ndarray Q) (model : Model) (w : World) :
  answers model -> rolling_window args <> 0 -> ready args w ->
  let run := tile_extraction_part args tiff model w in
  fst run = Ok tt
  /\ tiles_of (trace (snd run))
     = tiles_of (trace w)
       ++ schedule (nrows tiff) (ncols tiff) (tile_size args) (rolling_window args).
Proof.
  intros Hmodel HS Hw run.
  destruct (tile_extraction_part_schedule args tiff model Hmodel w HS Hw) as (w' & E & _ & Tr).
  unfold run. rewrite E. split; [reflexivity | exact Tr].
Qed.

Lemma scan_processes_schedule_witness :
  tiles_of (trace (snd (blank_scan 5 4 2 2))) = schedule 5 4 2 2.
Proof.
  apply (scan_processes_schedule (args_with 2 2) (blank 5 4) no_detections prepared_world
           no_detections_answers ltac:(discriminate) (ready_prepared_world 2 2)).
Defined.

Lemma schedule_inside (H W T S : Z) :
  0 < S -> T <= H -> T <= W -> Forall (tile_inside H W T) (schedule H W T S).
Proof.
  intros HS HH HW. unfold schedule. apply Forall_forall. intros (i, j) Hin.
  unfold tile_inside; cbn [fst snd].
  assert (Sw : forall n k, In k (sweep_origins n T S) -> 0 <= k /\ k + T <= n).
  { intros n k Hk. apply In_take_until in Hk as [Hk Hstop].
    apply In_py_range in Hk as [Hk _]; [|exact HS].
    rewrite Z.gtb_ltb in Hstop. apply Z.ltb_ge in Hstop. lia. }
  assert (Ed : forall n k, In k (edge_origins n T S) -> 0 <= k /\ k + T <= n).
  { intros n k Hk. apply In_take_until in Hk as [Hk Hstop].
    apply In_py_range in Hk as [Hk _]; [|exact HS].
    rewrite Z.geb_leb in Hstop. apply Z.leb_gt in Hstop. lia. }
  apply in_app_or in Hin as [Hin | Hin].
  { apply in_flat_map in Hin as (i' & Hi & Hj). apply in_map_iff in Hj as (j' & E & Hj).
    injection E as <- <-. apply Sw in Hi. apply Sw in Hj. lia. }
  apply in_app_or in Hin as [Hin | Hin].
  { destruct (negb (H mod S =? 0)); [|contradiction].
    apply in_map_iff in Hin as (j' & E & Hj). injection E as <- <-. apply Ed in Hj. lia. }
  apply in_app_or in Hin as [Hin | Hin].
  { destruct (negb (W mod S =? 0)); [|contradiction].
    apply in_map_iff in Hin as (i' & E & Hi). injection E as <- <-. apply Ed in Hi. lia. }
  destruct (negb (H mod S =? 0) && negb (W mod S =? 0)); [|contradiction].
  destruct Hin as [E | []]. injection E as <- <-. lia.
Qed.

(** X7: when the tile is no larger than the image, every tile a scan
    processes lies inside the image, so no tile is padded by [crop]. *)
Theorem scan_tiles_inside_image (args : Args) (tiff : ndarray Q) (model : Model) (w : World) :
  answers model -> ready args w -> tiles_of (trace w) = [] ->
  0 < rolling_window args ->
  tile_size args <= nrows tiff -> tile_size args <= ncols tiff ->
  let run := tile_extraction_part args tiff model w in
  fst run = Ok tt
  /\ Forall (tile_inside (nrows tiff) (ncols tiff) (tile_size args)) (tiles_of (trace (snd run))).
Proof.
  intros Hmodel Hw Hfresh HS HH HW run.
  destruct (tile_extraction_part_schedule args tiff model Hmodel w ltac:(lia) Hw)
    as (w' & E & _ & Tr).
  unfold run. rewrite E. split; [reflexivity|]. cbn [snd].
  rewrite Tr, Hfresh. cbn [app]. now apply schedule_inside.
Qed.

Lemma scan_tiles_inside_image_witness :
  Forall (tile_inside 15 15 10) (tiles_of (trace (snd (blank_scan 15 15 10 10)))).
Proof.
  apply (scan_tiles_inside_image (args_with 10 10) (blank 15 15) no_detections prepared_world
           no_detections_answers (ready_prepared_world 10 10) eq_refl
           ltac:(reflexivity) ltac:(discriminate) ltac:(discriminate)).
Defined.

Lemma schedule_of_short_image (H W T S : Z) :
  0 < S -> H < T ->
  Forall (fun o => fst o = H - T) (schedule H W T S)
  /\ (H mod S = 0 -> schedule H W T S = []).
Proof.
  intros HS HT.
  assert (Sw : sweep_origins H T S = []).
  { unfold sweep_origins. destruct (py_range H S) as [|k l] eqn:E; [reflexivity|].
    assert (Hk : In k (py_range H S)) by (rewrite E; now left).
    apply In_py_range in Hk as [Hk _]; [|exact HS]. cbn [take_until].
    replace (k + T >? H) with true; [reflexivity|].
    symmetry. rewrite Z.gtb_ltb. apply Z.ltb_lt. lia. }
  assert (Ed : edge_origins H T S = []).
  { unfold edge_origins. destruct (py_range H S) as [|k l] eqn:E; [reflexivity|].
    assert (Hk : In k (py_range H S)) by (rewrite E; now left).
    apply In_py_range in Hk as [Hk _]; [|exact HS]. cbn [take_until].
    replace (k + T >=? H) with true; [reflexivity|].
    symmetry. rewrite Z.geb_leb. apply Z.leb_le. lia. }
  unfold schedule. rewrite Sw, Ed. cbn [flat_map map app]. split.
  - apply Forall_app. split.
    + destruct (negb (H mod S =? 0)); [|constructor].
      apply Forall_map, Forall_forall. reflexivity.
    + destruct (negb (W mod S =? 0)); cbn [app];
        destruct (negb (H mod S =? 0) && _); repeat constructor.
  - intro HH. apply Z.eqb_eq in HH. rewrite HH. cbn [negb andb app].
    destruct (negb (W mod S =? 0)); reflexivity.
Qed.

(** X8: when the image has fewer rows than the tile, the primary sweep and
    the last-columns pass process nothing; the only tiles processed are those
    of the last row and the corner, which start above the image at row
    [H - T < 0], and there is no tile at all when the stride divides the
    height. *)
Theorem scan_of_short_image (args : Args) (tiff : ndarray Q) (model : Model) (w : World) :
  answers model -> ready args w -> tiles_of (trace w) = [] ->
  0 < rolling_window args ->
  nrows tiff < tile_size args ->
  let run := tile_extraction_part args tiff model w in
  fst run = Ok tt
  /\ Forall (fun o => fst o = nrows tiff - tile_size args /\ fst o < 0) (tiles_of (trace (snd run)))
  /\ (nrows tiff mod rolling_window args = 0 -> tiles_of (trace (snd run)) = []).
Proof.
  intros Hmodel Hw Hfresh HS HT run.
  destruct (tile_extraction_part_schedule args tiff model Hmodel w ltac:(lia) Hw)
    as (w' & E & _ & Tr).
  unfold run. rewrite E. split; [reflexivity|]. cbn [snd].
  rewrite Tr, Hfresh. cbn [app].
  destruct (schedule_of_short_image (nrows tiff) (ncols tiff) (tile_size args)
              (rolling_window args) HS HT) as [A B].
  split; [|exact B].
  eapply Forall_impl; [|exact A]. cbv beta. intros o Ho. lia.
Qed.

Lemma scan_of_short_image_witness :
  Forall (fun o => fst o = -3 /\ fst o < 0) (tiles_of (trace (snd (blank_scan 5 20 8 2)))).
Proof.
  apply (scan_of_short_image (args_with 8 2) (blank 5 20) no_detections prepared_world
           no_detections_answers (ready_prepared_world 8 2) eq_refl
           ltac:(reflexivity) ltac:(reflexivity)).
Defined.

Lemma schedule_misses_bottom_right (H W T S : Z) :
  0 < S -> W mod S = 0 -> (H - T) mod S <> 0 ->
  covered T (schedule H W T S) (H - 1) (W - 1) = false.
Proof.
  intros HS HW HT. unfold covered, schedule.
  apply Z.eqb_eq in HW. rewrite HW; cbn [negb andb app].
  rewrite andb_false_r, app_nil_r, existsb_app.
  apply orb_false_iff. split.
  - apply not_true_is_false. intro Hex. apply existsb_exists in Hex as ((i, j) & Hin & Hcov).
    apply in_flat_map in Hin as (i' & Hi & Hj). apply in_map_iff in Hj as (j' & E & _).
    injection E as <- <-.
    apply In_take_until in Hi as [Hi Hstop]. apply In_py_range in Hi as [Hi Hmod]; [|exact HS].
    rewrite Z.gtb_ltb in Hstop. apply Z.ltb_ge in Hstop.
    unfold in_tile in Hcov; cbn [fst snd] in Hcov.
    apply andb_true_iff in Hcov as [Hcov _]. apply andb_true_iff in Hcov as [Hcov _].
    apply andb_true_iff in Hcov as [_ Hcov]. apply Z.ltb_lt in Hcov.
    assert (i' = H - T) by lia. subst i'. contradiction.
  - destruct (negb (H mod S =? 0)); [|reflexivity].
    apply not_true_is_false. intro Hex. apply existsb_exists in Hex as ((i, j) & Hin & Hcov).
    apply in_map_iff in Hin as (j' & E & Hj). injection E as <- <-.
    apply In_take_until in Hj as [_ Hstop]. rewrite Z.geb_leb in Hstop.
    apply Z.leb_gt in Hstop.
    unfold in_tile in Hcov; cbn [fst snd] in Hcov.
    apply andb_true_iff in Hcov as [_ Hcov]. apply Z.ltb_lt in Hcov. lia.
Qed.

(** X11: where the stride divides the width but not [H - T], the
    bottom-right pixel of the image lies in no tile the scan processes, even
    when the last-row pass runs: that pass breaks on [j + T >= W] and never
    reaches the last column, and the last-columns pass and the corner tile
    are switched off by [W mod S = 0]. *)
Theorem scan_misses_bottom_right (args : Args) (tiff : ndarray Q) (model : Model) (w : World) :
  answers model -> ready args w -> tiles_of (trace w) = [] ->
  0 < rolling_window args ->
  ncols tiff mod rolling_window args = 0 ->
  (nrows tiff - tile_size args) mod rolling_window args <> 0 ->
  let run := tile_extraction_part args tiff model w in
  fst run = Ok tt
  /\ covered (tile_size args) (tiles_of (trace (snd run))) (nrows tiff - 1) (ncols tiff - 1)
     = false.
Proof.
  intros Hmodel Hw Hfresh HS HW HT run.
  destruct (tile_extraction_part_schedule args tiff model Hmodel w ltac:(lia) Hw)
    as (w' & E & _ & Tr).
  unfold run. rewrite E. split; [reflexivity|]. cbn [snd].
  rewrite Tr, Hfresh. cbn [app]. now apply schedule_misses_bottom_right.
Qed.

Lemma scan_misses_bottom_right_witness :
  covered 2 (tiles_of (trace (snd (blank_scan 5 4 2 2)))) 4 3 = false.
Proof.
  apply (scan_misses_bottom_right (args_with 2 2) (blank 5 4) no_detections prepared_world
           no_detections_answers (ready_prepared_world 2 2) eq_refl
           ltac:(reflexivity) ltac:(reflexivity) ltac:(discriminate)).
Defined.

(** A 15 x 15 image, tile side 10, stride 10: pixel (14, 14) is covered. *)
Lemma scan_covers_image_witness :
  exists w',
    blank_scan 15 15 10 10 = (Ok tt, w')
    /\ covered 10 (tiles_of (trace w')) 14 14 = true.
Proof.
  destruct (scan_covers_image (args_with 10 10) (blank 15 15) no_detections prepared_world
              no_detections_answers (ready_prepared_world 10 10)
              ltac:(cbn; lia) ltac:(discriminate) ltac:(discriminate))
    as (w' & E & Hcov).
  exists w'. split; [exact E|]. apply Hcov; cbn; lia.
Defined.

(** A 20 x 20 image, tile side 15, stride 10: row 19 is not covered. *)
Lemma scan_misses_last_row_witness :
  exists w',
    blank_scan 20 20 15 10 = (Ok tt, w')
    /\ covered 15 (tiles_of (trace w')) 19 0 = false.
Proof.
  destruct (scan_misses_last_row (args_with 15 10) (blank 20 20) no_detections prepared_world
              no_detections_answers (ready_prepared_world 15 10) eq_refl
              ltac:(reflexivity) ltac:(reflexivity) ltac:(discriminate))
    as (w' & E & Hcov).
  exists w'. split; [exact E|]. apply (Hcov 0).
Defined.

(** A loop over ascending multiples of the stride that breaks beyond the
    multiple [q] visits the multiples up to [q]. *)
Lemma take_until_threshold (stop : Z -> bool) (S q : Z) :
  (forall k : nat, stop (Z.of_nat k * S) = (q <? Z.of_nat k)) ->
  forall m a,
    take_until stop (map (fun k => Z.of_nat k * S) (seq a m))
    = map (fun k => Z.of_nat k * S) (seq a (Nat.min m (Z.to_nat (q + 1) - a))).
Proof.
  intro Hstop. induction m as [|m IH]; intro a; [reflexivity|].
  cbn [seq map take_until]. rewrite Hstop.
  destruct (q <? Z.of_nat a) eqn:E.
  - apply Z.ltb_lt in E. replace (Z.to_nat (q + 1) - a)%nat with 0%nat by lia.
    rewrite Nat.min_0_r. reflexivity.
  - apply Z.ltb_ge in E. rewrite IH.
    replace (Nat.min (Datatypes.S m) (Z.to_nat (q + 1) - a))
      with (Datatypes.S (Nat.min m (Z.to_nat (q + 1) - Datatypes.S a))) by lia.
    reflexivity.
Qed.

Lemma length_sweep_origins (n T S : Z) :
  0 < S -> 0 < T <= n ->
  Z.of_nat (length (sweep_origins n T S)) = sweep_count n T S.
Proof.
  intros HS HT. unfold sweep_origins, sweep_count, py_range, range_len.
  apply Z.ltb_lt in HS as HS'. assert (Hn : (0 <? n) = true) by (apply Z.ltb_lt; lia).
  rewrite HS', Hn; cbn [andb].
  rewrite (take_until_threshold _ S ((n - T) / S)).
  - rewrite length_map, length_seq.
    assert (0 <= (n - T) / S) by (apply Z.div_pos; lia).
    assert ((n - T) / S <= (n - 1) / S) by (apply Z.div_le_mono; lia).
    lia.
  - intro k. rewrite Z.gtb_ltb.
    pose proof (Z.mul_div_le (n - T) S HS). pose proof (Z.mul_succ_div_gt (n - T) S HS).
    destruct (Z.ltb_spec ((n - T) / S) (Z.of_nat k)) as [Hk | Hk].
    + apply Z.ltb_lt. nia.
    + apply Z.ltb_ge. nia.
Qed.

Lemma length_edge_origins (n T S : Z) :
  0 < S -> 0 < T <= n ->
  Z.of_nat (length (edge_origins n T S)) = edge_count n T S.
Proof.
  intros HS HT. unfold edge_origins, edge_count, py_range, range_len.
  apply Z.ltb_lt in HS as HS'. assert (Hn : (0 <? n) = true) by (apply Z.ltb_lt; lia).
  rewrite HS', Hn; cbn [andb].
  rewrite (take_until_threshold _ S ((n - T - 1) / S)).
  - rewrite length_map, length_seq.
    assert (-1 <= (n - T - 1) / S) by (apply Z.div_le_lower_bound; lia).
    assert ((n - T - 1) / S <= (n - 1) / S) by (apply Z.div_le_mono; lia).
    lia.
  - intro k. rewrite Z.geb_leb.
    pose proof (Z.mul_div_le (n - T - 1) S HS).
    pose proof (Z.mul_succ_div_gt (n - T - 1) S HS).
    destruct (Z.ltb_spec ((n - T - 1) / S) (Z.of_nat k)) as [Hk | Hk].
    + apply Z.leb_le. nia.
    + apply Z.leb_gt. nia.
Qed.

Lemma length_flat_map_const {A B} (f : A -> list B) (l : list A) (n : nat) :
  (forall a, length (f a) = n) -> length (flat_map f l) = (length l * n)%nat.
Proof.
  intro Hf. induction l as [|a l IH]; cbn; [reflexivity|].
  rewrite length_app, Hf, IH. lia.
Qed.

Lemma length_schedule (H W T S : Z) :
  0 < S -> 0 < T <= H -> T <= W ->
  Z.of_nat (length (schedule H W T S)) = tile_count H W T S.
Proof.
  intros HS HH HW. unfold schedule, tile_count.
  rewrite !length_app, !Nat2Z.inj_add.
  rewrite (length_flat_map_const _ _ (length (sweep_origins W T S)))
    by (intro; apply length_map).
  rewrite Nat2Z.inj_mul, !length_sweep_origins by lia.
  destruct (negb (H mod S =? 0)), (negb (W mod S =? 0)); cbn [andb length];
    rewrite ?length_map, ?length_edge_origins by lia; cbn [length]; lia.
Qed.

(** X6: the number of tiles a scan processes, for a tile that fits the
    image: [((H - T) / S + 1) * ((W - T) / S + 1)] tiles in the primary sweep,
    and [(W - T - 1) / S + 1], [(H - T - 1) / S + 1] and 1 more for the edge
    passes that run. *)
Theorem scan_tile_count (args : Args) (tiff : ndarray Q) (model : Model) (w : World) :
  answers model -> ready args w -> tiles_of (trace w) = [] ->
  0 < rolling_window args ->
  0 < tile_size args <= nrows tiff -> tile_size args <= ncols tiff ->
  let run := tile_extraction_part args tiff model w in
  fst run = Ok tt
  /\ Z.of_nat (length (tiles_of (trace (snd run))))
     = tile_count (nrows tiff) (ncols tiff) (tile_size args) (rolling_window args).
Proof.
  intros Hmodel Hw Hfresh HS HH HW run.
  destruct (tile_extraction_part_schedule args tiff model Hmodel w ltac:(lia) Hw)
    as (w' & E & _ & Tr).
  unfold run. rewrite E. split; [reflexivity|]. cbn [snd].
  rewrite Tr, Hfresh. cbn [app]. now apply length_schedule.
Qed.

Lemma scan_tile_count_witness :
  Z.of_nat (length (tiles_of (trace (snd (blank_scan 260 260 128 10))))) = 196.
Proof.
  apply (scan_tile_count (args_with 128 10) (blank 260 260) no_detections prepared_world
           no_detections_answers (ready_prepared_world 128 10) eq_refl
           ltac:(reflexivity) ltac:(cbn; lia) ltac:(discriminate)).
Defined.

(** X25: with the default tile side 128 and stride 10 of [parse_args], the
    scan of any image whose height is a multiple of 10 processes no tile that
    reaches the last row of the image, whatever the width and the
    detector. *)
Theorem default_scan_misses_last_row (inp out : string) (tiff : ndarray Q) (model : Model)
  (w : World) :
  answers model -> ready (default_args inp out) w -> tiles_of (trace w) = [] ->
  nrows tiff mod 10 = 0 ->
  let run := tile_extraction_part (default_args inp out) tiff model w in
  fst run = Ok tt
  /\ forall c, covered 128 (tiles_of (trace (snd run))) (nrows tiff - 1) c = false.
Proof.
  intros Hmodel Hw Hfresh HH run.
  destruct (tile_extraction_part_schedule (default_args inp out) tiff model Hmodel w
              ltac:(discriminate) Hw) as (w' & E & _ & Tr).
  unfold run. rewrite E. split; [reflexivity|]. intro c. cbn [snd].
  rewrite Tr, Hfresh. cbn [app default_args tile_size rolling_window].
  apply schedule_misses_last_row; [lia | exact HH |].
  rewrite Zminus_mod, HH. discriminate.
Qed.

Lemma default_scan_misses_last_row_witness :
  covered 128 (tiles_of (trace (snd (blank_scan 260 260 128 10)))) 259 0 = false.
Proof.
  apply (default_scan_misses_last_row "in.tiff" "out" (blank 260 260) no_detections
           prepared_world no_detections_answers (ready_prepared_world 128 10) eq_refl eq_refl).
Defined.

(** ** What a scan keeps *)

Section ScanInvariant.
Variable args : Args.
Variable tiff : ndarray Q.
Variable model : Model.

(** A property of the counter and the world that the three ways through a
    tile keep: the model is called and fails; it is called and the tile's
    record is saved under the counter's name; it is called and nothing is
    saved, the filtered set being empty. *)
Variable P : Z -> World -> Prop.
Hypothesis P_call : forall c top left e w,
  tile_result args tiff model top left = Raise e ->
  P c w -> P c (snd (emit (EvModelCall top left) w)).
Hypothesis P_save : forall c top left res w,
  tile_result args tiff model top left = Ok res ->
  P c w ->
  P (c + 1) (snd (save_intermediate_step res (path_join (output args) "step1")
                    (py_str c ++ ".pkl") (snd (emit (EvModelCall top left) w)))).
Hypothesis P_skip : forall c top left res w,
  tile_result args tiff model top left = Ok res ->
  res_boxes res = [] ->
  P c w -> P (c + 1) (snd (emit (EvModelCall top left) w)).

Lemma extract_tile_keeps (top left c : Z) (w : World) :
  P c w ->
  let run := extract_tile_run_model_save args tiff model top left c w in
  match fst run with
  | Ok _ => P (c + 1) (snd run)
  | Raise _ => exists c', P c' (snd run)
  end.
Proof.
  intros Hw run. unfold run, extract_tile_run_model_save, run_tile, bindM, lift.
  change (emit (EvModelCall top left) w)
    with (Ok tt, snd (emit (EvModelCall top left) w)).
  cbv iota beta.
  destruct (tile_result args tiff model top left) as [res|e] eqn:E;
    [|cbn [fst snd]; exists c; exact (P_call c top left e w E Hw)].
  destruct (res_boxes res) as [|b bs] eqn:Eb; cbn [length Nat.eqb negb].
  - cbn [ret fst snd]. apply (P_skip c top left res w E Eb Hw).
  - pose proof (P_save c top left res w E Hw) as H2.
    destruct (save_intermediate_step res _ _ _) as [[[]|e] w2]; cbn [fst snd] in *; eauto.
Qed.

Lemma edge_tile_keeps (top left c : Z) (w : World) :
  P c w ->
  let run := edge_tile args tiff model top left c w in
  match fst run with
  | Ok _ => P (c + 1) (snd run)
  | Raise _ => exists c', P c' (snd run)
  end.
Proof.
  intros Hw run. unfold run, edge_tile, run_tile, bindM, lift.
  change (emit (EvModelCall top left) w)
    with (Ok tt, snd (emit (EvModelCall top left) w)).
  cbv iota beta.
  destruct (tile_result args tiff model top left) as [res|e] eqn:E;
    [|cbn [fst snd]; exists c; exact (P_call c top left e w E Hw)].
  pose proof (P_save c top left res w E Hw) as H2.
  destruct (save_intermediate_step res _ _ _) as [[[]|e] w2]; cbn [fst snd] in *; eauto.
Qed.

Lemma sweep_row_keeps (i : Z) (js : list Z) :
  forall c w, P c w ->
  let run := sweep_row args tiff model i js c w in
  match fst run with
  | Ok c' => P c' (snd run)
  | Raise _ => exists c', P c' (snd run)
  end.
Proof.
  induction js as [|j js IH]; intros c w Hw; cbn; [exact Hw|].
  destruct (j + tile_size args >? ncols tiff); [exact Hw|].
  unfold bindM. pose proof (extract_tile_keeps i j c w Hw) as H1. cbv zeta in H1.
  destruct (extract_tile_run_model_save args tiff model i j c w) as [[[]|e] w1];
    cbn [fst snd] in *; [|exact H1].
  apply IH, H1.
Qed.

Lemma sweep_rows_keeps (rows : list Z) :
  forall c w, P c w ->
  let run := sweep_rows args tiff model rows c w in
  match fst run with
  | Ok c' => P c' (snd run)
  | Raise _ => exists c', P c' (snd run)
  end.
Proof.
  induction rows as [|i rows IH]; intros c w Hw; cbn; [exact Hw|].
  destruct (i + tile_size args >? nrows tiff); [exact Hw|].
  unfold bindM.
  pose proof (sweep_row_keeps i (py_range (ncols tiff) (rolling_window args)) c w Hw) as H1.
  cbv zeta in H1.
  destruct (sweep_row args tiff model i _ c w) as [[c1|e] w1]; cbn [fst snd] in *; [|exact H1].
  apply IH, H1.
Qed.

Lemma last_row_keeps (js : list Z) :
  forall c w, P c w ->
  let run := last_row args tiff model js c w in
  match fst run with
  | Ok c' => P c' (snd run)
  | Raise _ => exists c', P c' (snd run)
  end.
Proof.
  induction js as [|j js IH]; intros c w Hw; cbn; [exact Hw|].
  destruct (j + tile_size args >=? ncols tiff); [exact Hw|].
  unfold bindM.
  pose proof (edge_tile_keeps (nrows tiff - tile_size args) j c w Hw) as H1. cbv zeta in H1.
  destruct (edge_tile args tiff model _ j c w) as [[[]|e] w1]; cbn [fst snd] in *; [|exact H1].
  apply IH, H1.
Qed.

Lemma last_columns_keeps (rows : list Z) :
  forall c w, P c w ->
  let run := last_columns args tiff model rows c w in
  match fst run with
  | Ok c' => P c' (snd run)
  | Raise _ => exists c', P c' (snd run)
  end.
Proof.
  induction rows as [|i rows IH]; intros c w Hw; cbn; [exact Hw|].
  destruct (i + tile_size args >=? nrows tiff); [exact Hw|].
  unfold bindM.
  pose proof (edge_tile_keeps i (ncols tiff - tile_size args) c w Hw) as H1. cbv zeta in H1.
  destruct (edge_tile args tiff model i _ c w) as [[[]|e] w1]; cbn [fst snd] in *; [|exact H1].
  apply IH, H1.
Qed.

(** Whatever the outcome of the scan, the property holds of the world it
    leaves, for some value of the counter. *)
Lemma tile_extraction_part_keeps (w : World) :
  P 0 w -> exists c, P c (snd (tile_extraction_part args tiff model w)).
Proof.
  intro Hw. unfold tile_extraction_part.
  destruct (rolling_window args =? 0); [cbn; eauto|].
  unfold bindM.
  pose proof (sweep_rows_keeps (py_range (nrows tiff) (rolling_window args)) 0 w Hw) as H1.
  cbv zeta in H1.
  destruct (sweep_rows args tiff model _ 0 w) as [[c1|e] w1]; cbn [fst snd] in *; [|exact H1].
  assert (H2 : let run := (if negb (nrows tiff mod rolling_window args =? 0)
                           then last_row args tiff model
                                  (py_range (ncols tiff) (rolling_window args)) c1
                           else ret c1) w1 in
               match fst run with
               | Ok c' => P c' (snd run)
               | Raise _ => exists c', P c' (snd run)
               end).
  { destruct (negb (nrows tiff mod rolling_window args =? 0)); [|exact H1].
    now apply last_row_keeps. }
  cbv zeta in H2.
  match type of H2 with
  | context [fst ?r] => destruct r as [[c2|e] w2]; cbn [fst snd] in *; [|exact H2]
  end.
  assert (H3 : let run := (if negb (ncols tiff mod rolling_window args =? 0)
                           then last_columns args tiff model
                                  (py_range (nrows tiff) (rolling_window args)) c2
                           else ret c2) w2 in
               match fst run with
               | Ok c' => P c' (snd run)
               | Raise _ => exists c', P c' (snd run)
               end).
  { destruct (negb (ncols tiff mod rolling_window args =? 0)); [|exact H2].
    now apply last_columns_keeps. }
  cbv zeta in H3.
  match type of H3 with
  | context [fst ?r] => destruct r as [[c3|e] w3]; cbn [fst snd] in *; [|exact H3]
  end.
  destruct (negb (nrows tiff mod rolling_window args =? 0)
            && negb (ncols tiff mod rolling_window args =? 0)); [|cbn; eauto].
  pose proof (edge_tile_keeps (nrows tiff - tile_size args) (ncols tiff - tile_size args)
                c3 w3 H3) as H4.
  cbv zeta in H4.
  destruct (edge_tile args tiff model _ _ c3 w3) as [[[]|e] w4]; cbn [fst snd] in *; eauto.
Qed.

End ScanInvariant.

(** ** Checkpoint names *)

Lemma to_int_proper (z : Z) :
  Z.to_int z <> Decimal.Pos Decimal.Nil /\ Z.to_int z <> Decimal.Neg Decimal.Nil.
Proof.
  destruct z as [|p|p]; cbn; split; try discriminate;
    intro E; injection E as E; now apply (DecimalPos.Unsigned.to_uint_nonnil p).
Qed.

Lemma py_str_inj (a b : Z) : py_str a = py_str b -> a = b.
Proof.
  unfold py_str. intro E. apply DecimalZ.to_int_inj.
  destruct (to_int_proper a) as [A1 A2]. destruct (to_int_proper b) as [B1 B2].
  pose proof (NilZero.isi _ A1 A2) as Ia. pose proof (NilZero.isi _ B1 B2) as Ib.
  rewrite E in Ia. congruence.
Qed.

Lemma string_append_assoc (a b c : string) : ((a ++ b) ++ c = a ++ b ++ c)%string.
Proof. induction a as [|x a IH]; cbn; [reflexivity | now rewrite IH]. Qed.

Lemma string_length_append (a b : string) :
  String.length (a ++ b) = (String.length a + String.length b)%nat.
Proof. induction a as [|x a IH]; cbn; [reflexivity | now rewrite IH]. Qed.

Lemma string_append_cancel_l (p s s' : string) : (p ++ s = p ++ s')%string -> s = s'.
Proof. induction p as [|x p IH]; cbn; [auto|]. intro E. injection E as E. auto. Qed.

Lemma string_append_cancel_r (t s s' : string) : (s ++ t = s' ++ t)%string -> s = s'.
Proof.
  revert s'. induction s as [|x s IH]; intros [|y s'] E; cbn in E.
  - reflexivity.
  - exfalso. apply (f_equal String.length) in E. cbn in E. rewrite string_length_append in E. lia.
  - exfalso. apply (f_equal String.length) in E. cbn in E. rewrite string_length_append in E. lia.
  - injection E as -> E. f_equal. auto.
Qed.

Lemma checkpoint_name_inj (a b : Z) : checkpoint_name a = checkpoint_name b -> a = b.
Proof. unfold checkpoint_name. intro E. apply string_append_cancel_r in E. now apply py_str_inj. Qed.

(** A checkpoint name is a relative path: it starts with a digit or a sign. *)
Lemma checkpoint_name_relative (c : Z) :
  exists x s, checkpoint_name c = String x s /\ x <> "/"%char.
Proof.
  unfold checkpoint_name, py_str.
  destruct (Z.to_int c) as [d|d]; cbn.
  - destruct d; cbn; eexists; eexists; (split; [reflexivity | discriminate]).
  - eexists; eexists; (split; [reflexivity | discriminate]).
Qed.

Lemma path_join_relative (a : string) (x : ascii) (s : string) :
  x <> "/"%char -> path_join a (String x s) = (join_prefix a ++ String x s)%string.
Proof.
  intro Hx. unfold path_join, join_prefix.
  assert (E : forall T (u v : T),
             match x with "/"%char => u | _ => v end = v).
  { intros T u v.
    destruct x as [[] [] [] [] [] [] [] []]; try reflexivity. now destruct Hx. }
  rewrite E.
  destruct (last_char a) as [y|]; [|reflexivity].
  destruct y as [[] [] [] [] [] [] [] []]; try reflexivity; now rewrite string_append_assoc.
Qed.

Lemma checkpoint_path_inj (dir : string) (a b : Z) :
  path_join dir (checkpoint_name a) = path_join dir (checkpoint_name b) -> a = b.
Proof.
  destruct (checkpoint_name_relative a) as (x & s & Ea & Hx).
  destruct (checkpoint_name_relative b) as (y & t & Eb & Hy).
  intro E. apply checkpoint_name_inj. rewrite Ea, Eb in *.
  rewrite !path_join_relative in E by assumption. now apply string_append_cancel_l in E.
Qed.

Lemma saves_of_app (tr tr' : list event) : saves_of (tr ++ tr') = saves_of tr ++ saves_of tr'.
Proof. unfold saves_of. apply flat_map_app. Qed.

Lemma StronglySorted_snoc (ks : list Z) (c : Z) :
  StronglySorted Z.lt ks -> Forall (fun k => k < c) ks -> StronglySorted Z.lt (ks ++ [c]).
Proof.
  induction 1 as [|k ks Hs IH Hk]; intro Hc; cbn.
  - repeat constructor.
  - inversion Hc as [|? ? Hkc Hc']; subst. constructor; [auto|].
    apply Forall_app. split; [exact Hk | repeat constructor; exact Hkc].
Qed.

Lemma StronglySorted_lt_NoDup (ks : list Z) : StronglySorted Z.lt ks -> NoDup ks.
Proof.
  induction 1 as [|k ks Hs IH Hk]; constructor; [|exact IH].
  intro Hin. rewrite Forall_forall in Hk. specialize (Hk k Hin). lia.
Qed.

Lemma NoDup_map_inj {A B} (f : A -> B) (l : list A) :
  (forall x y, f x = f y -> x = y) -> NoDup l -> NoDup (map f l).
Proof.
  intros Hf. induction 1 as [|x l Hx Hl IH]; cbn; constructor; [|exact IH].
  intro Hin. apply in_map_iff in Hin as (y & E & Hy). apply Hf in E. now subst y.
Qed.

(** X12: whatever the detector does and whatever the outcome, the paths a
    scan saves records to are pairwise distinct, and they are the checkpoint
    names [<output>/step1/<k>.pkl] of counters [0 <= k] in ascending order:
    within one scan no record overwrites another. *)
Theorem scan_saves_under_distinct_names (args : Args) (tiff : ndarray Q) (model : Model)
  (w : World) :
  let run := tile_extraction_part args tiff model w in
  exists saved,
    saves_of (trace (snd run)) = saves_of (trace w) ++ saved
    /\ NoDup saved
    /\ exists c, saved_under (path_join (output args) "step1") c saved.
Proof.
  intro run.
  set (dir := path_join (output args) "step1").
  set (P := fun (c : Z) (w' : World) =>
              0 <= c /\ exists saved, saves_of (trace w') = saves_of (trace w) ++ saved
                            /\ saved_under dir c saved).
  assert (H : exists c, P c (snd run)).
  { apply (tile_extraction_part_keeps args tiff model P).
    - intros c i j e w' _ (Hc & saved & E & Hs). split; [exact Hc|]. exists saved.
      split; [|exact Hs]. cbn. rewrite saves_of_app, E. cbn. now rewrite app_nil_r.
    - intros c top left res w' _ (Hc & saved & E & (ks & Eks & Hsorted & Hks)).
      split; [lia|].
      exists (saved ++ [path_join dir (checkpoint_name c)]). split.
      + unfold save_intermediate_step, emit; cbn [snd dirs written trace].
        destruct (lookup _ (dirs w')); cbn [snd trace];
          rewrite !saves_of_app, E; cbn; rewrite app_nil_r, <- app_assoc; reflexivity.
      + exists (ks ++ [c]). split; [|split].
        * rewrite map_app, Eks. reflexivity.
        * apply StronglySorted_snoc; [exact Hsorted|].
          eapply Forall_impl; [|exact Hks]. cbv beta. lia.
        * apply Forall_app. split.
          -- eapply Forall_impl; [|exact Hks]. cbv beta. lia.
          -- repeat constructor; lia.
    - intros c top left res w' _ _ (Hc & saved & E & (ks & Eks & Hsorted & Hks)).
      split; [lia|]. exists saved. split.
      + cbn. rewrite saves_of_app, E. cbn. now rewrite app_nil_r.
      + exists ks. split; [exact Eks|]. split; [exact Hsorted|].
        eapply Forall_impl; [|exact Hks]. cbv beta. lia.
    - split; [lia|]. exists []. split; [now rewrite app_nil_r|].
      exists []. repeat constructor. }
  destruct H as (c & _ & saved & E & Hs). exists saved. split; [exact E|].
  split; [|exists c; exact Hs].
  destruct Hs as (ks & -> & Hsorted & _).
  apply NoDup_map_inj; [apply checkpoint_path_inj | now apply StronglySorted_lt_NoDup].
Qed.

(** ** The checkpoint directory during a scan *)

Lemma lookup_place_present {V} (pos : nat) (k k' : string) (v : V) (l : list (string * V)) :
  lookup k l <> None -> lookup k (place pos k' v l) <> None.
Proof.
  intro H. destruct (String.eqb_spec k k') as [->|Hk].
  - rewrite lookup_place_same. discriminate.
  - now rewrite lookup_place_other.
Qed.

(** X13: a scan only adds to the checkpoint directory.  Every file that was
    in [<output>/step1] before the scan is still there after it, whatever the
    outcome, and a file whose name is not a checkpoint name [<k>.pkl] keeps
    its content: records of an earlier run are never removed, and
    [load_all_steps] will read them again. *)
Theorem scan_keeps_old_checkpoints (args : Args) (tiff : ndarray Q) (model : Model)
  (w : World) (entries : list (string * Pickled)) :
  lookup (path_join (output args) "step1") (dirs w) = Some entries ->
  let run := tile_extraction_part args tiff model w in
  exists entries',
    lookup (path_join (output args) "step1") (dirs (snd run)) = Some entries'
    /\ (forall name, lookup name entries <> None -> lookup name entries' <> None)
    /\ (forall name, (forall k, name <> checkpoint_name k) ->
                     lookup name entries' = lookup name entries).
Proof.
  intros Hdir run.
  set (dir := path_join (output args) "step1") in *.
  set (P := fun (_ : Z) (w' : World) =>
              exists entries',
                lookup dir (dirs w') = Some entries'
                /\ (forall name, lookup name entries <> None -> lookup name entries' <> None)
                /\ (forall name, (forall k, name <> checkpoint_name k) ->
                                 lookup name entries' = lookup name entries)).
  assert (H : exists c, P c (snd run)).
  { apply (tile_extraction_part_keeps args tiff model P).
    - intros c i j e w' _ H. exact H.
    - intros c top left res w' _ (entries' & E & Hkeep & Hsame).
      unfold P, save_intermediate_step, emit; cbn [snd dirs written trace].
      fold dir. rewrite E. cbn [snd dirs].
      eexists. split; [apply lookup_put_same|]. unfold listing_after. split.
      + intros name Hname. apply lookup_place_present. auto.
      + intros name Hname. rewrite lookup_place_other by apply Hname. auto.
    - intros c top left res w' _ _ H. exact H.
    - exists entries. repeat split; auto. }
  destruct H as [c Hc]. exact Hc.
Qed.

Lemma scan_keeps_old_checkpoints_witness :
  exists entries',
    lookup "out/step1"
      (dirs (snd (tile_extraction_part (args_with 10 10) (blank 15 15) no_detections
                    two_record_world)))
    = Some entries'
    /\ lookup "7.pkl" entries' <> None.
Proof.
  destruct (scan_keeps_old_checkpoints (args_with 10 10) (blank 15 15) no_detections
              two_record_world _ eq_refl) as (entries' & E & Hkeep & _).
  exists entries'. split; [exact E|]. apply Hkeep. cbn. discriminate.
Defined.

(** X14: a scan writes no label image and changes no directory other than
    [<output>/step1], whatever the detector does and whatever the outcome. *)
Theorem scan_touches_only_step1 (args : Args) (tiff : ndarray Q) (model : Model) (w : World) :
  let run := tile_extraction_part args tiff model w in
  written (snd run) = written w
  /\ forall dir, dir <> path_join (output args) "step1" ->
                 lookup dir (dirs (snd run)) = lookup dir (dirs w).
Proof.
  intro run.
  set (P := fun (_ : Z) (w' : World) =>
              written w' = written w
              /\ forall dir, dir <> path_join (output args) "step1" ->
                             lookup dir (dirs w') = lookup dir (dirs w)).
  assert (H : exists c, P c (snd run)).
  { apply (tile_extraction_part_keeps args tiff model P).
    - intros c i j e w' _ H. exact H.
    - intros c top left res w' _ (Hw & Hd).
      unfold P, save_intermediate_step, emit; cbn [snd dirs written trace].
      destruct (lookup (path_join (output args) "step1") (dirs w')); cbn [snd dirs written].
      + split; [exact Hw|]. intros dir Hdir. rewrite lookup_put_other by exact Hdir. auto.
      + split; [exact Hw | exact Hd].
    - intros c top left res w' _ _ H. exact H.
    - split; [reflexivity | auto]. }
  destruct H as [c Hc]. exact Hc.
Qed.

(** X15: for the same tile and counter, [extract_tile_run_model_save] (the
    primary sweep) and the code of the edge passes do the same when the
    filtered set is not empty; when it is empty the former leaves the
    checkpoint directory as it is and the latter writes the record of the
    empty set. *)
Theorem primary_and_edge_tiles_differ_on_empty (args : Args) (tiff : ndarray Q)
  (model : Model) (top left counter : Z) (w : World) (res : Res)
  (entries : list (string * Pickled)) :
  tile_result args tiff model top left = Ok res ->
  lookup (path_join (output args) "step1") (dirs w) = Some entries ->
  let primary := extract_tile_run_model_save args tiff model top left counter w in
  let edge := edge_tile args tiff model top left counter w in
  fst primary = Ok tt /\ fst edge = Ok tt
  /\ (res_boxes res <> [] -> primary = edge)
  /\ (res_boxes res = [] ->
      dirs (snd primary) = dirs w
      /\ lookup (path_join (output args) "step1") (dirs (snd edge))
         = Some (listing_after (slot w) (path_join (output args) "step1")
                   (py_str counter ++ ".pkl")%string (pickle_dump res) entries)).
Proof.
  intros E Hdir primary edge.
  unfold primary, edge, extract_tile_run_model_save, edge_tile, run_tile, bindM, emit, lift.
  rewrite E. unfold save_intermediate_step, ret.
  destruct (res_boxes res) as [|b bs] eqn:Eb;
    cbn [length Nat.eqb negb dirs written trace]; rewrite !Hdir; cbn [fst snd dirs].
  - split; [reflexivity|]. split; [reflexivity|]. split; [congruence|].
    intros _. split; [reflexivity | apply lookup_put_same].
  - split; [reflexivity|]. split; [reflexivity|]. split; [reflexivity | discriminate].
Qed.

Lemma primary_and_edge_tiles_differ_on_empty_witness :
  dirs (snd (extract_tile_run_model_save (args_with 10 10) (blank 15 15) no_detections 0 0 0
               prepared_world))
  = dirs prepared_world
  /\ lookup "out/step1"
       (dirs (snd (edge_tile (args_with 10 10) (blank 15 15) no_detections 0 0 0
                     prepared_world)))
     = Some [("0.pkl"%string, pickle_dump (mkRes [] [] []))].
Proof.
  apply (primary_and_edge_tiles_differ_on_empty (args_with 10 10) (blank 15 15) no_detections
           0 0 0 prepared_world (mkRes [] [] []) [] eq_refl eq_refl).
  reflexivity.
Defined.

(** ** A second scan *)

Section ScanAsOneLoop.
Variable args : Args.
Variable tiff : ndarray Q.
Variable model : Model.

Lemma run_tiles_app (l m : list (bool * (Z * Z))) :
  forall c w,
    run_tiles args tiff model (l ++ m) c w
    = (c' <~ run_tiles args tiff model l c ;; run_tiles args tiff model m c') w.
Proof.
  induction l as [|[primary [i j]] l IH]; intros c w; [reflexivity|].
  cbn [app run_tiles]. unfold bindM.
  destruct ((if primary then extract_tile_run_model_save args tiff model i j c
             else edge_tile args tiff model i j c) w) as [[[]|e] w1]; [|reflexivity].
  rewrite IH. reflexivity.
Qed.

Lemma sweep_row_run (i : Z) (js : list Z) :
  forall c w,
    sweep_row args tiff model i js c w
    = run_tiles args tiff model
        (map (fun j => (true, (i, j)))
             (take_until (fun j => j + tile_size args >? ncols tiff) js)) c w.
Proof.
  induction js as [|j js IH]; intros c w; [reflexivity|].
  cbn [sweep_row take_until]. destruct (j + tile_size args >? ncols tiff); [reflexivity|].
  cbn [map run_tiles]. unfold bindM.
  destruct (extract_tile_run_model_save args tiff model i j c w) as [[[]|e] w1];
    [apply IH | reflexivity].
Qed.

Lemma sweep_rows_run (rows : list Z) :
  forall c w,
    sweep_rows args tiff model rows c w
    = run_tiles args tiff model
        (map (pair true)
             (flat_map (fun i => map (fun j => (i, j))
                                     (sweep_origins (ncols tiff) (tile_size args)
                                                    (rolling_window args)))
                       (take_until (fun i => i + tile_size args >? nrows tiff) rows))) c w.
Proof.
  induction rows as [|i rows IH]; intros c w; [reflexivity|].
  cbn [sweep_rows take_until]. destruct (i + tile_size args >? nrows tiff); [reflexivity|].
  cbn [flat_map]. rewrite map_app, run_tiles_app, map_map. unfold bindM.
  rewrite sweep_row_run. unfold sweep_origins.
  destruct (run_tiles args tiff model _ c w) as [[c1|e] w1]; [apply IH | reflexivity].
Qed.

Lemma last_row_run (js : list Z) :
  forall c w,
    last_row args tiff model js c w
    = run_tiles args tiff model
        (map (pair false)
             (map (fun j => (nrows tiff - tile_size args, j))
                  (take_until (fun j => j + tile_size args >=? ncols tiff) js))) c w.
Proof.
  induction js as [|j js IH]; intros c w; [reflexivity|].
  cbn [last_row take_until]. destruct (j + tile_size args >=? ncols tiff); [reflexivity|].
  cbn [map run_tiles]. unfold bindM.
  destruct (edge_tile args tiff model _ j c w) as [[[]|e] w1]; [apply IH | reflexivity].
Qed.

Lemma last_columns_run (rows : list Z) :
  forall c w,
    last_columns args tiff model rows c w
    = run_tiles args tiff model
        (map (pair false)
             (map (fun i => (i, ncols tiff - tile_size args))
                  (take_until (fun i => i + tile_size args >=? nrows tiff) rows))) c w.
Proof.
  induction rows as [|i rows IH]; intros c w; [reflexivity|].
  cbn [last_columns take_until]. destruct (i + tile_size args >=? nrows tiff); [reflexivity|].
  cbn [map run_tiles]. unfold bindM.
  destruct (edge_tile args tiff model i _ c w) as [[[]|e] w1]; [apply IH | reflexivity].
Qed.

(** The four loops of the scan are one loop over the tiles of the schedule. *)
Lemma tile_extraction_part_run (w : World) :
  rolling_window args <> 0 ->
  tile_extraction_part args tiff model w
  = (_ <~ run_tiles args tiff model
            (tagged_schedule (nrows tiff) (ncols tiff) (tile_size args) (rolling_window args))
            0 ;;
     ret tt) w.
Proof.
  intro HS. unfold tile_extraction_part, tagged_schedule.
  apply Z.eqb_neq in HS. rewrite HS.
  unfold bindM. rewrite run_tiles_app. unfold bindM. rewrite sweep_rows_run.
  fold (sweep_origins (nrows tiff) (tile_size args) (rolling_window args)).
  destruct (run_tiles args tiff model _ 0 w) as [[c1|e] w1]; [|reflexivity].
  rewrite run_tiles_app. unfold bindM.
  assert (E2 : (if negb (nrows tiff mod rolling_window args =? 0)
                then last_row args tiff model (py_range (ncols tiff) (rolling_window args)) c1
                else ret c1) w1
               = run_tiles args tiff model
                   (map (pair false)
                        (if negb (nrows tiff mod rolling_window args =? 0)
                         then map (fun j => (nrows tiff - tile_size args, j))
                                  (edge_origins (ncols tiff) (tile_size args)
                                                (rolling_window args))
                         else [])) c1 w1).
  { destruct (negb (nrows tiff mod rolling_window args =? 0)); [apply last_row_run|reflexivity]. }
  rewrite E2.
  destruct (run_tiles args tiff model _ c1 w1) as [[c2|e] w2]; [|reflexivity].
  rewrite run_tiles_app. unfold bindM.
  assert (E3 : (if negb (ncols tiff mod rolling_window args =? 0)
                then last_columns args tiff model
                       (py_range (nrows tiff) (rolling_window args)) c2
                else ret c2) w2
               = run_tiles args tiff model
                   (map (pair false)
                        (if negb (ncols tiff mod rolling_window args =? 0)
                         then map (fun i => (i, ncols tiff - tile_size args))
                                  (edge_origins (nrows tiff) (tile_size args)
                                                (rolling_window args))
                         else [])) c2 w2).
  { destruct (negb (ncols tiff mod rolling_window args =? 0));
      [apply last_columns_run|reflexivity]. }
  rewrite E3.
  destruct (run_tiles args tiff model _ c2 w2) as [[c3|e] w3]; [|reflexivity].
  destruct (negb (nrows tiff mod rolling_window args =? 0)
            && negb (ncols tiff mod rolling_window args =? 0)); [|reflexivity].
  cbn [map run_tiles]. unfold bindM.
  destruct (edge_tile args tiff model _ _ c3 w3) as [[[]|e] w4]; reflexivity.
Qed.

End ScanAsOneLoop.

Section ScanTwice.
Variable args : Args.
Variable tiff : ndarray Q.
Variable model : Model.
Hypothesis model_answers : answers model.

(** What one tile of the loop does to the checkpoint directory. *)
Lemma tile_step (primary : bool) (i j c : Z) (w : World) (entries : list (string * Pickled)) :
  lookup (path_join (output args) "step1") (dirs w) = Some entries ->
  exists res w1,
    tile_result args tiff model i j = Ok res
    /\ (if primary then extract_tile_run_model_save args tiff model i j c
        else edge_tile args tiff model i j c) w = (Ok tt, w1)
    /\ dirs w1
       = (if saves primary res
          then put (path_join (output args) "step1")
                   (listing_after (slot w) (path_join (output args) "step1")
                      (checkpoint_name c) (pickle_dump res) entries) (dirs w)
          else dirs w).
Proof.
  intro Hdir. destruct (tile_result_total args tiff model model_answers i j) as [res E].
  exists res. unfold saves. destruct primary; cbn [negb orb].
  - destruct (primary_tile_saves_iff_nonempty args tiff model i j c w res entries E Hdir)
      as (R & D & _).
    destruct (extract_tile_run_model_save args tiff model i j c w) as [r w1].
    cbn [fst snd] in *. subst r. exists w1. split; [exact E|]. split; [reflexivity|].
    rewrite D. now destruct (length (res_boxes res) =? 0)%nat.
  - destruct (edge_tile_always_saves args tiff model i j c w res entries E Hdir) as (R & D & _).
    destruct (edge_tile args tiff model i j c w) as [r w1].
    cbn [fst snd] in *. subst r. exists w1. split; [exact E|]. split; [reflexivity | exact D].
Qed.

(** A first pass over the tiles leaves the record of every tile that saves
    one under the tile's counter, and touches no other file. *)
Lemma run_tiles_first (tiles : list (bool * (Z * Z))) :
  forall c w entries,
    lookup (path_join (output args) "step1") (dirs w) = Some entries ->
    exists c' w' entries',
      run_tiles args tiff model tiles c w = (Ok c', w')
      /\ lookup (path_join (output args) "step1") (dirs w') = Some entries'
      /\ (forall name,
            (forall k, (k < length tiles)%nat -> name <> checkpoint_name (c + Z.of_nat k)) ->
            lookup name entries' = lookup name entries)
      /\ (forall k primary i j res,
            nth_error tiles k = Some (primary, (i, j)) ->
            tile_result args tiff model i j = Ok res ->
            saves primary res = true ->
            lookup (checkpoint_name (c + Z.of_nat k)) entries' = Some (pickle_dump res)).
Proof.
  induction tiles as [|[primary [i j]] tiles IH]; intros c w entries Hdir.
  - exists c, w, entries. split; [reflexivity|]. split; [exact Hdir|]. split; [reflexivity|].
    intros [|k]; discriminate.
  - destruct (tile_step primary i j c w entries Hdir) as (res & w1 & E & Estep & D).
    set (entries1 := if saves primary res
                     then place (slot w (path_join (output args) "step1") (checkpoint_name c)
                                   (map fst entries))
                                (checkpoint_name c) (pickle_dump res) entries
                     else entries).
    assert (Hdir1 : lookup (path_join (output args) "step1") (dirs w1) = Some entries1).
    { rewrite D. unfold entries1. destruct (saves primary res); [apply lookup_put_same|exact Hdir]. }
    destruct (IH (c + 1) w1 entries1 Hdir1) as (c' & w' & entries' & Erun & Hdir' & Hframe & Hsaved).
    exists c', w', entries'. split.
    { cbn [run_tiles]. unfold bindM. rewrite Estep. exact Erun. }
    split; [exact Hdir'|]. split.
    + intros name Hname. rewrite Hframe.
      * unfold entries1. destruct (saves primary res); [|reflexivity].
        apply lookup_place_other. specialize (Hname 0%nat ltac:(cbn; lia)).
        now rewrite Z.add_0_r in Hname.
      * intros k Hk. specialize (Hname (S k) ltac:(cbn; lia)).
        now replace (c + 1 + Z.of_nat k) with (c + Z.of_nat (S k)) by lia.
    + intros [|k] primary' i' j' res' Hnth Hres Hsaves; cbn [nth_error] in Hnth.
      * injection Hnth as <- <- <-. assert (res' = res) by congruence. subst res'.
        rewrite Z.add_0_r, Hframe.
        -- unfold entries1. rewrite Hsaves. apply lookup_place_same.
        -- intros k _ Eq. apply checkpoint_name_inj in Eq. lia.
      * replace (c + Z.of_nat (S k)) with (c + 1 + Z.of_nat k) by lia.
        now apply (Hsaved k primary' i' j' res').
Qed.

(** A pass over tiles whose records are in the directory already leaves the
    directories as they are. *)
Lemma run_tiles_again (tiles : list (bool * (Z * Z))) :
  forall c w entries,
    lookup (path_join (output args) "step1") (dirs w) = Some entries ->
    (forall k primary i j res,
        nth_error tiles k = Some (primary, (i, j)) ->
        tile_result args tiff model i j = Ok res ->
        saves primary res = true ->
        lookup (checkpoint_name (c + Z.of_nat k)) entries = Some (pickle_dump res)) ->
    exists c' w', run_tiles args tiff model tiles c w = (Ok c', w') /\ dirs w' = dirs w.
Proof.
  induction tiles as [|[primary [i j]] tiles IH]; intros c w entries Hdir Hsaved.
  - exists c, w. split; reflexivity.
  - destruct (tile_step primary i j c w entries Hdir) as (res & w1 & E & Estep & D).
    assert (D1 : dirs w1 = dirs w).
    { rewrite D. destruct (saves primary res) eqn:Hs; [|reflexivity].
      pose proof (Hsaved 0%nat primary i j res eq_refl E Hs) as H0.
      rewrite Z.add_0_r in H0. unfold listing_after.
      rewrite (place_same _ _ _ _ H0). now apply put_same. }
    destruct (IH (c + 1) w1 entries) as (c' & w' & Erun & D').
    { now rewrite D1. }
    { intros k primary' i' j' res' Hnth Hres Hs.
      replace (c + 1 + Z.of_nat k) with (c + Z.of_nat (S k)) by lia.
      now apply (Hsaved (S k) primary' i' j' res'). }
    exists c', w'. split; [|congruence].
    cbn [run_tiles]. unfold bindM. rewrite Estep. exact Erun.
Qed.

(** X26: a scan is idempotent on the checkpoint directory.  With a detector
    that answers, a second scan of the same image from the world the first
    scan left succeeds and leaves every directory exactly as the first scan
    left it: each record is written again under the same name with the same
    content. *)
Theorem scan_twice_leaves_same_checkpoints (w : World) :
  rolling_window args <> 0 -> ready args w ->
  let first := tile_extraction_part args tiff model w in
  let second := tile_extraction_part args tiff model (snd first) in
  fst first = Ok tt /\ fst second = Ok tt /\ dirs (snd second) = dirs (snd first).
Proof.
  intros HS Hw first second. unfold second, first.
  rewrite (tile_extraction_part_run args tiff model w HS).
  unfold ready in Hw.
  destruct (lookup (path_join (output args) "step1") (dirs w)) as [entries|] eqn:Hdir;
    [|congruence].
  set (tiles := tagged_schedule (nrows tiff) (ncols tiff) (tile_size args)
                                (rolling_window args)).
  destruct (run_tiles_first tiles 0 w entries Hdir)
    as (c1 & w1 & entries1 & E1 & Hdir1 & _ & Hsaved).
  assert (F : (_ <~ run_tiles args tiff model tiles 0 ;; ret tt) w = (Ok tt, w1))
    by (unfold bindM; rewrite E1; reflexivity).
  rewrite F. cbn [fst snd].
  rewrite (tile_extraction_part_run args tiff model w1 HS). fold tiles.
  destruct (run_tiles_again tiles 0 w1 entries1 Hdir1 Hsaved) as (c2 & w2 & E2 & D2).
  unfold bindM. rewrite E2. cbn [ret fst snd]. auto.
Qed.

End ScanTwice.

Lemma scan_twice_leaves_same_checkpoints_witness :
  dirs (snd (tile_extraction_part (args_with 10 10) (blank 15 15) no_detections
               (snd (blank_scan 15 15 10 10))))
  = dirs (snd (blank_scan 15 15 10 10)).
Proof.
  apply (scan_twice_leaves_same_checkpoints (args_with 10 10) (blank 15 15) no_detections
           no_detections_answers prepared_world ltac:(discriminate)
           (ready_prepared_world 10 10)).
Defined.

(** ** Saving, loading, compositing *)

(** The canvas of two overlapping detections on a 4 x 5 image is 4 x 5. *)
Lemma composite_keeps_shape_witness :
  exists canvas,
    composite (4, 5) overlapping_kept = Ok canvas /\ nrows canvas = 4 /\ ncols canvas = 5.
Proof.
  destruct (composite (4, 5) overlapping_kept) as [canvas|e] eqn:E.
  - exists canvas. split; [reflexivity|].
    exact (composite_keeps_shape 4 5 overlapping_kept canvas E).
  - vm_compute in E. discriminate E.
Defined.

(** Where the new record stands in what is loaded after a save. *)
Lemma save_then_load_at_slot (files : list (string * Res)) (res : Res)
  (dir name : string) (w : World) :
  lookup dir (dirs w) = Some (map (fun f => (fst f, pickle_dump (snd f))) files) ->
  lookup name (map (fun f => (fst f, pickle_dump (snd f))) files) = None ->
  res_boxes res <> [] -> res_scores res <> [] ->
  let pos := slot w dir name (map fst files) in
  let listing := firstn pos files ++ (name, res) :: skipn pos files in
  let w' := snd (save_intermediate_step res dir name w) in
  lookup dir (dirs w') = Some (map (fun f => (fst f, pickle_dump (snd f))) listing)
  /\ fst (load_all_steps dir w') = Ok (res_of_records (map snd listing)).
Proof.
  intros Hdir Hname Hb Hs pos listing w'.
  assert (E : lookup dir (dirs w')
              = Some (map (fun f => (fst f, pickle_dump (snd f))) listing)).
  { unfold w', save_intermediate_step. rewrite Hdir. cbn [snd dirs].
    rewrite lookup_put_same. unfold listing_after.
    rewrite (place_fresh _ _ _ _ Hname), map_map. cbn [fst].
    change (slot w dir name (map (fun x : string * Res => fst x) files)) with pos.
    unfold listing. rewrite map_app, firstn_map. cbn [map fst snd]. now rewrite skipn_map. }
  split; [exact E|].
  unfold load_all_steps, bindM, listdir, lift. rewrite E. cbn [fst].
  rewrite map_map. cbn [snd]. rewrite <- (map_map snd pickle_dump), load_records_of_results.
  unfold res_of_records, listing. rewrite map_app. cbn [map snd].
  destruct (flat_map res_boxes (map snd (firstn pos files) ++ res :: map snd (skipn pos files)))
    as [|b bs] eqn:EB.
  { rewrite flat_map_app in EB. apply app_eq_nil in EB as [_ EB]. cbn in EB.
    apply app_eq_nil in EB as [EB _]. contradiction. }
  destruct (flat_map res_scores (map snd (firstn pos files) ++ res :: map snd (skipn pos files)))
    as [|x xs] eqn:ES.
  { rewrite flat_map_app in ES. apply app_eq_nil in ES as [_ ES]. cbn in ES.
    apply app_eq_nil in ES as [ES _]. contradiction. }
  reflexivity.
Qed.

(** X17: saving and loading are inverse to each other, whatever the order in
    which the directory lists its files.  When a directory holds records
    saved by [save_intermediate_step] and a non-empty dictionary is saved
    under a new name, the directory then lists the earlier files and the new
    one, each once, in some order, and [load_all_steps] returns the
    detections of these records in that order.  On an empty directory it
    returns the saved dictionary itself. *)
Theorem save_then_load_round_trip (files : list (string * Res)) (res : Res)
  (dir name : string) (w : World) :
  lookup dir (dirs w) = Some (map (fun f => (fst f, pickle_dump (snd f))) files) ->
  lookup name (map (fun f => (fst f, pickle_dump (snd f))) files) = None ->
  res_boxes res <> [] -> res_scores res <> [] ->
  let w' := snd (save_intermediate_step res dir name w) in
  (exists listing,
      Permutation listing ((name, res) :: files)
      /\ lookup dir (dirs w') = Some (map (fun f => (fst f, pickle_dump (snd f))) listing)
      /\ fst (load_all_steps dir w') = Ok (res_of_records (map snd listing)))
  /\ (files = [] -> fst (load_all_steps dir w') = Ok res).
Proof.
  intros Hdir Hname Hb Hs w'.
  destruct (save_then_load_at_slot files res dir name w Hdir Hname Hb Hs) as [E L].
  cbv zeta in E, L. fold w' in E, L. split.
  - eexists. split; [|split; [exact E | exact L]].
    symmetry. etransitivity; [|apply Permutation_middle].
    now rewrite firstn_skipn.
  - intros ->. rewrite L. cbn [map]. rewrite firstn_nil, skipn_nil. cbn [app map snd].
    unfold res_of_records. cbn [flat_map]. rewrite !app_nil_r. now destruct res.
Qed.

Lemma save_then_load_round_trip_witness :
  fst (load_all_steps "out/step1"
         (snd (save_intermediate_step one_detection "out/step1" "0.pkl" prepared_world)))
  = Ok one_detection
  /\ exists listing,
       Permutation listing
         (("9.pkl"%string, one_detection)
          :: map (fun f => (fst f, res_of_filtered (snd f))) two_files)
       /\ fst (load_all_steps "out/step1"
                 (snd (save_intermediate_step one_detection "out/step1" "9.pkl"
                         two_record_world_newest_first)))
          = Ok (res_of_records (map snd listing)).
Proof.
  split.
  - apply (save_then_load_round_trip [] one_detection "out/step1" "0.pkl" prepared_world
             eq_refl eq_refl ltac:(discriminate) ltac:(discriminate)). reflexivity.
  - destruct (save_then_load_round_trip
                (map (fun f => (fst f, res_of_filtered (snd f))) two_files)
                one_detection "out/step1" "9.pkl" two_record_world_newest_first
                eq_refl eq_refl ltac:(discriminate) ltac:(discriminate))
      as [(listing & HP & _ & HL) _].
    exists listing. split; [exact HP | exact HL].
Defined.


(** X24: [load_all_steps] reads a record by its rows, however the record
    groups them: a checkpoint that holds its boxes as one block of rows and
    its scores as one vector loads exactly as the checkpoint
    [save_intermediate_step] writes for the same detections, whatever the
    records before and after it. *)
Theorem load_records_flattens_blocks (before after : list Pickled)
  (ss : list Q) (ms : list mask_item) (bs : list Box) :
  ss <> [] ->
  load_records (before ++ block_record ss ms bs :: after)
  = load_records (before ++ pickle_dump (mkRes ss ms bs) :: after).
Proof.
  intro Hss. unfold load_records. rewrite !fold_load_step.
  cbn [acc_scores acc_masks acc_boxes app].
  rewrite !flat_map_app. cbn [flat_map block_record pickle_dump p_scores p_masks p_boxes
                              res_scores res_masks res_boxes map box_rows score_vector app].
  rewrite flat_box_rows, app_nil_r.
  destruct (torch_vstack _) as [b|e]; [|reflexivity]. cbn [bind].
  set (pre := flat_map (fun t => map score_vector (p_scores t)) before).
  set (post := flat_map (fun t => map score_vector (p_scores t)) after).
  assert (E : concat (pre ++ [ss] ++ post)
              = concat (pre ++ map score_vector (map Score0 ss) ++ post)).
  { rewrite !concat_app, concat_score_vectors. cbn. now rewrite app_nil_r. }
  destruct ss as [|s ss]; [contradiction|].
  unfold torch_cat.
  destruct pre as [|v pre]; cbn [app map] in *; rewrite E; reflexivity.
Qed.

Lemma load_records_flattens_blocks_witness :
  load_records [block_record [9 # 10; 8 # 10] [] [mkBox 0 0 2 2; mkBox 1 1 3 3]]
  = Ok (mkRes [9 # 10; 8 # 10] [] [mkBox 0 0 2 2; mkBox 1 1 3 3]).
Proof.
  refine (eq_trans (load_records_flattens_blocks [] [] [9 # 10; 8 # 10] []
                      [mkBox 0 0 2 2; mkBox 1 1 3 3] _) _);
    [discriminate | reflexivity].
Defined.

(** ** A run from end to end *)

Lemma device_check_passes (env : Env) (args : Args) (w : World) :
  device_available env args ->
  (match device args with
   | Cuda n => if n <? cuda_device_count env then ret tt else raise (SystemExit 1)
   | Cpu => ret tt
   end) w = (Ok tt, w).
Proof.
  unfold device_available. destruct (device args) as [|n]; [reflexivity|].
  intro H. apply Z.ltb_lt in H. now rewrite H.
Qed.

Lemma normalize_8_bit_raises (img : image) :
  is_ok (normalize_8_bit img) = false ->
  normalize_8_bit img = Raise (InvalidDtype (img_dtype img)).
Proof. destruct img as [d px]. destruct d; cbn; intro H; try discriminate; reflexivity. Qed.

(** X18: an image of an unsupported pixel format (8-bit unsigned, for one)
    is rejected late: [pipeline] raises the invalid-dtype error only after it
    has listed and made the checkpoint directory and loaded the model; no
    tile is processed and nothing is written. *)
Theorem pipeline_rejects_dtype_after_loading_model (env : Env) (args : Args) (w : World)
  (tiff : tiff_data) (model : Model) (entries : list (string * Pickled)) :
  device_available env args ->
  imread env (input args) = Ok tiff ->
  lookup (path_join (output args) "step1") (dirs w) = Some entries ->
  torch_load env (model_path args) = Ok model ->
  is_ok (normalize_8_bit (first_plane tiff)) = false ->
  let step1 := path_join (output args) "step1" in
  let run := pipeline env args w in
  fst run = Raise (InvalidDtype (img_dtype (first_plane tiff)))
  /\ trace (snd run)
     = trace w ++ [EvImread (input args); EvListdir step1; EvMakedirs step1;
                   EvLoadModel (model_path args)]
  /\ tiles_of (trace (snd run)) = tiles_of (trace w)
  /\ dirs (snd run) = dirs w
  /\ written (snd run) = written w.
Proof.
  intros Hdev Hread Hdir Hload Hbad step1 run.
  apply normalize_8_bit_raises in Hbad.
  assert (E : run = (Raise (InvalidDtype (img_dtype (first_plane tiff))),
                     mkWorld (dirs w) (written w)
                       ((((trace w ++ [EvImread (input args)]) ++ [EvListdir step1])
                         ++ [EvMakedirs step1]) ++ [EvLoadModel (model_path args)])
                       (slot w))).
  { unfold run, pipeline, bindM. rewrite (device_check_passes env args w Hdev).
    unfold emit, lift. rewrite Hread.
    unfold listdir, step1; cbn [dirs written trace]. rewrite Hdir.
    unfold makedirs; cbn [dirs written trace]. rewrite Hdir, Hload.
    unfold first_plane in Hbad. destruct tiff; rewrite Hbad; reflexivity. }
  rewrite E; cbn [fst snd dirs written trace].
  split; [reflexivity|]. split; [now rewrite <- !app_assoc|].
  split; [|split; reflexivity].
  rewrite !tiles_of_app. cbn. now rewrite !app_nil_r.
Qed.

Lemma pipeline_rejects_dtype_after_loading_model_witness :
  fst (pipeline uint8_env (args_with 2 2) prepared_world) = Raise (InvalidDtype uint8).
Proof.
  apply (pipeline_rejects_dtype_after_loading_model uint8_env (args_with 2 2) prepared_world
           (Plane uint8 (blank 4 4)) no_detections []
           ltac:(vm_compute; reflexivity) eq_refl eq_refl eq_refl eq_refl).
Defined.

Lemma scan_keeps_written (args : Args) (tiff : ndarray Q) (model : Model) (w : World) :
  written (snd (tile_extraction_part args tiff model w)) = written w.
Proof.
  destruct (tile_extraction_part_keeps args tiff model (fun _ w' => written w' = written w))
    with (w := w) as [c H]; auto.
  intros c top left res w' _ H. unfold save_intermediate_step, emit.
  cbn [snd dirs written trace]. destruct (lookup _ (dirs w')); exact H.
Qed.

Lemma device_check_keeps_world (env : Env) (args : Args) (w : World) :
  snd ((match device args with
        | Cuda n => if n <? cuda_device_count env then ret tt else raise (SystemExit 1)
        | Cpu => ret tt
        end) w) = w.
Proof. destruct (device args) as [|n]; [reflexivity|]. now destruct (n <? _). Qed.

(** X19: [pipeline] writes the label image only at the end of a run that
    succeeds: after a failure the written images are those from before, and
    after a success the one image added or replaced is
    [<output>/output.tiff], of the shape of the plane of the input that was
    processed. *)
Theorem pipeline_writes_only_on_success (env : Env) (args : Args) (w : World) :
  let run := pipeline env args w in
  match fst run with
  | Ok _ =>
      exists tiff final,
        imread env (input args) = Ok tiff
        /\ nrows final = nrows (pixels (first_plane tiff))
        /\ ncols final = ncols (pixels (first_plane tiff))
        /\ written (snd run) = put (path_join (output args) "output.tiff") final (written w)
  | Raise _ => written (snd run) = written w
  end.
Proof.
  intro run.
  set (Q := fun r : result unit * World =>
              match fst r with
              | Ok _ =>
                  exists tiff final,
                    imread env (input args) = Ok tiff
                    /\ nrows final = nrows (pixels (first_plane tiff))
                    /\ ncols final = ncols (pixels (first_plane tiff))
                    /\ written (snd r)
                       = put (path_join (output args) "output.tiff") final (written w)
              | Raise _ => written (snd r) = written w
              end).
  change (Q run). unfold run, pipeline. unfold bindM at 1.
  pose proof (device_check_keeps_world env args w) as H1.
  destruct ((match device args with
             | Cuda n => if n <? cuda_device_count env then ret tt else raise (SystemExit 1)
             | Cpu => ret tt
             end) w) as [[[]|e] w1]; cbn [fst snd] in *; subst w1; [|reflexivity].
  unfold bindM at 1. unfold emit at 1. unfold bindM at 1. unfold lift at 1.
  destruct (imread env (input args)) as [tiff|e] eqn:Hread; [|reflexivity].
  change (match tiff with
          | Plane d a => mkImage d a
          | Stack d first _ _ => mkImage d first
          end) with (first_plane tiff).
  set (img := first_plane tiff).
  set (step1 := path_join (output args) "step1").
  unfold bindM at 1. unfold listdir at 1. cbn [dirs written trace].
  destruct (lookup step1 (dirs w)) as [entries|] eqn:Hdir; [|reflexivity].
  unfold bindM at 1. unfold makedirs at 1. cbn [dirs written trace]. rewrite Hdir.
  unfold bindM at 1. unfold emit at 1. cbn [dirs written trace].
  unfold bindM at 1. unfold lift at 1.
  destruct (torch_load env (model_path args)) as [model|e]; [|reflexivity].
  unfold bindM at 1. unfold lift at 1.
  destruct (normalize_8_bit img) as [normalized|e]; [|reflexivity].
  unfold bindM at 1.
  match goal with
  | |- context [(if parallel args then ?a else ?b) ?w0] =>
      assert (H5 : written (snd ((if parallel args then a else b) w0)) = written w);
      [ destruct (parallel args); [reflexivity | now rewrite scan_keeps_written]
      | destruct ((if parallel args then a else b) w0) as [[[]|e] w5] ]
  end; cbn [fst snd] in *; [|exact H5].
  unfold bindM at 1. unfold load_all_steps, bindM at 1, listdir, lift.
  destruct (lookup step1 (dirs w5)) as [entries5|]; [|exact H5].
  destruct (load_records (map snd entries5)) as [loaded|e]; [|exact H5].
  unfold bindM at 1.
  destruct (deduplicate args loaded) as [kept|e]; [|exact H5].
  unfold bindM at 1.
  destruct (composite _ kept) as [final|e] eqn:Hfinal; [|exact H5].
  unfold composite in Hfinal; cbn [fst snd] in Hfinal.
  apply paint_keeps_shape in Hfinal as [Hr Hc]. cbn [zeros nrows ncols] in Hr, Hc.
  unfold bindM, imwrite.
  destruct (negb (no_viewer args)); cbn [fst snd emit ret dirs written trace];
    exists tiff, final; rewrite H5; auto.
Qed.

Lemma Forall_scores_raw_detections (P : Q -> Prop) (res : RawDetections) :
  aligned res -> Forall P (scores res) -> Forall (fun d => P (rd_score d)) (raw_detections res).
Proof.
  intros H HP. rewrite <- (of_raw_detections res H) in HP.
  unfold of_detections in HP; cbn [scores] in HP.
  now apply (proj1 (Forall_map rd_score P _)) in HP.
Qed.

Lemma filter_none {A} (P : A -> bool) (l : list A) :
  Forall (fun x => P x = false) l -> filter P l = [].
Proof. induction 1 as [|x l Hx _ IH]; cbn; [reflexivity|]. now rewrite Hx. Qed.

Lemma tile_result_empty (args : Args) (tiff : ndarray Q) (model : Model) (top left : Z)
  (res : Res) :
  finds_nothing args model ->
  tile_result args tiff model top left = Ok res -> res = mkRes [] [] [].
Proof.
  intros Hm. unfold tile_result.
  destruct (Hm (crop tiff top left (tile_size args) (tile_size args))) as (raw & E & Hal & Hs).
  rewrite E; cbn [bind]. rewrite (filter_tile_total _ _ _ _ _ Hal).
  intro Eq. injection Eq as <-. unfold survivors.
  rewrite (filter_none (passes_score args)); [reflexivity|].
  apply Forall_scores_raw_detections with (P := fun s => (s < thres_prediction args)%Q) in Hs;
    [|exact Hal].
  eapply Forall_impl; [|exact Hs]. cbv beta. intros d Hd.
  unfold passes_score. apply not_true_is_false. intro Hle.
  apply Qle_bool_iff in Hle. apply (Qlt_not_le _ _ Hd Hle).
Qed.

Lemma load_records_empty (temps : list Pickled) :
  Forall (fun t => p_boxes t = []) temps -> load_records temps = Raise RuntimeError.
Proof.
  intro H. unfold load_records. rewrite fold_load_step; cbn [acc_boxes acc_scores acc_masks app].
  replace (flat_map (fun t => flat_map box_rows (p_boxes t)) temps) with (@nil Box);
    [reflexivity|].
  induction H as [|t temps Ht _ IH]; cbn; [reflexivity|]. now rewrite Ht, <- IH.
Qed.

Lemma scan_leaves_empty_records (args : Args) (tiff : ndarray Q) (model : Model) (w : World)
  (entries : list (string * Pickled)) :
  finds_nothing args model ->
  lookup (path_join (output args) "step1") (dirs w) = Some entries ->
  Forall empty_record entries ->
  exists entries',
    lookup (path_join (output args) "step1")
           (dirs (snd (tile_extraction_part args tiff model w))) = Some entries'
    /\ Forall empty_record entries'.
Proof.
  intros Hm Hdir He.
  set (dir := path_join (output args) "step1") in *.
  destruct (tile_extraction_part_keeps args tiff model
              (fun _ w' => exists entries', lookup dir (dirs w') = Some entries'
                                            /\ Forall empty_record entries'))
    with (w := w) as [c H]; eauto.
  intros c top left res w' Hres (entries' & E & He').
  apply (tile_result_empty _ _ _ _ _ _ Hm) in Hres. subst res.
  unfold save_intermediate_step, emit; cbn [snd dirs written trace].
  fold dir. rewrite E. cbn [snd dirs].
  eexists. split; [apply lookup_put_same|]. apply Forall_place; [reflexivity | exact He'].
Qed.

(** X20: a run in which the detector scores nothing at or above the
    prediction threshold ends in a [RuntimeError]: the scan succeeds, the
    primary sweep saves nothing and the edge passes save empty records, so
    [load_all_steps] stacks an empty list of boxes.  No label image is
    written. *)
Theorem pipeline_without_detections_raises (env : Env) (args : Args) (w : World)
  (tiff : tiff_data) (model : Model) (entries : list (string * Pickled)) :
  device_available env args ->
  imread env (input args) = Ok tiff ->
  is_ok (normalize_8_bit (first_plane tiff)) = true ->
  lookup (path_join (output args) "step1") (dirs w) = Some entries ->
  Forall empty_record entries ->
  torch_load env (model_path args) = Ok model ->
  finds_nothing args model ->
  parallel args = false -> rolling_window args <> 0 ->
  let run := pipeline env args w in
  fst run = Raise RuntimeError /\ written (snd run) = written w.
Proof.
  intros Hdev Hread Hnorm Hdir He Hload Hm Hpar HS run.
  enough (H : exists w', run = (Raise RuntimeError, w') /\ written w' = written w).
  { destruct H as (w' & -> & H). split; [reflexivity | exact H]. }
  unfold run, pipeline, bindM. rewrite (device_check_passes env args w Hdev).
  unfold emit, lift. rewrite Hread.
  change (match tiff with
          | Plane d a => mkImage d a
          | Stack d first _ _ => mkImage d first
          end) with (first_plane tiff).
  unfold listdir at 1; cbn [dirs written trace slot]. rewrite Hdir.
  unfold makedirs; cbn [dirs written trace slot]. rewrite Hdir, Hload.
  destruct (normalize_8_bit (first_plane tiff)) as [normalized|e]; [|discriminate].
  rewrite Hpar.
  set (w4 := mkWorld (dirs w) (written w) _ (slot w)).
  assert (Hready : ready args w4) by (unfold ready, w4; cbn [dirs]; congruence).
  assert (Hans : forall tile, exists raw, model tile = Ok raw /\ aligned raw).
  { intro tile. destruct (Hm tile) as (raw & E & Hal & _). eauto. }
  pose proof (scan_keeps_written args (times normalized 255) model w4) as Hwr.
  destruct (scan_leaves_empty_records args (times normalized 255) model w4 entries Hm Hdir He)
    as (entries' & Hdir' & He').
  destruct (tile_extraction_part_schedule args (times normalized 255) model Hans w4 HS Hready)
    as (w5 & E5 & _ & _).
  rewrite E5 in *. cbn [snd] in *.
  unfold load_all_steps, bindM, listdir, lift. rewrite Hdir'.
  rewrite load_records_empty.
  - eexists. split; [reflexivity | exact Hwr].
  - apply Forall_map. exact He'.
Qed.

Lemma pipeline_without_detections_raises_witness :
  fst (pipeline small_env (args_with 2 2) prepared_world) = Raise RuntimeError.
Proof.
  apply (pipeline_without_detections_raises small_env (args_with 2 2) prepared_world
           (Plane uint16 (blank 4 4)) no_detections []
           ltac:(vm_compute; reflexivity) eq_refl eq_refl eq_refl ltac:(constructor) eq_refl).
  - intro tile. exists (mkRaw [] [] []).
    split; [reflexivity|]. split; [split; reflexivity | constructor].
  - reflexivity.
  - discriminate.
Defined.

Lemma last_char_none (a : string) : last_char a = None -> a = EmptyString.
Proof.
  induction a as [|x a IH]; [reflexivity|]. cbn.
  destruct a as [|y a]; [discriminate|]. intro H. apply IH in H. discriminate.
Qed.

Lemma length_join_prefix (a : string) : (String.length a <= String.length (join_prefix a))%nat.
Proof.
  unfold join_prefix. destruct (last_char a) as [x|] eqn:E.
  - destruct x as [[] [] [] [] [] [] [] []]; rewrite ?string_length_append; lia.
  - apply last_char_none in E. subst a. cbn. lia.
Qed.

Lemma step1_is_not_output (a : string) : path_join a "step1" <> a.
Proof.
  rewrite path_join_relative by discriminate. intro E.
  apply (f_equal String.length) in E. rewrite string_length_append in E.
  pose proof (length_join_prefix a). cbn in E. lia.
Qed.

Lemma lookup_snoc_other {V} (k k' : string) (v : V) (l : list (string * V)) :
  k <> k' -> lookup k (l ++ [(k', v)]) = lookup k l.
Proof.
  intro Hk. induction l as [|[k0 v0] l IH]; cbn.
  - apply String.eqb_neq in Hk. now rewrite Hk.
  - destruct (String.eqb k k0); [reflexivity | exact IH].
Qed.

Lemma normalize_8_bit_keeps_shape (img : image) (out : ndarray Q) :
  normalize_8_bit img = Ok out ->
  nrows out = nrows (pixels img) /\ ncols out = ncols (pixels img).
Proof.
  destruct img as [d px]. destruct d; cbn; intro E; try discriminate;
    injection E as <-; split; reflexivity.
Qed.

Lemma tile_result_sound (args : Args) (tiff : ndarray Q) (model : Model) (h w i j : Z)
  (res : Res) :
  answers_in_tile (tile_size args) model ->
  tile_inside h w (tile_size args) (i, j) ->
  tile_result args tiff model i j = Ok res ->
  sound_res h w res.
Proof.
  intros Hm (Hi & Hih & Hj & Hjw). cbn [fst snd] in *. unfold tile_result.
  destruct (Hm (crop tiff i j (tile_size args) (tile_size args))) as (raw & E & Hal & Hb).
  rewrite E; cbn [bind]. rewrite (filter_tile_total _ _ _ _ _ Hal).
  intro Eq. injection Eq as <-. split.
  - unfold res_of_filtered; cbn [res_scores res_boxes]. now rewrite !length_map.
  - apply (filtered_set_well_placed args h w (tile_size args)); auto.
    now apply Forall_boxes_raw_detections.
Qed.

Lemma sound_records_results (h w : Z) (entries : list (string * Pickled)) :
  Forall (sound_record h w) entries ->
  exists results, map snd entries = map pickle_dump results /\ Forall (sound_res h w) results.
Proof.
  induction 1 as [|f entries (res & E & Hres) _ (results & IH & Hs)].
  - exists []. split; [reflexivity | constructor].
  - exists (res :: results). cbn. rewrite E, IH. split; [reflexivity | now constructor].
Qed.

Lemma sound_res_of_records (h w : Z) (results : list Res) :
  Forall (sound_res h w) results -> sound_res h w (res_of_records results).
Proof.
  unfold res_of_records, sound_res; cbn [res_scores res_boxes res_masks].
  induction 1 as [|res results [Hl Hp] _ [IHl IHp]]; cbn.
  - split; [reflexivity | constructor].
  - split; [rewrite !length_app; congruence | now apply Forall2_app].
Qed.

Lemma gather_Forall2 {A B} (R : A -> B -> Prop) (indexes : list nat)
  (xs ys : list A) (zs ws : list B) :
  Forall2 R xs zs ->
  gather indexes xs = Ok ys -> gather indexes zs = Ok ws -> Forall2 R ys ws.
Proof.
  intro HR. revert ys ws. induction indexes as [|i indexes IH]; cbn; intros ys ws Ey Ew.
  - injection Ey as <-. injection Ew as <-. constructor.
  - destruct (nth_error xs i) as [x|] eqn:Ex; [|discriminate].
    destruct (nth_error zs i) as [z|] eqn:Ez; [|discriminate].
    destruct (gather indexes xs) as [ys'|]; [|discriminate].
    destruct (gather indexes zs) as [ws'|]; [|discriminate].
    cbn in Ey, Ew. injection Ey as <-. injection Ew as <-.
    constructor; [|now apply IH].
    clear - HR Ex Ez. revert i Ex Ez.
    induction HR as [|x0 z0 xs zs H0 _ IH]; intros [|i]; cbn; try discriminate.
    + intros [= <-] [= <-]. exact H0.
    + apply IH.
Qed.

Lemma deduplicate_sound (args : Args) (h w : Z) (loaded : Res) :
  sound_res h w loaded ->
  exists kept, deduplicate args loaded = Ok kept
               /\ Forall2 (well_placed h w) (res_boxes kept) (res_masks kept).
Proof.
  intros [Hl Hp]. unfold deduplicate.
  set (indexes := nms (res_boxes loaded) (res_scores loaded) (thres_nms args)).
  assert (Hi : forall i, In i indexes -> (i < length (res_scores loaded))%nat)
    by (intros i; apply nms_in_range).
  pose proof (Forall2_length Hp) as Hm.
  destruct (gather_in_range indexes (res_boxes loaded)) as (b & Eb & _).
  { intros i Hin. apply Hi in Hin. lia. }
  destruct (gather_in_range indexes (res_scores loaded)) as (s & Es & _); [exact Hi|].
  destruct (gather_in_range indexes (res_masks loaded)) as (m & Em & _).
  { intros i Hin. apply Hi in Hin. lia. }
  rewrite Eb, Es, Em; cbn [bind]. eexists. split; [reflexivity|]. cbn [res_boxes res_masks].
  exact (gather_Forall2 _ _ _ _ _ _ Hp Eb Em).
Qed.

Lemma traced_record_app (args : Args) (tiff : ndarray Q) (model : Model) (h w : Z)
  (tr tr' : list event) (f : string * Pickled) :
  traced_record args tiff model h w tr f -> traced_record args tiff model h w (tr ++ tr') f.
Proof.
  intros [H | (i & j & res & Hin & E & Ef)]; [now left | right].
  exists i, j, res. split; [|auto]. rewrite tiles_of_app. apply in_or_app. now left.
Qed.

Lemma scan_leaves_traced_records (args : Args) (tiff : ndarray Q) (model : Model)
  (h w' : Z) (w : World) (entries : list (string * Pickled)) :
  lookup (path_join (output args) "step1") (dirs w) = Some entries ->
  Forall (sound_record h w') entries ->
  let run := tile_extraction_part args tiff model w in
  exists entries',
    lookup (path_join (output args) "step1") (dirs (snd run)) = Some entries'
    /\ Forall (traced_record args tiff model h w' (trace (snd run))) entries'.
Proof.
  intros Hdir He run.
  set (dir := path_join (output args) "step1") in *.
  destruct (tile_extraction_part_keeps args tiff model
              (fun _ w1 => exists entries',
                   lookup dir (dirs w1) = Some entries'
                   /\ Forall (traced_record args tiff model h w' (trace w1)) entries'))
    with (w := w) as [c H].
  - intros c i j e w1 _ (entries' & E & H). exists entries'. split; [exact E|].
    cbn [emit snd trace]. eapply Forall_impl; [|exact H].
    intros f. apply traced_record_app.
  - intros c top left res w1 Hres (entries' & E & H).
    unfold save_intermediate_step, emit; cbn [snd dirs written trace].
    fold dir. rewrite E. cbn [snd dirs trace].
    eexists. split; [apply lookup_put_same|]. apply Forall_place.
    + right. exists top, left, res. split; [|auto].
      rewrite !tiles_of_app. cbn. rewrite app_nil_r. apply in_or_app. right. now left.
    + eapply Forall_impl; [|exact H]. intros f Hf.
      now apply traced_record_app, traced_record_app.
  - intros c i j res w1 _ _ (entries' & E & H). exists entries'. split; [exact E|].
    cbn [emit snd trace]. eapply Forall_impl; [|exact H].
    intros f. apply traced_record_app.
  - exists entries. split; [exact Hdir|]. eapply Forall_impl; [|exact He].
    intros f Hf. now left.
  - exact H.
Qed.


Lemma lookup_In {V} (k : string) (v : V) (l : list (string * V)) :
  lookup k l = Some v -> In (k, v) l.
Proof.
  induction l as [|[k' v'] l IH]; cbn; [discriminate|].
  destruct (String.eqb_spec k k') as [->|Hk].
  - intros [= ->]. now left.
  - intro H. right. auto.
Qed.

(** A prepared run gets through the scan, and then stops with a
    [RuntimeError] when the checkpoints hold no box, and writes the label
    image otherwise. *)
Lemma pipeline_outcome (env : Env) (args : Args) (w : World) (tiff : tiff_data)
  (model : Model) (normalized : ndarray Q) :
  prepared env args w tiff model normalized ->
  let h := nrows (pixels (first_plane tiff)) in
  let w' := ncols (pixels (first_plane tiff)) in
  let step1 := path_join (output args) "step1" in
  let scan := tile_extraction_part args (times normalized 255) model (at_scan args w) in
  exists entries5 results r w6,
    fst scan = Ok tt
    /\ tiles_of (trace (snd scan)) = schedule h w' (tile_size args) (rolling_window args)
    /\ lookup step1 (dirs (snd scan)) = Some entries5
    /\ map snd entries5 = map pickle_dump results
    /\ pipeline env args w = (r, w6)
    /\ match flat_map res_boxes results with
       | [] => r = Raise RuntimeError
       | _ :: _ =>
           r = Ok tt
           /\ exists final,
                nrows final = h /\ ncols final = w'
                /\ written w6 = put (path_join (output args) "output.tiff") final (written w)
       end.
Proof.
  intros (Hdev & Hread & En & (entries & Hdir & He) & Hfresh & Hload & Hm & Hpar & HS
          & HTh & HTw) h w' step1 scan.
  fold h w' in He, HTh, HTw.
  pose proof (normalize_8_bit_keeps_shape _ _ En) as [Hr Hc]. fold h in Hr. fold w' in Hc.
  set (img := times normalized 255) in *.
  set (w4 := at_scan args w) in *.
  assert (Hready : ready args w4) by (unfold ready, w4; cbn [at_scan dirs]; congruence).
  assert (Hans : forall tile, exists raw, model tile = Ok raw /\ aligned raw).
  { intro tile. destruct (Hm tile) as (raw & E & Hal & _). eauto. }
  pose proof (scan_keeps_written args img model w4) as Hwr.
  destruct (scan_leaves_traced_records args img model h w' w4 entries Hdir He)
    as (entries5 & Hdir5 & He5).
  destruct (tile_extraction_part_schedule args img model Hans w4 ltac:(lia) Hready)
    as (w5 & E5 & _ & Tr5).
  fold scan in Hwr, Hdir5, He5, E5.
  assert (Tr4 : tiles_of (trace w4) = []).
  { unfold w4, at_scan; cbn [trace]. rewrite !tiles_of_app, Hfresh. reflexivity. }
  rewrite Tr4 in Tr5. cbn [app] in Tr5.
  assert (Himg : nrows img = h /\ ncols img = w') by (unfold img; cbn [times nrows ncols]; auto).
  destruct Himg as [Hih Hiw]. rewrite Hih, Hiw in Tr5.
  rewrite E5 in Hwr, Hdir5, He5. cbn [snd] in Hwr, Hdir5, He5.
  assert (Hsound : Forall (sound_record h w') entries5).
  { eapply Forall_impl; [|exact He5]. intros f [Hf | (i & j & res & Hin & E & Ef)]; [exact Hf|].
    exists res. split; [exact Ef|].
    apply (tile_result_sound args img model h w' i j res Hm); [|exact E].
    rewrite Tr5 in Hin.
    pose proof (schedule_inside h w' (tile_size args) (rolling_window args) HS HTh HTw) as Hin'.
    rewrite Forall_forall in Hin'. now apply Hin'. }
  destruct (sound_records_results h w' entries5 Hsound) as (results & Eres & Hres).
  exists entries5, results.
  assert (Hrun : exists r w6,
             pipeline env args w = (r, w6)
             /\ match flat_map res_boxes results with
                | [] => r = Raise RuntimeError
                | _ :: _ =>
                    r = Ok tt
                    /\ exists final,
                         nrows final = h /\ ncols final = w'
                         /\ written w6
                            = put (path_join (output args) "output.tiff") final (written w)
                end).
  { unfold pipeline, bindM. rewrite (device_check_passes env args w Hdev).
    unfold emit, lift. rewrite Hread.
    change (match tiff with
            | Plane d a => mkImage d a
            | Stack d first _ _ => mkImage d first
            end) with (first_plane tiff).
    fold h w' step1.
    unfold listdir at 1; cbn [dirs written trace slot]. unfold step1 at 1. rewrite Hdir.
    unfold makedirs; cbn [dirs written trace slot]. unfold step1 at 1. rewrite Hdir, Hload, En, Hpar.
    fold img. fold step1. change (mkWorld (dirs w) (written w) _ (slot w)) with w4.
    unfold scan in E5. rewrite E5.
    unfold load_all_steps, bindM, listdir, lift. unfold step1 at 1.
    rewrite Hdir5, Eres, load_records_of_results.
    pose proof (sound_res_of_records h w' results Hres) as Hall.
    destruct (flat_map res_boxes results) as [|b bs] eqn:EB;
      [eexists; eexists; split; reflexivity|].
    destruct (flat_map res_scores results) as [|s ss] eqn:ES.
    { exfalso. destruct Hall as [Hl _]. unfold res_of_records in Hl.
      cbn [res_scores res_boxes] in Hl. rewrite EB, ES in Hl. discriminate. }
    rewrite <- EB, <- ES. fold (res_of_records results).
    destruct (deduplicate_sound args h w' (res_of_records results) Hall) as (kept & Ek & Hk).
    rewrite Ek.
    destruct (paint_well_placed h w' _ _ Hk 0 (zeros h w') eq_refl eq_refl)
      as (canvas & Ec & Hcr & Hcc & _).
    unfold composite; cbn [fst snd]. rewrite Ec.
    unfold imwrite.
    destruct (negb (no_viewer args)); eexists; eexists;
      (split; [reflexivity|]); (split; [reflexivity|]); exists canvas;
      cbn [written]; rewrite Hwr; auto. }
  destruct Hrun as (r & w6 & Erun & Hcase). exists r, w6.
  rewrite E5. cbn [fst snd]. auto 10.
Qed.

(** X21: on a prepared run the only failure left is the lack of detections:
    [pipeline] either succeeds or raises the [RuntimeError] of the empty
    aggregation.  In particular the deduplicator always indexes within range
    and the compositor never fails.  Of [torchvision.ops.nms] the proof uses
    only that it returns indices of its input. *)
Theorem pipeline_fails_only_for_lack_of_detections (env : Env) (args : Args) (w : World)
  (tiff : tiff_data) (model : Model) (normalized : ndarray Q) :
  prepared env args w tiff model normalized ->
  let run := pipeline env args w in
  fst run = Ok tt \/ fst run = Raise RuntimeError.
Proof.
  intros Hp run.
  destruct (pipeline_outcome env args w tiff model normalized Hp)
    as (entries5 & results & r & w6 & _ & _ & _ & _ & Erun & Hcase).
  unfold run. rewrite Erun. cbn [fst].
  destruct (flat_map res_boxes results); [now right | left; apply Hcase].
Qed.

Lemma small_run_prepared :
  prepared small_env (args_with 2 2) prepared_world (Plane uint16 (blank 4 4)) no_detections
    (divide (blank 4 4) (2 ^ 16)).
Proof.
  unfold prepared.
  split; [vm_compute; reflexivity|]. split; [reflexivity|]. split; [reflexivity|].
  split; [exists []; split; [reflexivity | constructor]|].
  split; [reflexivity|]. split; [reflexivity|].
  split.
  { intro tile. exists (mkRaw [] [] []).
    split; [reflexivity|]. split; [split; reflexivity | constructor]. }
  split; [reflexivity|]. split; [reflexivity|]. split; discriminate.
Qed.

Lemma pipeline_fails_only_for_lack_of_detections_witness :
  fst (pipeline small_env (args_with 2 2) prepared_world) = Ok tt
  \/ fst (pipeline small_env (args_with 2 2) prepared_world) = Raise RuntimeError.
Proof.
  exact (pipeline_fails_only_for_lack_of_detections small_env (args_with 2 2) prepared_world
           (Plane uint16 (blank 4 4)) no_detections (divide (blank 4 4) (2 ^ 16))
           small_run_prepared).
Defined.

(** During a scan every processed tile whose filtered set is not empty has
    its record in the checkpoint directory. *)
Lemma scan_keeps_tile_records (args : Args) (tiff : ndarray Q) (model : Model) (w : World)
  (entries : list (string * Pickled)) :
  lookup (path_join (output args) "step1") (dirs w) = Some entries ->
  tiles_of (trace w) = [] ->
  let run := tile_extraction_part args tiff model w in
  exists entries',
    lookup (path_join (output args) "step1") (dirs (snd run)) = Some entries'
    /\ forall i j res,
         In (i, j) (tiles_of (trace (snd run))) ->
         tile_result args tiff model i j = Ok res -> res_boxes res <> [] ->
         exists k, lookup (checkpoint_name k) entries' = Some (pickle_dump res).
Proof.
  intros Hdir Hfresh run.
  set (dir := path_join (output args) "step1") in *.
  set (P := fun (c : Z) (w1 : World) =>
              exists entries',
                lookup dir (dirs w1) = Some entries'
                /\ forall i j res,
                     In (i, j) (tiles_of (trace w1)) ->
                     tile_result args tiff model i j = Ok res -> res_boxes res <> [] ->
                     exists k, k < c
                               /\ lookup (checkpoint_name k) entries' = Some (pickle_dump res)).
  assert (H : exists c, P c (snd run)).
  { apply (tile_extraction_part_keeps args tiff model P).
    - intros c top left e w1 Hfail (entries' & E & H). exists entries'. split; [exact E|].
      intros i j res Hin Hres Hne. cbn [emit snd trace] in Hin.
      rewrite tiles_of_app in Hin. apply in_app_or in Hin as [Hin | Hin]; [eauto|].
      cbn in Hin. destruct Hin as [[= <- <-] | []]. congruence.
    - intros c top left res w1 Hres (entries' & E & H).
      unfold P, save_intermediate_step, emit; cbn [snd dirs written trace].
      fold dir. rewrite E. cbn [snd dirs trace].
      eexists. split; [apply lookup_put_same|].
      intros i j res0 Hin Hres0 Hne.
      rewrite !tiles_of_app in Hin. cbn in Hin. rewrite app_nil_r in Hin.
      apply in_app_or in Hin as [Hin | Hin].
      + destruct (H i j res0 Hin Hres0 Hne) as (k & Hk & Ek).
        exists k. split; [lia|].
        unfold listing_after. rewrite lookup_place_other; [exact Ek|].
        intro Eq. apply checkpoint_name_inj in Eq. lia.
      + destruct Hin as [[= <- <-] | []]. exists c. split; [lia|].
        assert (res0 = res) by congruence. subst res0. apply lookup_place_same.
    - intros c top left res w1 Hres Hempty (entries' & E & H).
      exists entries'. split; [exact E|].
      intros i j res0 Hin Hres0 Hne. cbn [emit snd trace] in Hin.
      rewrite tiles_of_app in Hin. apply in_app_or in Hin as [Hin | Hin].
      + destruct (H i j res0 Hin Hres0 Hne) as (k & Hk & Ek). exists k. split; [lia | exact Ek].
      + cbn in Hin. destruct Hin as [[= <- <-] | []]. congruence.
    - exists entries. split; [exact Hdir|]. intros i j res Hin. rewrite Hfresh in Hin.
      destruct Hin. }
  destruct H as (c & entries' & E & H). exists entries'. split; [exact E|].
  intros i j res Hin Hres Hne. destruct (H i j res Hin Hres Hne) as (k & _ & Ek). eauto.
Qed.

Lemma BoxRow_inj (l m : list Box) : map BoxRow l = map BoxRow m -> l = m.
Proof.
  revert m. induction l as [|x l IH]; intros [|y m]; cbn; try discriminate; [reflexivity|].
  intros [= -> E]. f_equal. auto.
Qed.

(** X22: a prepared run in which some scheduled tile leaves a detection
    after the filter succeeds: its record is saved and never overwritten, the
    aggregation is not empty, and [pipeline] writes a label image of the
    input's shape to [<output>/output.tiff]. *)
Theorem pipeline_succeeds_with_a_detection (env : Env) (args : Args) (w : World)
  (tiff : tiff_data) (model : Model) (normalized : ndarray Q) (i j : Z) (res : Res) :
  let h := nrows (pixels (first_plane tiff)) in
  let w' := ncols (pixels (first_plane tiff)) in
  prepared env args w tiff model normalized ->
  In (i, j) (schedule h w' (tile_size args) (rolling_window args)) ->
  tile_result args (times normalized 255) model i j = Ok res ->
  res_boxes res <> [] ->
  let run := pipeline env args w in
  fst run = Ok tt
  /\ exists final,
       nrows final = h /\ ncols final = w'
       /\ written (snd run) = put (path_join (output args) "output.tiff") final (written w).
Proof.
  intros h w' Hp Hin Hres Hne run.
  destruct (pipeline_outcome env args w tiff model normalized Hp)
    as (entries5 & results & r & w6 & _ & Tr & Hdir5 & Eres & Erun & Hcase).
  fold h w' in Tr, Hcase.
  destruct Hp as (_ & _ & _ & (entries & Hdir & _) & Hfresh & _).
  destruct (scan_keeps_tile_records args (times normalized 255) model (at_scan args w) entries)
    as (entries' & Hdir' & Hkeep).
  { exact Hdir. }
  { unfold at_scan; cbn [trace]. rewrite !tiles_of_app, Hfresh. reflexivity. }
  cbv zeta in Hdir'. rewrite Hdir5 in Hdir'. injection Hdir' as <-.
  rewrite Tr in Hkeep. destruct (Hkeep i j res Hin Hres Hne) as (k & Ek).
  apply lookup_In in Ek. apply (in_map snd) in Ek. cbn [snd] in Ek.
  rewrite Eres in Ek. apply in_map_iff in Ek as (res' & Edump & Hres').
  assert (Eb : res_boxes res' = res_boxes res).
  { apply BoxRow_inj. now apply (f_equal p_boxes) in Edump. }
  unfold run. rewrite Erun. cbn [fst snd].
  destruct (flat_map res_boxes results) as [|b bs] eqn:EB; [|exact Hcase].
  exfalso. apply Hne. rewrite <- Eb.
  assert (Hincl : forall x, In x (res_boxes res') -> In x (flat_map res_boxes results)).
  { intros x Hx. apply in_flat_map. eauto. }
  rewrite EB in Hincl. destruct (res_boxes res') as [|x l]; [reflexivity|].
  destruct (Hincl x). now left.
Qed.

Lemma fixed_run_prepared :
  prepared fixed_env (args_with 16 8) prepared_world (Plane uint16 (blank 34 34)) fixed_model
    (divide (blank 34 34) (2 ^ 16)).
Proof.
  unfold prepared.
  split; [vm_compute; reflexivity|]. split; [reflexivity|]. split; [reflexivity|].
  split; [exists []; split; [reflexivity | constructor]|].
  split; [reflexivity|]. split; [reflexivity|].
  split.
  { intro tile. eexists. split; [reflexivity|]. split; [split; reflexivity|].
    constructor; [|constructor]. unfold box_in_tile; cbn.
    repeat split; try discriminate; vm_compute; discriminate. }
  split; [reflexivity|]. split; [reflexivity|]. split; discriminate.
Qed.

Lemma pipeline_succeeds_with_a_detection_witness :
  fst (pipeline fixed_env (args_with 16 8) prepared_world) = Ok tt.
Proof.
  eapply (pipeline_succeeds_with_a_detection fixed_env (args_with 16 8) prepared_world
            (Plane uint16 (blank 34 34)) fixed_model (divide (blank 34 34) (2 ^ 16)) 0 0 _
            fixed_run_prepared).
  - vm_compute. left. reflexivity.
  - vm_compute. reflexivity.
  - discriminate.
Defined.

(** ** The script *)

(** What a run that ends well has found: a device, the checkpoint directory,
    a readable image of a supported pixel format, and, for a sequential scan,
    a stride other than 0. *)
Lemma pipeline_success_requires (env : Env) (args : Args) (w : World) :
  fst (pipeline env args w) = Ok tt ->
  device_available env args
  /\ lookup (path_join (output args) "step1") (dirs w) <> None
  /\ (exists tiff, imread env (input args) = Ok tiff
                   /\ is_ok (normalize_8_bit (first_plane tiff)) = true)
  /\ (parallel args = false -> rolling_window args <> 0).
Proof.
  unfold pipeline. unfold bindM at 1.
  assert (Hdev : device_available env args
                 \/ exists w1, (match device args with
                                | Cuda n => if n <? cuda_device_count env then ret tt
                                            else raise (SystemExit 1)
                                | Cpu => ret tt
                                end) w = (Raise (SystemExit 1), w1)).
  { unfold device_available. destruct (device args) as [|n]; [now left|].
    destruct (Z.ltb_spec n (cuda_device_count env)); [now left | right; eexists; reflexivity]. }
  destruct Hdev as [Hdev | (w1 & ->)]; [|discriminate].
  rewrite (device_check_passes env args w Hdev).
  unfold bindM at 1. unfold emit at 1. unfold bindM at 1. unfold lift at 1.
  destruct (imread env (input args)) as [tiff|e] eqn:Hread; [|discriminate].
  change (match tiff with
          | Plane d a => mkImage d a
          | Stack d first _ _ => mkImage d first
          end) with (first_plane tiff).
  unfold bindM at 1. unfold listdir at 1. cbn [dirs written trace slot].
  destruct (lookup (path_join (output args) "step1") (dirs w)) as [entries|] eqn:Hdir;
    [|discriminate].
  unfold bindM at 1. unfold makedirs at 1. cbn [dirs written trace slot].
  unfold bindM at 1. unfold emit at 1. cbn [dirs written trace slot].
  unfold bindM at 1. unfold lift at 1.
  destruct (torch_load env (model_path args)) as [model|e]; [|discriminate].
  unfold bindM at 1. unfold lift at 1.
  destruct (normalize_8_bit (first_plane tiff)) as [normalized|e] eqn:En; [|discriminate].
  unfold bindM at 1.
  intro Hok. split; [exact Hdev|]. split; [discriminate|].
  split; [exists tiff; rewrite En; split; reflexivity|].
  intros Hpar HS. rewrite Hpar in Hok. unfold tile_extraction_part in Hok.
  rewrite HS in Hok. discriminate Hok.
Qed.

(** X23: what a successful run of the script implies.  The input and the
    model path are files, [--parallel] is off, the device selector passes the
    check, the image is read and has a supported pixel format, the stride is
    not 0, and the directory [<output>/step1] existed before the run: the
    script makes [<output>] but lists [<output>/step1] before making it, so a
    first run into a new output directory never succeeds. *)
Theorem main_success_requires (env : Env) (host : Host) (args : Args) (w : World) :
  fst (main env host args w) = Ok tt ->
  isfile host (input args) = true
  /\ isfile host (model_path args) = true
  /\ parallel args = false
  /\ device_available env args
  /\ lookup (path_join (output args) "step1") (dirs w) <> None
  /\ (exists tiff, imread env (input args) = Ok tiff
                   /\ is_ok (normalize_8_bit (first_plane tiff)) = true)
  /\ rolling_window args <> 0.
Proof.
  unfold main.
  destruct (isfile host (input args)); [|discriminate].
  destruct (isfile host (model_path args)); [|discriminate].
  destruct (parallel args) eqn:Hpar; [discriminate|]. cbn [negb]. unfold bindM.
  assert (H : forall w1,
             (lookup (path_join (output args) "step1") (dirs w1) <> None ->
              lookup (path_join (output args) "step1") (dirs w) <> None) ->
             fst (pipeline env args w1) = Ok tt ->
             true = true /\ true = true /\ false = false
             /\ device_available env args
             /\ lookup (path_join (output args) "step1") (dirs w) <> None
             /\ (exists tiff, imread env (input args) = Ok tiff
                              /\ is_ok (normalize_8_bit (first_plane tiff)) = true)
             /\ rolling_window args <> 0).
  { intros w1 Hw1 Hok. apply pipeline_success_requires in Hok as (Hdev & Hdir & Himg & HS).
    repeat (split; [reflexivity|]). split; [exact Hdev|]. split; [auto|].
    split; [exact Himg | now apply HS]. }
  destruct (negb (path_exists host (output args))).
  - unfold makedirs. apply H. cbn [dirs].
    destruct (lookup (output args) (dirs w)); [auto|].
    rewrite lookup_snoc_other by apply step1_is_not_output. auto.
  - unfold ret. apply H. auto.
Qed.

Lemma main_success_requires_witness :
  lookup "out/step1" (dirs prepared_world) <> None /\ rolling_window (args_with 16 8) <> 0.
Proof.
  assert (H : fst (main blob_env full_host (args_with 16 8) prepared_world) = Ok tt)
    by (vm_compute; reflexivity).
  destruct (main_success_requires blob_env full_host (args_with 16 8) prepared_world H)
    as (_ & _ & _ & _ & Hdir & _ & HS).
  split; [exact Hdir | exact HS].
Defined.
